(** * Shortest-path planner (hw04): graph, decrease-key heap, Dijkstra engine,
      path renderer, loaders and the command-line driver.

    The driver, the loaders, the search loop and the renderer are embedded
    from [main.c].  The graph and heap modules ([graph.h], [heap.h],
    [graph-private.h]) are not part of the sources at hand; their operations
    are modelled from the specification and are marked as such.

    Conventions of the embedding:
    - an [unsigned int] is a [Z] in [0, 2^32); every operation that can leave
      the range has its wrap-around written out;
    - an [int] is a [Z] in [-2^31, 2^31);
    - a [Node*] is the id of the node it points to; the nodes themselves live
      in the graph, a finite map from ids to node records, and every read or
      write through a pointer goes through that map;
    - the heap is its backing array, a list of node pointers;
    - code whose behaviour the C standard or the heap contract leaves
      undefined yields [Undef]; loops that may run forever take fuel and
      yield [Timeout] when it runs out. *)

From Stdlib Require Import ZArith Lia ZifyNat String Ascii DecimalString.
From stdpp Require Import gmap list strings.

Local Open Scope Z_scope.

(** ** Machine integers *)

Definition UINT_MAX : Z := 4294967295.
Definition INT_MAX : Z := 2147483647.
Definition INT_MIN : Z := -2147483648.

(** Conversion to [unsigned int] and the result of unsigned arithmetic. *)
Definition to_uint (z : Z) : Z := z mod 2 ^ 32.

(** ** Outcomes of code that may be undefined or may not terminate *)

Inductive outcome (A : Type) : Type :=
| Ret (a : A)
| Undef
| Timeout.
Arguments Ret {A} a.
Arguments Undef {A}.
Arguments Timeout {A}.

Definition obind {A B} (m : outcome A) (k : A → outcome B) : outcome B :=
  match m with
  | Ret a => k a
  | Undef => Undef
  | Timeout => Timeout
  end.

Notation "x ←← m ; k" := (obind m (λ x, k))
  (at level 20, m at level 100, k at level 200, only parsing, right associativity).
Notation "' p ←← m ; k" := (obind m (λ p, k))
  (at level 20, p pattern, m at level 100, k at level 200, only parsing,
   right associativity).

(** ** Data model *)

Record edge : Type := { destination : Z; mindelay : Z }.

Record Node : Type := {
  n_id : Z;
  n_distance : Z;
  n_previous : option Z;
  n_heap_index : option nat;
  n_edges : list edge
}.

Abbreviation Graph := (gmap Z Node).
Abbreviation Heap := (list Z).

Definition set_distance (d : Z) (p : option Z) (n : Node) : Node :=
  {| n_id := n_id n; n_distance := d; n_previous := p;
     n_heap_index := n_heap_index n; n_edges := n_edges n |}.

Definition set_heap_index (i : option nat) (n : Node) : Node :=
  {| n_id := n_id n; n_distance := n_distance n; n_previous := n_previous n;
     n_heap_index := i; n_edges := n_edges n |}.

Definition add_edge (e : edge) (n : Node) : Node :=
  {| n_id := n_id n; n_distance := n_distance n; n_previous := n_previous n;
     n_heap_index := n_heap_index n; n_edges := n_edges n ++ [e] |}.

(** ** Graph module *)

(** Modelled from the spec: node creation of the absent graph module.  A new
    node has distance at the infinity sentinel, no predecessor, no heap slot
    and no outgoing edges. *)
Definition new_node (i : Z) : Node :=
  {| n_id := i; n_distance := UINT_MAX; n_previous := None;
     n_heap_index := None; n_edges := [] |}.

(** Modelled from the spec: [graph_new] of the absent graph module. *)
Definition graph_new : Graph := ∅.

(** Modelled from the spec: [graph_insert_node] of the absent graph module.
    Inserting an existing id changes nothing; the only failure is an
    allocation failure, which the model never produces. *)
Definition graph_insert_node (g : Graph) (i : Z) : option Graph :=
  match g !! i with
  | Some _ => Some g
  | None => Some (<[i := new_node i]> g)
  end.

(** Modelled from the spec: [graph_get_node] of the absent graph module.  The
    pointer to a node is its id; an absent id gives the null pointer. *)
Definition graph_get_node (g : Graph) (i : Z) : option Z :=
  match g !! i with
  | Some _ => Some i
  | None => None
  end.

(** Modelled from the spec: [graph_insert_edge] of the absent graph module.
    Both endpoints are created when missing, then the edge is appended to the
    adjacency list of the source node. *)
Definition graph_insert_edge (g : Graph) (s d : Z) (w : Z) : option Graph :=
  g1 ← graph_insert_node g s;
  g2 ← graph_insert_node g1 d;
  Some (alter (add_edge {| destination := d; mindelay := w |}) s g2).

(** Modelled from the spec: the accessors of the absent graph module.  They
    read the node a pointer refers to; the values given for a dangling
    pointer are never used on a well-formed graph. *)
Definition node_get_id (g : Graph) (n : Z) : Z :=
  match g !! n with Some x => n_id x | None => n end.
Definition node_get_distance (g : Graph) (n : Z) : Z :=
  match g !! n with Some x => n_distance x | None => UINT_MAX end.
Definition node_get_previous (g : Graph) (n : Z) : option Z :=
  match g !! n with Some x => n_previous x | None => None end.
Definition node_get_heap_index (g : Graph) (n : Z) : option nat :=
  match g !! n with Some x => n_heap_index x | None => None end.
Definition node_get_edges (g : Graph) (n : Z) : list edge :=
  match g !! n with Some x => n_edges x | None => [] end.
Definition node_get_n_outgoing (g : Graph) (n : Z) : nat :=
  length (node_get_edges g n).

(** ** Heap module *)

Definition parent (i : nat) : nat := ((i - 1) / 2)%nat.
Definition left_child (i : nat) : nat := (2 * i + 1)%nat.
Definition right_child (i : nat) : nat := (2 * i + 2)%nat.

(** Modelled from the spec: the slot exchange of the absent heap module.  Two
    array slots are exchanged and the [heap_index] of both nodes follows. *)
Definition heap_swap (h : Heap) (g : Graph) (i j : nat) : Heap * Graph :=
  match h !! i, h !! j with
  | Some x, Some y =>
      (<[i := y]> (<[j := x]> h),
       alter (set_heap_index (Some i)) y (alter (set_heap_index (Some j)) x g))
  | _, _ => (h, g)
  end.

(** Modelled from the spec: sifting upward in the absent heap module.  The
    node in slot [i] moves up while its distance is smaller than its
    parent's. *)
Fixpoint sift_up (fuel : nat) (h : Heap) (g : Graph) (i : nat) : Heap * Graph :=
  match fuel with
  | O => (h, g)
  | S fuel' =>
      if decide (i = 0%nat) then (h, g)
      else
        match h !! i, h !! parent i with
        | Some x, Some p =>
            if decide (node_get_distance g x < node_get_distance g p) then
              let '(h', g') := heap_swap h g i (parent i) in
              sift_up fuel' h' g' (parent i)
            else (h, g)
        | _, _ => (h, g)
        end
  end.

(** The slot holding the smallest distance among [i] and its children. *)
Definition smallest_of (h : Heap) (g : Graph) (i : nat) : nat :=
  let key (j : nat) : option Z := node_get_distance g <$> h !! j in
  let s1 :=
    match key (left_child i), key i with
    | Some kl, Some ki => if decide (kl < ki) then left_child i else i
    | _, _ => i
    end in
  match key (right_child i), key s1 with
  | Some kr, Some ks => if decide (kr < ks) then right_child i else s1
  | _, _ => s1
  end.

(** Modelled from the spec: sifting downward in the absent heap module.  The
    node in slot [i] moves down, exchanged with its smaller child, while a
    child has a smaller distance. *)
Fixpoint sift_down (fuel : nat) (h : Heap) (g : Graph) (i : nat) : Heap * Graph :=
  match fuel with
  | O => (h, g)
  | S fuel' =>
      let s := smallest_of h g i in
      if decide (s = i) then (h, g)
      else
        let '(h', g') := heap_swap h g i s in
        sift_down fuel' h' g' s
  end.

(** Records the slot of every node of the array, from slot [i] on. *)
Fixpoint record_indices (order : list Z) (i : nat) (g : Graph) : Graph :=
  match order with
  | [] => g
  | x :: rest => record_indices rest (S i) (alter (set_heap_index (Some i)) x g)
  end.

(** The heap built over the nodes taken in a given order.  All keys are
    equal at this point (infinity), so the array is in heap order as it is. *)
Definition heap_build (order : list Z) (g : Graph) : Heap * Graph :=
  (order, record_indices order 0 g).

(** Modelled from the spec: [heap_new_from_graph] of the absent heap module.
    The heap refers to every node of the graph; the order of the nodes in
    the array is the one in which the graph enumerates them.  The only
    failure is an allocation failure, which the model never produces. *)
Definition heap_new_from_graph (g : Graph) : option (Heap * Graph) :=
  Some (heap_build (map_to_list g).*1 g).

(** Modelled from the spec: [heap_is_empty] of the absent heap module. *)
Definition heap_is_empty (h : Heap) : bool :=
  match h with [] => true | _ => false end.

(** A node is present in the heap when its recorded slot holds it. *)
Definition heap_slot (h : Heap) (g : Graph) (n : Z) : option nat :=
  match node_get_heap_index g n with
  | Some i => if decide (h !! i = Some n) then Some i else None
  | None => None
  end.

(** Modelled from the spec: [heap_decrease_distance] of the absent heap
    module.  The contract asks for a node that is still in the heap and a
    new distance not above the current one; outside the contract the
    behaviour is undefined.  Inside it, distance and predecessor are written
    and the node is sifted upward from its slot. *)
Definition heap_decrease_distance (h : Heap) (g : Graph) (n : Z) (val : Z)
    (prev : option Z) : outcome (Heap * Graph) :=
  match heap_slot h g n with
  | Some i =>
      if decide (val ≤ node_get_distance g n) then
        Ret (sift_up (S i) h (alter (set_distance val prev) n g) i)
      else Undef
  | None => Undef
  end.

(** Modelled from the spec: [heap_extract_min] of the absent heap module.
    The root is removed and returned, its [heap_index] set to the
    not-present sentinel; the last slot moves to the root and is sifted
    downward.  An empty heap gives the null pointer. *)
Definition heap_extract_min (h : Heap) (g : Graph) : option (Z * Heap * Graph) :=
  match h with
  | [] => None
  | m :: _ =>
      let g1 := alter (set_heap_index None) m g in
      match last h with
      | Some l =>
          let h1 := take (length h - 1) h in
          match h1 with
          | [] => Some (m, [], g1)
          | _ :: _ =>
              let h2 := <[0%nat := l]> h1 in
              let g2 := alter (set_heap_index (Some 0%nat)) l g1 in
              let '(h3, g3) := sift_down (length h2) h2 g2 0 in
              Some (m, h3, g3)
          end
      | None => None
      end
  end.

(** ** The driver's error classes *)

Inductive errorType : Type :=
| NO_MEMORY
| INVALID_NODE_FILE
| INVALID_EDGES_FILE
| INVALID_SOURCE_NODE_ID
| INVALID_DEST_NODE_ID
| INVALID_NUMBER_OF_PARAMETERS
| NO_PATH
| CANNOT_CREATE_NEW_FILE.

Definition nl : string := String "010" EmptyString.
Definition tab : string := String "009" EmptyString.

(** [errorHandle]: the line written to the standard error stream. *)
Definition errorHandle (e : errorType) : string :=
  match e with
  | NO_MEMORY => "Cannot allocate new memory." +:+ nl
  | INVALID_NODE_FILE =>
      "Cannot open nodes file. No such file or directory." +:+ nl
  | INVALID_EDGES_FILE =>
      "Cannot open edges file. No such file or directory." +:+ nl
  | INVALID_SOURCE_NODE_ID => "Invalid source node id." +:+ nl
  | INVALID_DEST_NODE_ID => "Invalid destination node id." +:+ nl
  | INVALID_NUMBER_OF_PARAMETERS => "Invalid number of parameters." +:+ nl
  | NO_PATH => "No path exists between these two nodes." +:+ nl
  | CANNOT_CREATE_NEW_FILE => "Cannot create new file to print data in." +:+ nl
  end.

(** ** Dijkstra engine *)

(** The body of the [for] loop of [dijkstra]: one outgoing edge of the
    extracted node [node], whose distance at extraction was [d]. *)
Definition relax (h : Heap) (g : Graph) (node : Z) (d : Z) (e : edge)
    : outcome (Heap * Graph) :=
  let tmp := destination e in
  let alt := to_uint (d + mindelay e) in
  if decide (alt < node_get_distance g tmp) then
    heap_decrease_distance h g tmp alt (Some node)
  else Ret (h, g).

(** The [for] loop of [dijkstra] from index [i] on: [tmp_edges] is the edge
    array read before the loop, and the bound is read from the node at every
    test, as in the source.  The index of the source is an [unsigned short];
    the count it is compared with is taken to fit that type. *)
Fixpoint relax_from (fuel : nat) (h : Heap) (g : Graph) (node : Z) (d : Z)
    (tmp_edges : list edge) (i : nat) : outcome (Heap * Graph) :=
  if decide (i < node_get_n_outgoing g node)%nat then
    match fuel with
    | O => Timeout
    | S fuel' =>
        match tmp_edges !! i with
        | Some e =>
            '(h', g') ←← relax h g node d e;
            relax_from fuel' h' g' node d tmp_edges (S i)
        | None => Undef
        end
    end
  else Ret (h, g).

(** The [while] loop of [dijkstra]. *)
Fixpoint dijkstra_loop (fuel : nat) (h : Heap) (g : Graph) (dest : Z)
    : outcome (Heap * Graph) :=
  if heap_is_empty h then Ret (h, g)
  else
    match fuel with
    | O => Timeout
    | S fuel' =>
        match heap_extract_min h g with
        | None => Undef
        | Some (node, h1, g1) =>
            let alt := node_get_distance g1 node in
            let tmp_edges := node_get_edges g1 node in
            let d := alt in
            if decide (alt = UINT_MAX) then Ret (h1, g1)
            else
              '(h2, g2) ←← relax_from (length tmp_edges) h1 g1 node d tmp_edges 0;
              if decide (node = dest) then Ret (h2, g2)
              else dijkstra_loop fuel' h2 g2 dest
        end
    end.

(** What a call leaves behind: the lines written to the standard error
    stream, the graph as the call left it, and the value returned. *)
Record dijkstra_result : Type := {
  dr_heap : option Heap;
  dr_graph : Graph;
  dr_stderr : list string
}.

(** [dijkstra]: the returned heap is [None] for the null pointer. *)
Definition dijkstra (fuel : nat) (g : Graph) (source_id : Z) (dest : Z)
    : outcome dijkstra_result :=
  match heap_new_from_graph g with
  | None =>
      Ret {| dr_heap := None; dr_graph := g;
             dr_stderr := [errorHandle NO_MEMORY] |}
  | Some (h, g0) =>
      match graph_get_node g0 source_id with
      | None =>
          Ret {| dr_heap := None; dr_graph := g0;
                 dr_stderr := [errorHandle INVALID_SOURCE_NODE_ID] |}
      | Some source_node =>
          '(h1, g1) ←← heap_decrease_distance h g0 source_node 0 None;
          '(h2, g2) ←← dijkstra_loop fuel h1 g1 dest;
          Ret {| dr_heap := Some h2; dr_graph := g2; dr_stderr := [] |}
      end
  end.

(** ** Path renderer *)

(** The text of an unsigned number under the [%u] conversion. *)
Definition show_uint (z : Z) : string := NilZero.string_of_uint (N.to_uint (Z.to_N z)).

(** One edge line: ["\t%u -> %u [label=%u];\n"]. *)
Definition edge_line (from to label : Z) : string :=
  tab +:+ show_uint from +:+ " -> " +:+ show_uint to +:+ " [label="
      +:+ show_uint label +:+ "];" +:+ nl.

(** The [while] loop of [printShortestPath]: the lines it prints. *)
Fixpoint print_walk (fuel : nat) (g : Graph) (tmp_node : Z)
    (tmp_prev : option Z) : outcome (list string) :=
  match tmp_prev with
  | None => Ret []
  | Some prev =>
      match fuel with
      | O => Timeout
      | S fuel' =>
          let line :=
            edge_line (node_get_id g prev) (node_get_id g tmp_node)
              (to_uint (node_get_distance g tmp_node - node_get_distance g prev)) in
          rest ←← print_walk fuel' g prev (node_get_previous g prev);
          Ret (line :: rest)
      end
  end.

(** [printShortestPath]: the lines written to the output stream. *)
Definition printShortestPath (fuel : nat) (g : Graph) (source_id : Z) (dest : Z)
    : outcome (list string) :=
  body ←← (if decide (source_id ≠ node_get_id g dest) then
             print_walk fuel g dest (node_get_previous g dest)
           else Ret []);
  Ret (("digraph {" +:+ nl) :: body ++ ["}" +:+ nl]).

(** ** The C library as the loaders and the driver use it *)

Definition isspace (c : ascii) : bool :=
  let n := N_of_ascii c in
  (N.eqb n 32 || (N.leb 9 n && N.leb n 13))%bool.

Definition digit_of (c : ascii) : option Z :=
  let n := Z.of_N (N_of_ascii c) in
  if decide (48 ≤ n ≤ 57) then Some (n - 48) else None.

Fixpoint skip_spaces (s : string) : string :=
  match s with
  | String c s' => if isspace c then skip_spaces s' else s
  | EmptyString => EmptyString
  end.

(** The value of the longest prefix of decimal digits, most significant
    digit first; [acc] is the value read so far. *)
Fixpoint digits_value (acc : Z) (s : string) : Z :=
  match s with
  | String c s' =>
      match digit_of c with
      | Some d => digits_value (acc * 10 + d) s'
      | None => acc
      end
  | EmptyString => acc
  end.

(** The number [atoi] reads: white space is skipped, an optional sign is
    taken, then the longest run of digits; whatever follows is ignored and a
    string without digits at that place gives zero. *)
Definition atoi_value (s : string) : Z :=
  match skip_spaces s with
  | String c s' =>
      if decide (c = "-"%char) then - digits_value 0 s'
      else if decide (c = "+"%char) then digits_value 0 s'
      else digits_value 0 (String c s')
  | EmptyString => 0
  end.

(** [atoi]: the argument is [None] for the null pointer.  The behaviour is
    undefined for the null pointer and for a value that is not an [int]. *)
Definition atoi (nptr : option string) : outcome Z :=
  match nptr with
  | None => Undef
  | Some s =>
      let v := atoi_value s in
      if decide (INT_MIN ≤ v ≤ INT_MAX) then Ret v else Undef
  end.

(** A buffer as the string functions see it: it ends at the first NUL. *)
Fixpoint cstr (s : string) : string :=
  match s with
  | String c s' => if decide (c = "000"%char) then EmptyString else String c (cstr s')
  | EmptyString => EmptyString
  end.

Fixpoint skip_delims (s : string) : string :=
  match s with
  | String c s' => if decide (c = ","%char) then skip_delims s' else s
  | EmptyString => EmptyString
  end.

(** The token at the head of [s] and what follows its delimiter. *)
Fixpoint take_token (s : string) : string * string :=
  match s with
  | String c s' =>
      if decide (c = ","%char) then (EmptyString, s')
      else let '(t, r) := take_token s' in (String c t, r)
  | EmptyString => (EmptyString, EmptyString)
  end.

(** [strtok] with the delimiter [","]: leading delimiters are skipped; the
    result is the token ([None] for the null pointer) and the position
    saved for the next call. *)
Definition strtok (s : string) : option string * string :=
  match skip_delims s with
  | EmptyString => (None, EmptyString)
  | String c s' => let '(t, r) := take_token (String c s') in (Some t, r)
  end.

(** An input stream: what is left to read and the end-of-file indicator. *)
Record FILE : Type := { f_rest : string; f_eof : bool }.

Definition fopen_read (content : string) : FILE :=
  {| f_rest := content; f_eof := false |}.

(** The characters [fgets] stores when it may still store [k] of them: the
    characters read, what is left, and whether the end of file was hit. *)
Fixpoint fgets_chars (k : nat) (s : string) : string * string * bool :=
  match k with
  | O => (EmptyString, s, false)
  | S k' =>
      match s with
      | EmptyString => (EmptyString, EmptyString, true)
      | String c s' =>
          if decide (c = "010"%char) then (String c EmptyString, s', false)
          else
            let '(r, rest, e) := fgets_chars k' s' in
            (String c r, rest, e)
      end
  end.

(** [fgets(buffer, size, f)]: at most [size - 1] characters, up to and
    including a newline.  The result is the new buffer content and the
    stream after the call. *)
Definition fgets (size : nat) (f : FILE) : string * FILE :=
  let '(r, rest, e) := fgets_chars (size - 1) (f_rest f) in
  (r, {| f_rest := rest; f_eof := e |}).

(** ** Loaders *)

(** The [while] loop of [loadNodes]; the result is [None] when the loader
    returns false. *)
Fixpoint loadNodes_loop (fuel : nat) (g : Graph) (f : FILE)
    : outcome (option Graph) :=
  if f_eof f then Ret (Some g)
  else
    match fuel with
    | O => Timeout
    | S fuel' =>
        let '(buffer, f') := fgets 200 f in
        if f_eof f' then Ret (Some g)
        else
          let '(token, _) := strtok (cstr buffer) in
          v ←← atoi token;
          let id := to_uint v in
          match graph_insert_node g id with
          | None => Ret None
          | Some g' => loadNodes_loop fuel' g' f'
          end
    end.

Definition loadNodes (g : Graph) (f : FILE) : outcome (option Graph) :=
  loadNodes_loop (S (String.length (f_rest f))) g f.

(** The [while] loop of [loadEdges]. *)
Fixpoint loadEdges_loop (fuel : nat) (g : Graph) (f : FILE)
    : outcome (option Graph) :=
  if f_eof f then Ret (Some g)
  else
    match fuel with
    | O => Timeout
    | S fuel' =>
        let '(buffer, f') := fgets 200 f in
        if f_eof f' then Ret (Some g)
        else
          let '(token, save) := strtok (cstr buffer) in
          v ←← atoi token;
          let source := to_uint v in
          let '(token, save) := strtok save in
          v ←← atoi token;
          let dest := to_uint v in
          let '(token, save) := strtok save in
          let '(token, save) := strtok save in
          mindelay ←← atoi token;
          match graph_insert_edge g source dest mindelay with
          | None => Ret None
          | Some g' => loadEdges_loop fuel' g' f'
          end
    end.

Definition loadEdges (g : Graph) (f : FILE) : outcome (option Graph) :=
  loadEdges_loop (S (String.length (f_rest f))) g f.

(** ** Driver *)

(** The files the program can open for reading, and the paths at which it
    can create a file. *)
Record Env : Type := {
  fs_read : string → option string;
  fs_can_create : string → bool
}.

(** What a run leaves behind. *)
Record run : Type := {
  exit_code : Z;
  run_stderr : list string;
  run_stdout : list string;
  run_created : option (string * list string)
}.

Definition failure (e : list string) : run :=
  {| exit_code := 1; run_stderr := e; run_stdout := []; run_created := None |}.

(** [app]: [outputFile] is [None] for the null pointer. *)
Definition app (fuel : nat) (env : Env) (nodesFile edgesFile sourceNode destNode : string)
    (outputFile : option string) : outcome run :=
  match fs_read env nodesFile with
  | None => Ret (failure [errorHandle INVALID_NODE_FILE])
  | Some nodes =>
  match fs_read env edgesFile with
  | None => Ret (failure [errorHandle INVALID_EDGES_FILE])
  | Some edges =>
  let g := graph_new in
  r ←← loadNodes g (fopen_read nodes);
  match r with
  | None => Ret (failure [errorHandle NO_MEMORY])
  | Some g =>
  r ←← loadEdges g (fopen_read edges);
  match r with
  | None => Ret (failure [errorHandle NO_MEMORY])
  | Some g =>
  d ←← atoi (Some destNode);
  match graph_get_node g (to_uint d) with
  | None => Ret (failure [errorHandle INVALID_DEST_NODE_ID])
  | Some dest_node =>
  s ←← atoi (Some sourceNode);
  r ←← dijkstra fuel g (to_uint s) dest_node;
  match dr_heap r with
  | None => Ret (failure (dr_stderr r))
  | Some h =>
  let g := dr_graph r in
  if decide (node_get_distance g dest_node = UINT_MAX) then
    Ret (failure [errorHandle NO_PATH])
  else
    match outputFile with
    | None =>
        s ←← atoi (Some sourceNode);
        lines ←← printShortestPath fuel g (to_uint s) dest_node;
        Ret {| exit_code := 0; run_stderr := []; run_stdout := lines;
               run_created := None |}
    | Some name =>
        if fs_can_create env name then
          s ←← atoi (Some sourceNode);
          lines ←← printShortestPath fuel g (to_uint s) dest_node;
          Ret {| exit_code := 0; run_stderr := []; run_stdout := [];
                 run_created := Some (name, lines) |}
        else Ret (failure [errorHandle CANNOT_CREATE_NEW_FILE])
    end
  end end end end end end.

(** [main]: [argv] without the program name. *)
Definition main (fuel : nat) (env : Env) (argv : list string) : outcome run :=
  match argv with
  | [a1; a2; a3; a4] => app fuel env a1 a2 a3 a4 None
  | [a1; a2; a3; a4; a5] => app fuel env a1 a2 a3 a4 (Some a5)
  | _ => Ret (failure [errorHandle INVALID_NUMBER_OF_PARAMETERS])
  end.

(** * The vocabulary of the properties

    What the statements below are made of: the part of the graph the heap
    operations leave alone, the heap invariant, paths and weights, the
    invariants of the search, well-formed graphs, the inputs of the
    examples, the printed path, the ways a run ends, the lines and fields of
    the input files, and the files and the memory a run holds. *)

(** ** Heaps

    The heap operations write [heap_index] only.  [erase] forgets that
    field, so that two graphs with the same erasure agree on every id,
    distance, predecessor and edge list. *)
Definition erase (g : Graph) : Graph := set_heap_index None <$> g.

(** The array after the exchange of two slots. *)
Definition swap_arr (h : Heap) (i j : nat) : Heap :=
  match h !! i, h !! j with
  | Some x, Some y => <[i := y]> (<[j := x]> h)
  | _, _ => h
  end.

(** Every node of the array knows its slot. *)
Definition indexed (h : Heap) (g : Graph) : Prop :=
  ∀ i x, h !! i = Some x → node_get_heap_index g x = Some i.

(** Heap order: no node is below its parent. *)
Definition heap_ordered (k : Z → Z) (h : Heap) : Prop :=
  ∀ j x y, (0 < j)%nat →
    h !! parent j = Some x → h !! j = Some y → k x ≤ k y.

(** Heap order but for the link from slot [i] to its parent. *)
Definition ordered_but_child (k : Z → Z) (h : Heap) (i : nat) : Prop :=
  ∀ j x y, (0 < j)%nat → j ≠ i →
    h !! parent j = Some x → h !! j = Some y → k x ≤ k y.

(** Heap order but for the links from slot [i] to its children. *)
Definition ordered_but_parent (k : Z → Z) (h : Heap) (i : nat) : Prop :=
  ∀ j x y, (0 < j)%nat → parent j ≠ i →
    h !! parent j = Some x → h !! j = Some y → k x ≤ k y.

(** The parent of slot [i] is not above the children of slot [i]. *)
Definition grandparent_le (k : Z → Z) (h : Heap) (i : nat) : Prop :=
  ∀ c z y, (0 < i)%nat → (0 < c)%nat → parent c = i →
    h !! parent i = Some z → h !! c = Some y → k z ≤ k y.

(** The heap invariant: the nodes know their slots and the array is in heap
    order by distance. *)
Definition heap_ok (h : Heap) (g : Graph) : Prop :=
  indexed h g ∧ heap_ordered (node_get_distance g) h.

(** ** Graphs, paths and weights *)

(** Two graphs with the same nodes and the same edges. *)
Definition same_shape (g g' : Graph) : Prop :=
  (∀ n, node_get_edges g' n = node_get_edges g n) ∧
  (∀ n, node_get_id g' n = node_get_id g n) ∧
  (∀ n, is_Some (g' !! n) ↔ is_Some (g !! n)).

(** [path g s v w]: the edges of [g] lead from [s] to [v] along a path whose
    weights add up to [w]. *)
Inductive path (g : Graph) (s : Z) : Z → Z → Prop :=
| path_here : path g s s 0
| path_step v e w :
    path g s v w → e ∈ node_get_edges g v →
    path g s (destination e) (w + mindelay e).

(** The sum of a list of numbers. *)
Fixpoint sumZ (l : list Z) : Z :=
  match l with
  | [] => 0
  | x :: l' => x + sumZ l'
  end.

(** The weights of the edges leaving a node, added up. *)
Definition node_weight (g : Graph) (n : Z) : Z :=
  sumZ (mindelay <$> node_get_edges g n).

(** The weights of the edges leaving the nodes of a list, added up. *)
Definition heap_weight (g : Graph) (l : list Z) : Z :=
  sumZ (node_weight g <$> l).

(** The weights of all edges of the graph, added up. *)
Definition total_weight (g : Graph) : Z :=
  heap_weight g (map_to_list g).*1.

(** Every edge leads to a node of the graph and no weight is negative. *)
Definition edges_ok (g : Graph) : Prop :=
  ∀ n e, e ∈ node_get_edges g n →
    is_Some (g !! destination e) ∧ 0 ≤ mindelay e.

(** A node as the graph module creates it: filed under its own id, not yet
    reached, and with edges to nodes of the graph only. *)
Definition node_wf (g : Graph) (k : Z) (n : Node) : Prop :=
  n_id n = k ∧ n_distance n = UINT_MAX ∧ n_previous n = None ∧
  Forall (λ e, is_Some (g !! destination e)) (n_edges n).

(** A graph as the loaders leave it. *)
Definition graph_wf (g : Graph) : Prop := map_Forall (node_wf g) g.

(** No edge has a negative weight. *)
Definition nonneg_weights (g : Graph) : Prop :=
  map_Forall (λ _ n, Forall (λ e, 0 ≤ mindelay e) (n_edges n)) g.

Global Instance node_wf_dec g k n : Decision (node_wf g k n).
Proof. unfold node_wf. apply _. Defined.

Global Instance graph_wf_dec g : Decision (graph_wf g).
Proof. unfold graph_wf. apply _. Defined.

Global Instance nonneg_weights_dec g : Decision (nonneg_weights g).
Proof. unfold nonneg_weights. apply _. Defined.

(** The graph the driver has built when it starts the search. *)
Definition loaded (env : Env) (nodesFile edgesFile : string) (g : Graph) : Prop :=
  ∃ nodes edges g1,
    fs_read env nodesFile = Some nodes ∧ fs_read env edgesFile = Some edges ∧
    loadNodes graph_new (fopen_read nodes) = Ret (Some g1) ∧
    loadEdges g1 (fopen_read edges) = Ret (Some g).

(** ** The search

    The invariant of the loop for graphs without negative weights whose
    weights add up to less than the infinity sentinel: [done] lists the
    nodes extracted so far, [h] is the heap, [M] is the distance of the node
    extracted last, and [R] tells which edges have been relaxed. *)
Record search_inv (s : Z) (R : Z → edge → Prop) (M : Z) (done : list Z)
    (h : Heap) (g : Graph) : Prop := {
  inv_heap : heap_ok h g;
  inv_nodup : NoDup (done ++ h);
  inv_dom : ∀ n, is_Some (g !! n) ↔ n ∈ done ++ h;
  inv_edges : edges_ok g;
  inv_total : heap_weight g (done ++ h) < UINT_MAX;
  inv_source : node_get_distance g s = 0;
  inv_range : ∀ n, 0 ≤ node_get_distance g n ≤ UINT_MAX;
  inv_path : ∀ n, node_get_distance g n ≠ UINT_MAX →
    path g s n (node_get_distance g n);
  inv_bound_heap : ∀ n, n ∈ h → node_get_distance g n ≠ UINT_MAX →
    node_get_distance g n ≤ heap_weight g done;
  inv_bound_done : ∀ n, n ∈ done →
    node_get_distance g n + node_weight g n ≤ heap_weight g done;
  inv_done_le : ∀ n, n ∈ done → node_get_distance g n ≤ M;
  inv_heap_ge : ∀ n, n ∈ h → M ≤ node_get_distance g n;
  inv_relaxed : ∀ u e, R u e →
    node_get_distance g (destination e) ≤ node_get_distance g u + mindelay e
}.

(** The edges relaxed between two iterations: those of the extracted nodes. *)
Definition done_edges (done : list Z) (g : Graph) (u : Z) (e : edge) : Prop :=
  u ∈ done ∧ e ∈ node_get_edges g u.

(** The edges relaxed inside an iteration: also the edges [pre] of the node
    [u] extracted last. *)
Definition some_edges (done : list Z) (g : Graph) (u : Z) (pre : list edge)
    (x : Z) (e : edge) : Prop :=
  done_edges done g x e ∨ x = u ∧ e ∈ pre.

(** What the search has to establish for the target [dest]. *)
Definition result_ok (s dest : Z) (g : Graph) : Prop :=
  (node_get_distance g dest ≠ UINT_MAX →
     path g s dest (node_get_distance g dest) ∧
     ∀ w, path g s dest w → node_get_distance g dest ≤ w) ∧
  (node_get_distance g dest = UINT_MAX → ∀ w, ¬ path g s dest w).

(** A state of the loop in which the target is still in the heap. *)
Definition loop_state_ok (s dest : Z) (h : Heap) (g : Graph) : Prop :=
  ∃ M done, search_inv s (done_edges done g) M done h g ∧ dest ∈ h.

(** The [for] loop runs over the edge array from its first to its last
    element, in order, and nothing else. *)
Fixpoint relax_all (h : Heap) (g : Graph) (u : Z) (d : Z) (es : list edge)
    : outcome (Heap * Graph) :=
  match es with
  | [] => Ret (h, g)
  | e :: es' => '(h', g') ←← relax h g u d e; relax_all h' g' u d es'
  end.

(** What holds of the distances whatever the weights are: they stay in
    range, the source stays at distance zero without a predecessor, and every node that is reached can be reached along edges
    and has a reached predecessor unless it is the source. *)
Record reached_inv (s : Z) (g : Graph) : Prop := {
  ri_range : ∀ n, 0 ≤ node_get_distance g n ≤ UINT_MAX;
  ri_source : node_get_distance g s = 0;
  ri_source_prev : node_get_previous g s = None;
  ri_path : ∀ n, node_get_distance g n ≠ UINT_MAX → ∃ w, path g s n w;
  ri_prev : ∀ n, node_get_distance g n ≠ UINT_MAX → n ≠ s →
    ∃ p, node_get_previous g n = Some p ∧ node_get_distance g p ≠ UINT_MAX
}.

(** An iteration of the loop after which the loop goes on: it extracts a
    reached node other than the target and relaxes its edges. *)
Definition search_step (dest : Z) (st st' : Heap * Graph) : Prop :=
  ∃ u h1 g1,
    heap_extract_min st.1 st.2 = Some (u, h1, g1) ∧
    node_get_distance g1 u ≠ UINT_MAX ∧
    relax_all h1 g1 u (node_get_distance g1 u) (node_get_edges g1 u) = Ret st' ∧
    u ≠ dest.

(** The state after one more iteration of the loop. *)
Definition run_step (st : Heap * Graph) : Heap * Graph :=
  match heap_extract_min st.1 st.2 with
  | Some (u, h1, g1) =>
      match relax_all h1 g1 u (node_get_distance g1 u) (node_get_edges g1 u) with
      | Ret st' => st'
      | _ => st
      end
  | None => st
  end.

(** The runs of the [while] loop, iteration by iteration:
    [loop_run dest st k o] when the loop entered in the state [st] ends with
    the outcome [o] after [k] extractions.  The loop ends on an empty heap,
    on the extraction of a node at the infinity sentinel, after the
    relaxations of the target, or at a relaxation that the contract of the
    heap leaves undefined; any other iteration is followed by the next. *)
Inductive loop_run (dest : Z) : Heap * Graph → nat → outcome (Heap * Graph) → Prop :=
| run_empty g : loop_run dest ([], g) 0 (Ret ([], g))
| run_unreached h g u h1 g1 :
    heap_extract_min h g = Some (u, h1, g1) →
    node_get_distance g1 u = UINT_MAX →
    loop_run dest (h, g) 1 (Ret (h1, g1))
| run_target h g h1 g1 st :
    heap_extract_min h g = Some (dest, h1, g1) →
    node_get_distance g1 dest ≠ UINT_MAX →
    relax_all h1 g1 dest (node_get_distance g1 dest) (node_get_edges g1 dest) =
      Ret st →
    loop_run dest (h, g) 1 (Ret st)
| run_undefined h g u h1 g1 :
    heap_extract_min h g = Some (u, h1, g1) →
    node_get_distance g1 u ≠ UINT_MAX →
    relax_all h1 g1 u (node_get_distance g1 u) (node_get_edges g1 u) = Undef →
    loop_run dest (h, g) 1 Undef
| run_more st st' k o :
    search_step dest st st' → loop_run dest st' k o →
    loop_run dest st (S k) o.

(** The search of [dijkstra] on a heap whose array starts in a given order. *)
Definition search_from_order (fuel : nat) (order : list Z) (g : Graph)
    (source_id dest : Z) : outcome (Heap * Graph) :=
  let '(h, g0) := heap_build order g in
  '(h1, g1) ←← heap_decrease_distance h g0 source_id 0 None;
  dijkstra_loop fuel h1 g1 dest.

(** ** The renderer *)

(** [prev_chain g n l]: following the predecessor links from [n] visits the
    nodes of [l], the last of which has no predecessor. *)
Inductive prev_chain (g : Graph) : Z → list Z → Prop :=
| chain_end n : node_get_previous g n = None → prev_chain g n []
| chain_link n p l :
    node_get_previous g n = Some p → prev_chain g p l → prev_chain g n (p :: l).

(** The edge lines of a chain that starts at [n]: the link that ends in [n]
    comes first. *)
Fixpoint chain_lines (g : Graph) (n : Z) (l : list Z) : list string :=
  match l with
  | [] => []
  | p :: l' =>
      edge_line (node_get_id g p) (node_get_id g n)
        (to_uint (node_get_distance g n - node_get_distance g p))
      :: chain_lines g p l'
  end.



(** ** Numbers read with [atoi] *)

(** A string of decimal digits. *)
Fixpoint all_digits (s : string) : bool :=
  match s with
  | String c s' => bool_decide (is_Some (digit_of c)) && all_digits s'
  | EmptyString => true
  end.

(** A string that is a decimal numeral and nothing else: an optional sign
    and one or more digits. *)
Definition is_numeral (s : string) : bool :=
  match s with
  | String c s' =>
      if decide (c = "-"%char ∨ c = "+"%char) then
        negb (String.eqb s' EmptyString) && all_digits s'
      else negb (String.eqb s EmptyString) && all_digits s
  | EmptyString => false
  end.

(** A string with no number at its head: after white space and an optional
    sign it does not go on with a digit. *)
Definition no_leading_digit (s : string) : Prop :=
  match skip_spaces s with
  | String c s' =>
      if decide (c = "-"%char ∨ c = "+"%char) then
        match s' with
        | String c' _ => digit_of c' = None
        | EmptyString => True
        end
      else digit_of c = None
  | EmptyString => True
  end.

(** ** The inputs of the examples *)

(** The files of the three-node scenario. *)
Definition scenario_nodes : string :=
  "1" +:+ nl +:+ "2" +:+ nl +:+ "3" +:+ nl.

Definition scenario_edges : string :=
  "1,2,a,5" +:+ nl +:+ "2,3,b,2" +:+ nl +:+ "1,3,c,10" +:+ nl.

(** A file system with those two files, in which any file can be created. *)
Definition scenario_env : Env := {|
  fs_read := λ name,
    if decide (name = "nodes") then Some scenario_nodes
    else if decide (name = "edges") then Some scenario_edges
    else None;
  fs_can_create := λ _, true
|}.

(** The graph with nodes 1, 2, 3 and edges (1,2,5), (2,3,2), (1,3,10). *)
Definition scenario_graph : Graph :=
  default ∅
    (g ← graph_insert_node graph_new 1;
     g ← graph_insert_node g 2;
     g ← graph_insert_node g 3;
     g ← graph_insert_edge g 1 2 5;
     g ← graph_insert_edge g 2 3 2;
     graph_insert_edge g 1 3 10).

(** What the run of the scenario prints. *)
Definition scenario_output : list string :=
  [ "digraph {" +:+ nl;
    tab +:+ "2 -> 3 [label=2];" +:+ nl;
    tab +:+ "1 -> 2 [label=5];" +:+ nl;
    "}" +:+ nl ].

(** The scenario after the source is set to zero. *)
Definition scenario_start : Heap * Graph :=
  match heap_new_from_graph scenario_graph with
  | Some (h, g) =>
      match heap_decrease_distance h g 1 0 None with
      | Ret st => st
      | _ => ([], ∅)
      end
  | None => ([], ∅)
  end.

(** The scenario after the extraction of node 1. *)
Definition scenario_extracted : Z * Heap * Graph :=
  default (0, [], ∅) (heap_extract_min scenario_start.1 scenario_start.2).

(** The graph the search leaves behind in the three-node scenario. *)
Definition scenario_result : Graph :=
  match dijkstra 3 scenario_graph 1 3 with
  | Ret r => dr_graph r
  | _ => ∅
  end.

(** The three-node scenario after the extraction of nodes 1 and 2. *)
Definition scenario_before_target : Heap * Graph :=
  run_step (run_step scenario_start).

(** The scenario after the extraction of the target 3. *)
Definition scenario_target_extracted : Z * Heap * Graph :=
  default (0, [], ∅)
    (heap_extract_min scenario_before_target.1 scenario_before_target.2).

(** One edge of weight -1, from 1 to 2. *)
Definition negative_graph : Graph :=
  default ∅ (graph_insert_edge graph_new 1 2 (-1)).

(** A chain of three edges of the largest weight an [int] can hold. *)
Definition overflow_graph : Graph :=
  default ∅
    (g ← graph_insert_edge graph_new 1 2 INT_MAX;
     g ← graph_insert_edge g 2 3 INT_MAX;
     graph_insert_edge g 3 4 INT_MAX).

(** ** The path the run prints *)

(** The predecessor links as the search leaves them between two iterations:
    the source has none, and every other reached node is the end of an edge
    that starts at its predecessor, a node extracted before it, and accounts
    for the difference of the two distances. *)
Record tree_inv (s : Z) (done : list Z) (g : Graph) : Prop := {
  ti_source : node_get_previous g s = None;
  ti_link : ∀ n, node_get_distance g n ≠ UINT_MAX → n ≠ s →
    ∃ p e, node_get_previous g n = Some p ∧ e ∈ node_get_edges g p ∧
      destination e = n ∧
      node_get_distance g n = node_get_distance g p + mindelay e ∧
      p ∈ done ∧ ∀ l1 l2, done = l1 ++ n :: l2 → p ∈ l2
}.

(** [route g n s steps]: [steps] lists edges of [g] as triples (start, end,
    weight); the first one ends in [n], each of the others ends where the one
    before it starts, and the last one starts at [s]. *)
Inductive route (g : Graph) : Z → Z → list (Z * Z * Z) → Prop :=
| route_here n : route g n n []
| route_back n p c s rest :
    {| destination := n; mindelay := c |} ∈ node_get_edges g p →
    route g p s rest →
    route g n s ((p, n, c) :: rest).

(** The line printed for an edge. *)
Definition step_line (st : Z * Z * Z) : string := edge_line st.1.1 st.1.2 st.2.

(** The weights of the edges of a route, added up. *)
Definition route_weight (steps : list (Z * Z * Z)) : Z := sumZ (snd <$> steps).

(** ** The runs of the driver *)

(** What is behind a message of the driver.  Allocation failures are not
    modelled, so nothing is said about the message for them. *)
Definition reported_for (fuel : nat) (env : Env)
    (nodesFile edgesFile sourceNode destNode : string)
    (outputFile : option string) (e : errorType) : Prop :=
  match e with
  | NO_MEMORY => True
  | INVALID_NODE_FILE => fs_read env nodesFile = None
  | INVALID_EDGES_FILE =>
      is_Some (fs_read env nodesFile) ∧ fs_read env edgesFile = None
  | INVALID_DEST_NODE_ID =>
      ∃ g d, loaded env nodesFile edgesFile g ∧
        atoi (Some destNode) = Ret d ∧ g !! to_uint d = None
  | INVALID_SOURCE_NODE_ID =>
      ∃ g d s, loaded env nodesFile edgesFile g ∧
        atoi (Some destNode) = Ret d ∧ is_Some (g !! to_uint d) ∧
        atoi (Some sourceNode) = Ret s ∧ g !! to_uint s = None
  | INVALID_NUMBER_OF_PARAMETERS => False
  | NO_PATH =>
      ∃ g d s r, loaded env nodesFile edgesFile g ∧
        atoi (Some destNode) = Ret d ∧ is_Some (g !! to_uint d) ∧
        atoi (Some sourceNode) = Ret s ∧ is_Some (g !! to_uint s) ∧
        dijkstra fuel g (to_uint s) (to_uint d) = Ret r ∧
        node_get_distance (dr_graph r) (to_uint d) = UINT_MAX
  | CANNOT_CREATE_NEW_FILE =>
      ∃ name g d s r, outputFile = Some name ∧ fs_can_create env name = false ∧
        loaded env nodesFile edgesFile g ∧
        atoi (Some destNode) = Ret d ∧ atoi (Some sourceNode) = Ret s ∧
        dijkstra fuel g (to_uint s) (to_uint d) = Ret r ∧
        node_get_distance (dr_graph r) (to_uint d) ≠ UINT_MAX
  end.

(** A run that has written a graph description: to the standard output
    when no output file is named, to that file otherwise. *)
Definition written (outputFile : option string) (r : run) : Prop :=
  exit_code r = 0 ∧ run_stderr r = [] ∧
  ∃ body,
    let text := ("digraph {" +:+ nl) :: body ++ ["}" +:+ nl] in
    match outputFile with
    | None => run_stdout r = text ∧ run_created r = None
    | Some name => run_stdout r = [] ∧ run_created r = Some (name, text)
    end.

(** ** The search on any weights *)

(** Every distance that is not the infinity sentinel is the weight of a path
    from the source, reduced modulo 2^32. *)
Definition wrapped_inv (s : Z) (g : Graph) : Prop :=
  ∀ n, node_get_distance g n ≠ UINT_MAX →
    ∃ w, path g s n w ∧ to_uint w = node_get_distance g n.

(** What the search from node 1 to node 4 returns on the chain of three
    edges of the largest weight. *)
Definition overflow_search : dijkstra_result :=
  match dijkstra 4 overflow_graph 1 4 with
  | Ret r => r
  | _ => {| dr_heap := None; dr_graph := ∅; dr_stderr := [] |}
  end.

(** ** The files the loaders read *)

(** A text made of whole lines: it is empty or ends with a newline. *)
Fixpoint whole_lines (s : string) : bool :=
  match s with
  | EmptyString => true
  | String c s' =>
      match s' with
      | EmptyString => bool_decide (c = "010"%char)
      | String _ _ => whole_lines s'
      end
  end.

(** A text without a newline. *)
Fixpoint no_newline (s : string) : bool :=
  match s with
  | EmptyString => true
  | String c s' => bool_decide (c ≠ "010"%char) && no_newline s'
  end.

(** The loop the two loaders share; [body] is what is done with the line
    read. *)
Fixpoint lines_loop (body : Graph → string → outcome (option Graph))
    (fuel : nat) (g : Graph) (f : FILE) : outcome (option Graph) :=
  if f_eof f then Ret (Some g)
  else
    match fuel with
    | O => Timeout
    | S fuel' =>
        let '(buffer, f') := fgets 200 f in
        if f_eof f' then Ret (Some g)
        else
          r ←← body g buffer;
          match r with
          | None => Ret None
          | Some g' => lines_loop body fuel' g' f'
          end
    end.

(** What [loadNodes] does with a line. *)
Definition node_record (g : Graph) (buffer : string) : outcome (option Graph) :=
  let '(token, _) := strtok (cstr buffer) in
  v ←← atoi token;
  Ret (graph_insert_node g (to_uint v)).

(** What [loadEdges] does with a line. *)
Definition edge_record (g : Graph) (buffer : string) : outcome (option Graph) :=
  let '(token, save) := strtok (cstr buffer) in
  v ←← atoi token;
  let source := to_uint v in
  let '(token, save) := strtok save in
  v ←← atoi token;
  let dest := to_uint v in
  let '(token, save) := strtok save in
  let '(token, save) := strtok save in
  mindelay ←← atoi token;
  Ret (graph_insert_edge g source dest mindelay).

(** Loading one text after another. *)
Definition load_then (load : Graph → FILE → outcome (option Graph))
    (g : Graph) (c1 c2 : string) : outcome (option Graph) :=
  r ←← load g (fopen_read c1);
  match r with
  | None => Ret None
  | Some g1 => load g1 (fopen_read c2)
  end.

(** What a loader does with the first piece of a text, and then with the
    rest of the text. *)
Definition record_then (body : Graph → string → outcome (option Graph))
    (load : Graph → FILE → outcome (option Graph))
    (g : Graph) (piece rest : string) : outcome (option Graph) :=
  r ←← body g piece;
  match r with
  | None => Ret None
  | Some g1 => load g1 (fopen_read rest)
  end.

(** A text of [n] times the character [c]. *)
Fixpoint chars (n : nat) (c : ascii) : string :=
  match n with
  | O => EmptyString
  | S n' => String c (chars n' c)
  end.

(** The pieces of a line between commas. *)
Fixpoint split_commas (s : string) : list string :=
  match s with
  | EmptyString => [EmptyString]
  | String c s' =>
      if decide (c = ","%char) then EmptyString :: split_commas s'
      else
        match split_commas s' with
        | t :: ts => String c t :: ts
        | [] => [String c EmptyString]
        end
  end.

(** The fields of a line: the pieces between commas that are not empty. *)
Definition fields (s : string) : list string :=
  filter (λ t, t ≠ EmptyString) (split_commas s).


(** A graph with the nodes of another one, each with the edges it had and
    possibly more after them. *)
Definition grows (g g' : Graph) : Prop :=
  ∀ k x, g !! k = Some x →
    ∃ more, g' !! k = Some
      {| n_id := n_id x; n_distance := n_distance x;
         n_previous := n_previous x; n_heap_index := n_heap_index x;
         n_edges := n_edges x ++ more |}.

(** Ids that fit an [unsigned int] and weights that fit an [int]. *)
Definition in_range (g : Graph) : Prop :=
  ∀ k x, g !! k = Some x →
    0 ≤ k ≤ UINT_MAX ∧
    Forall (λ e, 0 ≤ destination e ≤ UINT_MAX ∧ INT_MIN ≤ mindelay e ≤ INT_MAX)
      (n_edges x).

(** ** Predecessor links that form a cycle *)

(** Two nodes, each the predecessor of the other. *)
Definition cyclic_graph : Graph :=
  <[1 := {| n_id := 1; n_distance := 0; n_previous := Some 2;
            n_heap_index := None; n_edges := [] |}]>
    (<[2 := {| n_id := 2; n_distance := 0; n_previous := Some 1;
               n_heap_index := None; n_edges := [] |}]> ∅).

(** ** Files and memory *)

(** What a run holds: the two input files, the output file, the standard
    output, the graph and the heap. *)
Inductive resource : Type :=
| NodesFile | EdgesFile | OutputFile | StandardOutput | TheGraph | TheHeap.

Global Instance resource_eq_dec : EqDecision resource.
Proof. solve_decision. Defined.

(** Opening or allocating, and closing or freeing. *)
Inductive event : Type :=
| Acquire (r : resource)
| Release (r : resource).

(** What [dijkstra] allocates and frees: the heap, freed again when the
    source id is not in the graph. *)
Definition dijkstra_events (g : Graph) (source_id : Z) : list event :=
  match heap_new_from_graph g with
  | None => []
  | Some (h, g0) =>
      match graph_get_node g0 source_id with
      | None => [Acquire TheHeap; Release TheHeap]
      | Some _ => [Acquire TheHeap]
      end
  end.

(** [app] with the calls of [fopen], [fclose], [closeFiles], [graph_new],
    [graph_free] and [heap_free] it makes, in order; [dijkstra] allocates
    the heap. *)
Definition app_events (fuel : nat) (env : Env)
    (nodesFile edgesFile sourceNode destNode : string)
    (outputFile : option string) : outcome (list event) :=
  match fs_read env nodesFile with
  | None => Ret []
  | Some nodes =>
  match fs_read env edgesFile with
  | None => Ret [Acquire NodesFile; Release NodesFile]
  | Some edges =>
  let opened := [Acquire NodesFile; Acquire EdgesFile; Acquire TheGraph] in
  let closeFiles := [Release NodesFile; Release EdgesFile] in
  let g := graph_new in
  r ←← loadNodes g (fopen_read nodes);
  match r with
  | None => Ret (opened ++ [Release TheGraph] ++ closeFiles)
  | Some g =>
  r ←← loadEdges g (fopen_read edges);
  match r with
  | None => Ret (opened ++ [Release TheGraph] ++ closeFiles)
  | Some g =>
  d ←← atoi (Some destNode);
  match graph_get_node g (to_uint d) with
  | None => Ret (opened ++ [Release TheGraph] ++ closeFiles)
  | Some dest_node =>
  s ←← atoi (Some sourceNode);
  r ←← dijkstra fuel g (to_uint s) dest_node;
  let search := opened ++ dijkstra_events g (to_uint s) in
  match dr_heap r with
  | None => Ret (search ++ [Release TheGraph] ++ closeFiles)
  | Some h =>
  let g := dr_graph r in
  if decide (node_get_distance g dest_node = UINT_MAX) then
    Ret (search ++ [Release TheHeap; Release TheGraph] ++ closeFiles)
  else
    match outputFile with
    | None =>
        s ←← atoi (Some sourceNode);
        lines ←← printShortestPath fuel g (to_uint s) dest_node;
        Ret (search ++ [Release TheHeap; Release TheGraph] ++ closeFiles
               ++ [Release StandardOutput])
    | Some name =>
        if fs_can_create env name then
          s ←← atoi (Some sourceNode);
          lines ←← printShortestPath fuel g (to_uint s) dest_node;
          Ret (search ++ [Acquire OutputFile]
                 ++ [Release TheHeap; Release TheGraph] ++ closeFiles
                 ++ [Release OutputFile])
        else Ret (search ++ [Release TheHeap; Release TheGraph] ++ closeFiles)
    end
  end end end end end end.

(** What is held after a list of events, starting from [held]; [None] when
    something is acquired while it is held or released while it is not. *)
Fixpoint replay (evs : list event) (held : list resource) : option (list resource) :=
  match evs with
  | [] => Some held
  | Acquire r :: evs' =>
      if decide (r ∈ held) then None else replay evs' (r :: held)
  | Release r :: evs' =>
      if decide (r ∈ held) then replay evs' (filter (λ x, x ≠ r) held) else None
  end.

(** * Properties *)

(** Linear arithmetic with division and remainder by constants. *)
Ltac zlia := zify; Z.div_mod_to_equations; lia.

(** ** What the heap operations leave alone *)

Lemma erase_lookup (g : Graph) n : erase g !! n = set_heap_index None <$> (g !! n).
Proof. unfold erase. apply lookup_fmap. Qed.

Lemma distance_erase (g : Graph) n :
  node_get_distance (erase g) n = node_get_distance g n.
Proof.
  unfold node_get_distance. rewrite erase_lookup. by destruct (g !! n).
Qed.

Lemma previous_erase (g : Graph) n :
  node_get_previous (erase g) n = node_get_previous g n.
Proof.
  unfold node_get_previous. rewrite erase_lookup. by destruct (g !! n).
Qed.

Lemma edges_erase (g : Graph) n : node_get_edges (erase g) n = node_get_edges g n.
Proof.
  unfold node_get_edges. rewrite erase_lookup. by destruct (g !! n).
Qed.

Lemma id_erase (g : Graph) n : node_get_id (erase g) n = node_get_id g n.
Proof.
  unfold node_get_id. rewrite erase_lookup. by destruct (g !! n).
Qed.

Lemma is_Some_erase (g : Graph) n : is_Some (erase g !! n) ↔ is_Some (g !! n).
Proof. rewrite erase_lookup. apply fmap_is_Some. Qed.

Section same_erasure.

Context (g g' : Graph) (Heq : erase g' = erase g).

Lemma erase_eq_distance n : node_get_distance g' n = node_get_distance g n.
Proof using Heq. by rewrite <- (distance_erase g'), Heq, distance_erase. Qed.

Lemma erase_eq_previous n : node_get_previous g' n = node_get_previous g n.
Proof using Heq. by rewrite <- (previous_erase g'), Heq, previous_erase. Qed.

Lemma erase_eq_edges n : node_get_edges g' n = node_get_edges g n.
Proof using Heq. by rewrite <- (edges_erase g'), Heq, edges_erase. Qed.

Lemma erase_eq_id n : node_get_id g' n = node_get_id g n.
Proof using Heq. by rewrite <- (id_erase g'), Heq, id_erase. Qed.

Lemma erase_eq_is_Some n : is_Some (g' !! n) ↔ is_Some (g !! n).
Proof using Heq. by rewrite <- (is_Some_erase g'), Heq, is_Some_erase. Qed.

Lemma erase_eq_n_outgoing n : node_get_n_outgoing g' n = node_get_n_outgoing g n.
Proof using Heq. unfold node_get_n_outgoing. by rewrite erase_eq_edges. Qed.

End same_erasure.

Lemma erase_alter_index (g : Graph) i n : erase (alter (set_heap_index i) n g) = erase g.
Proof.
  apply map_eq. intros m. rewrite !erase_lookup, lookup_alter.
  case_decide; subst; [|done]. by destruct (g !! m).
Qed.

Lemma erase_alter_distance (g : Graph) v p n :
  erase (alter (set_distance v p) n g) = alter (set_distance v p) n (erase g).
Proof.
  apply map_eq. intros m. rewrite erase_lookup, !lookup_alter, !erase_lookup.
  case_decide; subst; [|done]. by destruct (g !! m).
Qed.

Lemma heap_index_alter (g : Graph) i n m :
  node_get_heap_index (alter (set_heap_index i) n g) m =
  if decide (n = m) then (match g !! n with Some _ => i | None => None end)
  else node_get_heap_index g m.
Proof.
  unfold node_get_heap_index. rewrite lookup_alter.
  case_decide; subst; [|done]. by destruct (g !! m).
Qed.

Lemma heap_index_alter_distance (g : Graph) v p n m :
  node_get_heap_index (alter (set_distance v p) n g) m = node_get_heap_index g m.
Proof.
  unfold node_get_heap_index. rewrite lookup_alter.
  case_decide; subst; [|done]. by destruct (g !! m).
Qed.

Lemma distance_alter (g : Graph) v p n m :
  node_get_distance (alter (set_distance v p) n g) m =
  if decide (n = m) then (match g !! n with Some _ => v | None => UINT_MAX end)
  else node_get_distance g m.
Proof.
  unfold node_get_distance. rewrite lookup_alter.
  case_decide; subst; [|done]. by destruct (g !! m).
Qed.

Lemma previous_alter (g : Graph) v p n m :
  node_get_previous (alter (set_distance v p) n g) m =
  if decide (n = m) then (match g !! n with Some _ => p | None => None end)
  else node_get_previous g m.
Proof.
  unfold node_get_previous. rewrite lookup_alter.
  case_decide; subst; [|done]. by destruct (g !! m).
Qed.

Lemma edges_alter_distance (g : Graph) v p n m :
  node_get_edges (alter (set_distance v p) n g) m = node_get_edges g m.
Proof.
  unfold node_get_edges. rewrite lookup_alter.
  case_decide; subst; [|done]. by destruct (g !! m).
Qed.

Lemma id_alter_distance (g : Graph) v p n m :
  node_get_id (alter (set_distance v p) n g) m = node_get_id g m.
Proof.
  unfold node_get_id. rewrite lookup_alter.
  case_decide; subst; [|done]. by destruct (g !! m).
Qed.

Lemma is_Some_alter (g : Graph) (f : Node → Node) n m :
  is_Some (alter f n g !! m) ↔ is_Some (g !! m).
Proof.
  rewrite lookup_alter. case_decide; subst; [|done]. apply fmap_is_Some.
Qed.

Lemma heap_index_is_Some (g : Graph) n i :
  node_get_heap_index g n = Some i → is_Some (g !! n).
Proof. unfold node_get_heap_index. destruct (g !! n); naive_solver. Qed.

(** ** The heap array *)

Lemma swap_arr_length h i j : length (swap_arr h i j) = length h.
Proof.
  unfold swap_arr. destruct (h !! i), (h !! j); by rewrite ?length_insert.
Qed.

Lemma swap_arr_perm h i j : swap_arr h i j ≡ₚ h.
Proof.
  unfold swap_arr. destruct (h !! i) eqn:Hi, (h !! j) eqn:Hj; try done.
  by apply Permutation_insert_swap.
Qed.

Lemma swap_arr_lookup h i j k :
  (i < length h)%nat → (j < length h)%nat →
  swap_arr h i j !! k =
    if decide (k = i) then h !! j else if decide (k = j) then h !! i else h !! k.
Proof.
  intros Hi Hj. unfold swap_arr.
  destruct (lookup_lt_is_Some_2 h i Hi) as [x Hx].
  destruct (lookup_lt_is_Some_2 h j Hj) as [y Hy].
  rewrite Hx, Hy. repeat case_decide; subst.
  - by rewrite list_lookup_insert_eq by (by rewrite length_insert).
  - rewrite list_lookup_insert_ne by done.
    by rewrite list_lookup_insert_eq.
  - by rewrite !list_lookup_insert_ne by done.
Qed.

Lemma heap_swap_fst h g i j : (heap_swap h g i j).1 = swap_arr h i j.
Proof. unfold heap_swap, swap_arr. by destruct (h !! i), (h !! j). Qed.

Lemma heap_swap_erase h g i j : erase (heap_swap h g i j).2 = erase g.
Proof.
  unfold heap_swap. destruct (h !! i), (h !! j); simpl; try done.
  by rewrite !erase_alter_index.
Qed.

Lemma indexed_inj h g i j x :
  indexed h g → h !! i = Some x → h !! j = Some x → i = j.
Proof. intros Hix Hi Hj. apply Hix in Hi, Hj. congruence. Qed.

Lemma indexed_NoDup h g : indexed h g → NoDup h.
Proof. intros Hix. apply NoDup_alt. intros i j x. by apply (indexed_inj h g). Qed.

Lemma indexed_slot h g n :
  indexed h g → n ∈ h → ∃ i, heap_slot h g n = Some i ∧ h !! i = Some n.
Proof.
  intros Hix [i Hi]%list_elem_of_lookup. exists i. split; [|done].
  unfold heap_slot. rewrite (Hix _ _ Hi). by rewrite decide_True.
Qed.

Lemma heap_slot_Some h g n i : heap_slot h g n = Some i → h !! i = Some n.
Proof.
  unfold heap_slot. destruct (node_get_heap_index g n); [|done].
  case_decide; naive_solver.
Qed.

Lemma heap_swap_indexed h g i j :
  indexed h g → indexed (heap_swap h g i j).1 (heap_swap h g i j).2.
Proof.
  intros Hix. unfold heap_swap.
  destruct (h !! i) as [x|] eqn:Hx; [|done].
  destruct (h !! j) as [y|] eqn:Hy; [|done]. simpl.
  pose proof (lookup_lt_Some _ _ _ Hx) as Hi.
  pose proof (lookup_lt_Some _ _ _ Hy) as Hj.
  pose proof (heap_index_is_Some _ _ _ (Hix _ _ Hx)) as [nx Hnx].
  pose proof (heap_index_is_Some _ _ _ (Hix _ _ Hy)) as [ny Hny].
  intros k z Hk.
  assert (Hk' : swap_arr h i j !! k = Some z).
  { unfold swap_arr. by rewrite Hx, Hy. }
  rewrite swap_arr_lookup in Hk' by done.
  destruct (decide (k = i)) as [->|Hki].
  - assert (z = y) as -> by congruence.
    rewrite heap_index_alter, decide_True by done.
    destruct (is_Some_alter g (set_heap_index (Some j)) x y) as [_ H].
    by destruct (H (mk_is_Some _ _ Hny)) as [? ->].
  - destruct (decide (k = j)) as [->|Hkj].
    + assert (z = x) as -> by congruence.
      assert (y ≠ x) by (intros ->; by apply Hki, (indexed_inj h g _ _ x)).
      rewrite heap_index_alter, decide_False by done.
      by rewrite heap_index_alter, decide_True, Hnx.
    + assert (y ≠ z) by (intros ->; by apply Hkj, (indexed_inj h g _ _ z)).
      assert (x ≠ z) by (intros ->; by apply Hki, (indexed_inj h g _ _ z)).
      rewrite !heap_index_alter, !decide_False by done. by apply Hix.
Qed.

Lemma parent_lt j : (0 < j)%nat → (parent j < j)%nat.
Proof. unfold parent. zlia. Qed.

Lemma parent_child c i :
  (0 < c)%nat → parent c = i ↔ c = left_child i ∨ c = right_child i.
Proof. unfold parent, left_child, right_child. zlia. Qed.

Section heap_order.

Context (k : Z → Z).

Lemma heap_ordered_root_min h m :
  heap_ordered k h → h !! 0%nat = Some m → ∀ j y, h !! j = Some y → k m ≤ k y.
Proof.
  intros Hord Hm j. induction (lt_wf j) as [j _ IH]. intros y Hy.
  destruct (decide (j = 0%nat)) as [->|Hj]; [by simplify_eq|].
  assert (parent j < j)%nat as Hlt by (apply parent_lt; lia).
  destruct (lookup_lt_is_Some_2 h (parent j)) as [x Hx].
  { apply lookup_lt_Some in Hy. lia. }
  etrans; [by apply (IH (parent j) Hlt x)|].
  apply (Hord j); [lia|done..].
Qed.

Lemma swap_up_ordered h i x p :
  (0 < i)%nat → h !! i = Some x → h !! parent i = Some p → k x < k p →
  ordered_but_child k h i → grandparent_le k h i →
  ordered_but_child k (swap_arr h i (parent i)) (parent i) ∧
  grandparent_le k (swap_arr h i (parent i)) (parent i).
Proof.
  intros Hi Hx Hp Hlt Hord Hgp.
  pose proof (parent_lt i Hi) as Hpi.
  pose proof (lookup_lt_Some _ _ _ Hx) as Hli.
  assert (parent i < length h)%nat as Hlp by lia.
  split.
  - intros j a b Hj Hne. rewrite !swap_arr_lookup by done.
    pose proof (parent_lt j Hj) as Hpj.
    repeat case_decide; subst; intros Ha Hb; simplify_eq; try lia.
    + apply (Hgp j); done.
    + assert (k p ≤ k b); [|lia]. apply (Hord j); [done|done|congruence|done].
    + by apply (Hord j).
  - intros c z y Hppos Hc Hpc. rewrite !swap_arr_lookup by done.
    pose proof (parent_lt _ Hppos) as Hpp.
    repeat case_decide; subst; intros Hz Hy; simplify_eq; try lia.
    + apply (Hord (parent i)); [done|lia|done..].
    + assert (k z ≤ k p) by (apply (Hord (parent i)); [done|lia|done..]).
      assert (k p ≤ k y); [|lia]. apply (Hord c); [done|done|congruence|done].
Qed.

Lemma swap_down_ordered h i s m :
  (i < length h)%nat → h !! s = Some m → parent s = i → (0 < s)%nat →
  (∀ c y, c = i ∨ parent c = i ∧ (0 < c)%nat → h !! c = Some y → k m ≤ k y) →
  ordered_but_parent k h i → grandparent_le k h i →
  ordered_but_parent k (swap_arr h i s) s ∧ grandparent_le k (swap_arr h i s) s.
Proof.
  intros Hli Hm Hps Hs Hmin Hord Hgp.
  pose proof (parent_lt s Hs) as Hsi.
  pose proof (lookup_lt_Some _ _ _ Hm) as Hls.
  split.
  - intros j a b Hj Hne. rewrite !swap_arr_lookup by done.
    pose proof (parent_lt j Hj) as Hpj.
    repeat case_decide; subst; intros Ha Hb; simplify_eq; try lia.
    + apply (Hmin (parent s)); [by left|done].
    + apply (Hmin j); [by right|done].
    + apply (Hgp s); [lia|done|done|done|done].
    + by apply (Hord j).
  - intros c z y _ Hc Hpc. rewrite !swap_arr_lookup by done.
    pose proof (parent_lt c Hc) as Hpc'.
    repeat case_decide; subst; intros Hz Hy; simplify_eq; try lia.
    apply (Hord c); [done|lia|done..].
Qed.

End heap_order.

Lemma heap_ordered_ext k k' h :
  (∀ n, k' n = k n) → heap_ordered k h → heap_ordered k' h.
Proof. intros Hk Hord j x y ???. rewrite !Hk. by apply (Hord j). Qed.

Lemma smallest_of_spec h g i x :
  h !! i = Some x →
  ∃ m, h !! smallest_of h g i = Some m ∧
    (smallest_of h g i = i ∨
     parent (smallest_of h g i) = i ∧ (0 < smallest_of h g i)%nat) ∧
    (∀ c y, c = i ∨ parent c = i ∧ (0 < c)%nat → h !! c = Some y →
       node_get_distance g m ≤ node_get_distance g y).
Proof.
  intros Hx. unfold smallest_of. rewrite Hx. simpl.
  assert (Hch : ∀ c, parent c = i ∧ (0 < c)%nat →
            c = left_child i ∨ c = right_child i).
  { intros c [? ?]. by apply parent_child. }
  assert (Hl : parent (left_child i) = i ∧ (0 < left_child i)%nat).
  { unfold parent, left_child. zlia. }
  assert (Hr : parent (right_child i) = i ∧ (0 < right_child i)%nat).
  { unfold parent, right_child. zlia. }
  assert (Hrl : ∀ r, h !! right_child i = Some r → is_Some (h !! left_child i)).
  { intros r Hr'%lookup_lt_Some. apply lookup_lt_is_Some_2.
    unfold left_child, right_child in *. lia. }
  destruct (h !! left_child i) as [l|] eqn:Hll; simpl.
  - destruct (decide (node_get_distance g l < node_get_distance g x)); simpl.
    + rewrite Hll. simpl. destruct (h !! right_child i) as [r|] eqn:Hrr; simpl.
      * case_decide.
        -- exists r. split; [done|]. split; [by right|].
           intros c y [->|[->| ->]%Hch] Hy; simplify_eq; lia.
        -- exists l. split; [done|]. split; [by right|].
           intros c y [->|[->| ->]%Hch] Hy; simplify_eq; lia.
      * exists l. split; [done|]. split; [by right|].
        intros c y [->|[->| ->]%Hch] Hy; simplify_eq; lia.
    + rewrite Hx. simpl. destruct (h !! right_child i) as [r|] eqn:Hrr; simpl.
      * case_decide.
        -- exists r. split; [done|]. split; [by right|].
           intros c y [->|[->| ->]%Hch] Hy; simplify_eq; lia.
        -- exists x. split; [done|]. split; [by left|].
           intros c y [->|[->| ->]%Hch] Hy; simplify_eq; lia.
      * exists x. split; [done|]. split; [by left|].
        intros c y [->|[->| ->]%Hch] Hy; simplify_eq; lia.
  - rewrite Hx. simpl. destruct (h !! right_child i) as [r|] eqn:Hrr; simpl.
    + by destruct (Hrl r).
    + exists x. split; [done|]. split; [by left|].
      intros c y [->|[->| ->]%Hch] Hy; simplify_eq; lia.
Qed.

Lemma sift_up_frame fuel h g i :
  (sift_up fuel h g i).1 ≡ₚ h ∧ erase (sift_up fuel h g i).2 = erase g ∧
  (indexed h g → indexed (sift_up fuel h g i).1 (sift_up fuel h g i).2).
Proof.
  revert h g i. induction fuel as [|fuel IH]; intros h g i; simpl; [done|].
  case_decide; [done|].
  destruct (h !! i) as [x|]; [|done]. destruct (h !! parent i) as [p|]; [|done].
  case_decide; [|done].
  pose proof (heap_swap_fst h g i (parent i)) as Hfst.
  pose proof (heap_swap_erase h g i (parent i)) as Her.
  pose proof (heap_swap_indexed h g i (parent i)) as Hix.
  destruct (heap_swap h g i (parent i)) as [h' g']. simpl in *.
  destruct (IH h' g' (parent i)) as (Hp & He & Hi). split_and!.
  - by rewrite Hp, Hfst, swap_arr_perm.
  - by rewrite He.
  - auto.
Qed.

Lemma sift_down_frame fuel h g i :
  (sift_down fuel h g i).1 ≡ₚ h ∧ erase (sift_down fuel h g i).2 = erase g ∧
  (indexed h g → indexed (sift_down fuel h g i).1 (sift_down fuel h g i).2).
Proof.
  revert h g i. induction fuel as [|fuel IH]; intros h g i; simpl; [done|].
  case_decide; [done|].
  pose proof (heap_swap_fst h g i (smallest_of h g i)) as Hfst.
  pose proof (heap_swap_erase h g i (smallest_of h g i)) as Her.
  pose proof (heap_swap_indexed h g i (smallest_of h g i)) as Hix.
  destruct (heap_swap h g i (smallest_of h g i)) as [h' g']. simpl in *.
  destruct (IH h' g' (smallest_of h g i)) as (Hp & He & Hi). split_and!.
  - by rewrite Hp, Hfst, swap_arr_perm.
  - by rewrite He.
  - auto.
Qed.

Lemma ordered_but_child_ext k k' h i :
  (∀ n, k' n = k n) → ordered_but_child k h i → ordered_but_child k' h i.
Proof. intros Hk Hord j x y ????. rewrite !Hk. by apply (Hord j). Qed.

Lemma ordered_but_parent_ext k k' h i :
  (∀ n, k' n = k n) → ordered_but_parent k h i → ordered_but_parent k' h i.
Proof. intros Hk Hord j x y ????. rewrite !Hk. by apply (Hord j). Qed.

Lemma grandparent_le_ext k k' h i :
  (∀ n, k' n = k n) → grandparent_le k h i → grandparent_le k' h i.
Proof. intros Hk Hord c z y ?????. rewrite !Hk. by apply (Hord c). Qed.

Lemma sift_up_ordered fuel h g i :
  (i < fuel)%nat → (i < length h)%nat →
  ordered_but_child (node_get_distance g) h i →
  grandparent_le (node_get_distance g) h i →
  heap_ordered (node_get_distance g) (sift_up fuel h g i).1.
Proof.
  revert h g i. induction fuel as [|fuel IH]; intros h g i Hf Hl Hord Hgp; [lia|].
  simpl. case_decide as Hi0.
  { subst. intros j x y Hj. apply (Hord j); [done|lia]. }
  destruct (lookup_lt_is_Some_2 h i Hl) as [x Hx].
  pose proof (parent_lt i ltac:(lia)) as Hpi.
  destruct (lookup_lt_is_Some_2 h (parent i) ltac:(lia)) as [p Hp].
  rewrite Hx, Hp. case_decide as Hlt.
  - pose proof (heap_swap_fst h g i (parent i)) as Hfst.
    pose proof (heap_swap_erase h g i (parent i)) as Her.
    destruct (heap_swap h g i (parent i)) as [h' g']. simpl in *. subst h'.
    destruct (swap_up_ordered (node_get_distance g) h i x p) as [Ho Hg];
      [lia|done..|].
    eapply heap_ordered_ext; [intros n; symmetry; apply (erase_eq_distance _ _ Her)|].
    apply IH; [lia|rewrite swap_arr_length; lia|..].
    + eapply ordered_but_child_ext; [apply (erase_eq_distance _ _ Her)|done].
    + eapply grandparent_le_ext; [apply (erase_eq_distance _ _ Her)|done].
  - simpl. intros j a b Hj Ha Hb. destruct (decide (j = i)) as [->|].
    + simplify_eq. lia.
    + by apply (Hord j).
Qed.

Lemma sift_down_ordered fuel h g i :
  (length h ≤ fuel + i)%nat → (i < length h)%nat →
  ordered_but_parent (node_get_distance g) h i →
  grandparent_le (node_get_distance g) h i →
  heap_ordered (node_get_distance g) (sift_down fuel h g i).1.
Proof.
  revert h g i. induction fuel as [|fuel IH]; intros h g i Hf Hl Hord Hgp; [lia|].
  simpl. destruct (lookup_lt_is_Some_2 h i Hl) as [x Hx].
  destruct (smallest_of_spec h g i x Hx) as (m & Hm & Hs & Hmin).
  case_decide as Hsi.
  - simpl. rewrite Hsi in Hm. simplify_eq.
    intros j a b Hj Ha Hb. destruct (decide (parent j = i)) as [Hp|].
    + rewrite Hp in Ha. simplify_eq. apply (Hmin j); [by right|done].
    + by apply (Hord j).
  - destruct Hs as [?|[Hps Hs]]; [done|].
    pose proof (heap_swap_fst h g i (smallest_of h g i)) as Hfst.
    pose proof (heap_swap_erase h g i (smallest_of h g i)) as Her.
    destruct (heap_swap h g i (smallest_of h g i)) as [h' g']. simpl in *. subst h'.
    destruct (swap_down_ordered (node_get_distance g) h i (smallest_of h g i) m)
      as [Ho Hg]; [done..|].
    pose proof (parent_lt _ Hs). pose proof (lookup_lt_Some _ _ _ Hm).
    eapply heap_ordered_ext; [intros n; symmetry; apply (erase_eq_distance _ _ Her)|].
    apply IH; [rewrite swap_arr_length; lia|rewrite swap_arr_length; lia|..].
    + eapply ordered_but_parent_ext; [apply (erase_eq_distance _ _ Her)|done].
    + eapply grandparent_le_ext; [apply (erase_eq_distance _ _ Her)|done].
Qed.

(** ** The heap invariant and the contracts of the heap operations *)

Arguments sift_up : simpl never.

Arguments sift_down : simpl never.

Lemma heap_extract_min_is_Some h g : h ≠ [] → is_Some (heap_extract_min h g).
Proof.
  intros Hne. unfold heap_extract_min. destruct h as [|m t]; [done|].
  destruct (last (m :: t)) as [l|] eqn:Hl.
  - destruct (take _ _); [done|]. by destruct (sift_down _ _ _ _).
  - by apply last_None in Hl.
Qed.

Lemma heap_extract_min_frame h g m h' g' :
  heap_extract_min h g = Some (m, h', g') →
  h ≡ₚ m :: h' ∧ erase g' = erase g ∧ h !! 0%nat = Some m.
Proof.
  unfold heap_extract_min. destruct h as [|m0 t]; [done|].
  destruct (last (m0 :: t)) as [l|] eqn:Hl; [|done].
  apply last_Some in Hl as [h1 Hh1].
  replace (take (length (m0 :: t) - 1) (m0 :: t)) with h1.
  2:{ rewrite Hh1, length_app. simpl.
      replace (length h1 + 1 - 1)%nat with (length h1) by lia.
      by rewrite take_app_length. }
  destruct h1 as [|m1 t1].
  - intros ?; simplify_eq/=. by rewrite erase_alter_index.
  - simpl in Hh1. injection Hh1 as -> ->. simpl.
    pose proof (sift_down_frame (S (length t1)) (l :: t1)
      (alter (set_heap_index (Some 0%nat)) l (alter (set_heap_index None) m1 g)) 0)
      as (Hp & He & _).
    destruct (sift_down _ _ _ _) as [h3 g3]. simpl in Hp, He.
    intros [= <- <- <-].
    split_and!; [|by rewrite He, !erase_alter_index|done].
    rewrite Hp. constructor. symmetry. apply Permutation_cons_append.
Qed.

Lemma heap_extract_min_ok h g m h' g' :
  heap_ok h g → heap_extract_min h g = Some (m, h', g') →
  heap_ok h' g' ∧ ∀ y, y ∈ h → node_get_distance g m ≤ node_get_distance g y.
Proof.
  intros [Hix Hord] Hex.
  pose proof (heap_extract_min_frame _ _ _ _ _ Hex) as (_ & Herase & Hm).
  split.
  2:{ intros y [j Hj]%list_elem_of_lookup.
      by apply (heap_ordered_root_min _ h m Hord Hm j). }
  revert Hex. unfold heap_extract_min. destruct h as [|m0 t]; [done|].
  destruct (last (m0 :: t)) as [l|] eqn:Hl; [|done].
  apply last_Some in Hl as [h1 Hh1].
  replace (take (length (m0 :: t) - 1) (m0 :: t)) with h1.
  2:{ rewrite Hh1, length_app. simpl.
      replace (length h1 + 1 - 1)%nat with (length h1) by lia.
      by rewrite take_app_length. }
  destruct h1 as [|m1 t1].
  { intros ?; simplify_eq/=. split; [by intros ??|by intros ????]. }
  simpl in Hh1. injection Hh1 as -> ->. simpl.
  set (g2 := alter (set_heap_index (Some 0%nat)) l (alter (set_heap_index None) m1 g)).
  assert (Hd2 : ∀ n, node_get_distance g2 n = node_get_distance g n).
  { apply erase_eq_distance. unfold g2. by rewrite !erase_alter_index. }
  assert (Hlast : (m1 :: t1 ++ [l]) !! S (length t1) = Some l).
  { simpl. by rewrite lookup_app_r, Nat.sub_diag. }
  assert (Hix2 : indexed (l :: t1) g2).
  { intros [|j] z Hz; simpl in Hz.
    - simplify_eq. unfold g2. rewrite heap_index_alter, decide_True by done.
      pose proof (heap_index_is_Some _ _ _ (Hix _ _ Hlast)) as Hs.
      apply (is_Some_alter g (set_heap_index None) m1) in Hs.
      by destruct Hs as [? ->].
    - pose proof (lookup_lt_Some _ _ _ Hz) as Hlt.
      assert (Hz' : (m1 :: t1 ++ [l]) !! S j = Some z).
      { simpl. by rewrite lookup_app_l. }
      unfold g2. rewrite !heap_index_alter, !decide_False; [by apply Hix|..].
      + intros ->. by pose proof (indexed_inj _ g (S j) 0%nat z Hix Hz' eq_refl).
      + intros ->. pose proof (indexed_inj _ _ _ _ _ Hix Hz' Hlast). lia. }
  pose proof (sift_down_frame (S (length t1)) (l :: t1) g2 0) as (_ & He & Hi).
  pose proof (sift_down_ordered (S (length t1)) (l :: t1) g2 0) as Ho.
  destruct (sift_down _ _ _ _) as [h3 g3]. intros ?; simplify_eq/=.
  split; [by apply Hi|].
  eapply heap_ordered_ext; [apply (erase_eq_distance _ _ He)|].
  apply Ho; [lia|lia|..].
  - intros j x y Hj Hp Hx Hy. rewrite !Hd2.
    pose proof (parent_lt j Hj).
    destruct j as [|j]; [lia|]. destruct (parent (S j)) as [|pj] eqn:Hpj; [done|].
    apply (Hord (S j)); [lia|..].
    + rewrite Hpj. simpl in *. apply lookup_lt_Some in Hx as Hlt.
      by rewrite lookup_app_l.
    + simpl in *. apply lookup_lt_Some in Hy as Hlt. by rewrite lookup_app_l.
  - intros c z y ?. lia.
Qed.

Lemma heap_decrease_distance_frame h g n v p h' g' :
  heap_decrease_distance h g n v p = Ret (h', g') →
  h' ≡ₚ h ∧ erase g' = alter (set_distance v p) n (erase g) ∧
  n ∈ h ∧ is_Some (g !! n) ∧ v ≤ node_get_distance g n.
Proof.
  unfold heap_decrease_distance.
  destruct (heap_slot h g n) as [i|] eqn:Hs; [|done].
  case_decide; [|done].
  pose proof (sift_up_frame (S i) h (alter (set_distance v p) n g) i)
    as (Hp & He & _).
  destruct (sift_up _ _ _ _) as [h1 g1]. simpl in Hp, He. intros [= <- <-].
  split_and!; [done|by rewrite He, erase_alter_distance| | |done].
  - apply heap_slot_Some in Hs. by eapply list_elem_of_lookup_2.
  - unfold heap_slot in Hs.
    destruct (node_get_heap_index g n) eqn:Hi; [|done].
    by eapply heap_index_is_Some.
Qed.

Lemma heap_decrease_distance_ok h g n v p :
  heap_ok h g → n ∈ h → v ≤ node_get_distance g n →
  ∃ h' g', heap_decrease_distance h g n v p = Ret (h', g') ∧ heap_ok h' g'.
Proof.
  intros [Hix Hord] Hn Hv. unfold heap_decrease_distance.
  destruct (indexed_slot h g n Hix Hn) as (i & -> & Hi).
  rewrite decide_True by done.
  set (g1 := alter (set_distance v p) n g).
  pose proof (heap_index_is_Some _ _ _ (Hix _ _ Hi)) as [nn Hnn].
  assert (Hd1 : ∀ m, node_get_distance g1 m =
            if decide (n = m) then v else node_get_distance g m).
  { intros m. unfold g1. rewrite distance_alter, Hnn. done. }
  assert (Hix1 : indexed h g1).
  { intros j x Hj. unfold g1. rewrite heap_index_alter_distance. by apply Hix. }
  pose proof (sift_up_frame (S i) h g1 i) as (_ & He & Hi1).
  pose proof (sift_up_ordered (S i) h g1 i) as Ho.
  destruct (sift_up _ _ _ _) as [h' g']. exists h', g'. split; [done|].
  simpl in *. split; [by apply Hi1|].
  eapply heap_ordered_ext; [apply (erase_eq_distance _ _ He)|].
  pose proof (lookup_lt_Some _ _ _ Hi).
  apply Ho; [lia|done|..].
  - intros j x y Hj Hne Hx Hy. rewrite !Hd1.
    assert (n ≠ y) by (intros ->; by apply Hne, (indexed_inj h g _ _ y)).
    rewrite (decide_False (P := n = y)) by done.
    pose proof (Hord j x y Hj Hx Hy). case_decide; subst; lia.
  - intros c z y Hi0 Hc Hpc Hz Hy. rewrite !Hd1.
    pose proof (parent_lt _ Hi0). pose proof (parent_lt _ Hc).
    assert (n ≠ y).
    { intros ->. pose proof (indexed_inj h g _ _ y Hix Hy Hi). lia. }
    assert (n ≠ z).
    { intros ->. pose proof (indexed_inj h g _ _ z Hix Hz Hi). lia. }
    rewrite !decide_False by done.
    pose proof (Hord i z n Hi0 Hz Hi).
    assert (node_get_distance g n ≤ node_get_distance g y); [|lia].
    apply (Hord c); [done|by rewrite Hpc|done].
Qed.

(** ** What the heap operations do to the graph *)

Lemma same_shape_refl g : same_shape g g.
Proof. done. Qed.

Lemma same_shape_sym g g' : same_shape g g' → same_shape g' g.
Proof. intros (He & Hi & Hs). split_and!; intros n; by rewrite ?He, ?Hi, ?Hs. Qed.

Lemma same_shape_trans g1 g2 g3 :
  same_shape g1 g2 → same_shape g2 g3 → same_shape g1 g3.
Proof.
  intros (He & Hi & Hs) (He' & Hi' & Hs'). split_and!; intros n.
  - by rewrite He', He.
  - by rewrite Hi', Hi.
  - by rewrite Hs', Hs.
Qed.

Lemma heap_extract_min_effect h g m h' g' :
  heap_extract_min h g = Some (m, h', g') →
  h ≡ₚ m :: h' ∧ length h = S (length h') ∧ same_shape g g' ∧
  (∀ n, node_get_distance g' n = node_get_distance g n) ∧
  (∀ n, node_get_previous g' n = node_get_previous g n).
Proof.
  intros (Hp & He & _)%heap_extract_min_frame. split_and!; [done|..].
  - by rewrite Hp.
  - split_and!; intros n;
      [by apply erase_eq_edges|by apply erase_eq_id|by apply erase_eq_is_Some].
  - by apply erase_eq_distance.
  - by apply erase_eq_previous.
Qed.

Lemma heap_decrease_distance_effect h g n v p h' g' :
  heap_decrease_distance h g n v p = Ret (h', g') →
  h' ≡ₚ h ∧ length h' = length h ∧ n ∈ h ∧ is_Some (g !! n) ∧
  v ≤ node_get_distance g n ∧ same_shape g g' ∧
  (∀ m, node_get_distance g' m =
          if decide (n = m) then v else node_get_distance g m) ∧
  (∀ m, node_get_previous g' m =
          if decide (n = m) then p else node_get_previous g m).
Proof.
  intros (Hp & He & Hn & [x Hx] & Hv)%heap_decrease_distance_frame.
  split_and!; [done|by rewrite Hp|done|done|done|..].
  - split_and!; intros m.
    + by rewrite <- (edges_erase g'), He, edges_alter_distance, edges_erase.
    + by rewrite <- (id_erase g'), He, id_alter_distance, id_erase.
    + by rewrite <- (is_Some_erase g'), He, is_Some_alter, is_Some_erase.
  - intros m. rewrite <- (distance_erase g'), He, distance_alter, distance_erase.
    by rewrite erase_lookup, Hx.
  - intros m. rewrite <- (previous_erase g'), He, previous_alter, previous_erase.
    by rewrite erase_lookup, Hx.
Qed.

(** ** Paths and weights *)

Lemma path_same_shape g g' s v w : same_shape g g' → path g s v w → path g' s v w.
Proof.
  intros (He & _). induction 1; econstructor; eauto. by rewrite He.
Qed.

Lemma sumZ_app l1 l2 : sumZ (l1 ++ l2) = sumZ l1 + sumZ l2.
Proof. induction l1; simpl; lia. Qed.

Global Instance sumZ_perm : Proper ((≡ₚ) ==> (=)) sumZ.
Proof. induction 1; simpl; lia. Qed.

Lemma sumZ_nonneg l : Forall (λ x, 0 ≤ x) l → 0 ≤ sumZ l.
Proof. induction 1; simpl; lia. Qed.

Lemma sumZ_elem_le l x : Forall (λ x, 0 ≤ x) l → x ∈ l → x ≤ sumZ l.
Proof.
  induction 1 as [|y l Hy Hl IH]; [by intros ?%elem_of_nil|].
  pose proof (sumZ_nonneg l Hl).
  intros [->|?]%elem_of_cons; simpl; [lia|]. specialize (IH ltac:(done)). lia.
Qed.

Global Instance heap_weight_perm g : Proper ((≡ₚ) ==> (=)) (heap_weight g).
Proof. intros l1 l2 Hl. unfold heap_weight. by rewrite Hl. Qed.

Lemma heap_weight_app g l1 l2 :
  heap_weight g (l1 ++ l2) = heap_weight g l1 + heap_weight g l2.
Proof. unfold heap_weight. by rewrite fmap_app, sumZ_app. Qed.

Lemma heap_weight_cons g x l :
  heap_weight g (x :: l) = node_weight g x + heap_weight g l.
Proof. done. Qed.

Lemma node_weight_same_shape g g' n :
  same_shape g g' → node_weight g' n = node_weight g n.
Proof. intros (He & _). unfold node_weight. by rewrite He. Qed.

Lemma heap_weight_same_shape g g' l :
  same_shape g g' → heap_weight g' l = heap_weight g l.
Proof.
  intros Hs. unfold heap_weight. f_equal. apply list_fmap_ext.
  intros ???. by apply node_weight_same_shape.
Qed.

Lemma edges_ok_same_shape g g' : same_shape g g' → edges_ok g → edges_ok g'.
Proof.
  intros (He & _ & Hs) Hok n e. rewrite He, Hs. apply Hok.
Qed.

Lemma edge_le_node_weight g n e :
  edges_ok g → e ∈ node_get_edges g n → mindelay e ≤ node_weight g n.
Proof.
  intros Hok He. unfold node_weight. apply sumZ_elem_le.
  - apply Forall_fmap, Forall_forall. intros e' He'. by apply (Hok n).
  - by apply list_elem_of_fmap_2.
Qed.

Lemma node_weight_nonneg g n : edges_ok g → 0 ≤ node_weight g n.
Proof.
  intros Hok. apply sumZ_nonneg, Forall_fmap, Forall_forall.
  intros e' He'. by apply (Hok n).
Qed.

Lemma heap_weight_nonneg g l : edges_ok g → 0 ≤ heap_weight g l.
Proof.
  intros Hok. apply sumZ_nonneg, Forall_fmap, Forall_forall.
  intros ??. by apply node_weight_nonneg.
Qed.

(** ** The invariant of the search loop *)

Lemma search_inv_weaken s R R' M done h g :
  (∀ u e, R' u e → R u e) → search_inv s R M done h g → search_inv s R' M done h g.
Proof. intros HR []. split; auto. Qed.

Lemma inv_done_weight s R M done h g :
  search_inv s R M done h g → heap_weight g done < UINT_MAX.
Proof.
  intros Hinv. pose proof (inv_total _ _ _ _ _ _ Hinv) as Ht.
  rewrite heap_weight_app in Ht.
  pose proof (heap_weight_nonneg g h (inv_edges _ _ _ _ _ _ Hinv)). lia.
Qed.

Lemma inv_done_finite s R M done h g n :
  search_inv s R M done h g → n ∈ done → node_get_distance g n < UINT_MAX.
Proof.
  intros Hinv Hn. pose proof (inv_done_weight _ _ _ _ _ _ Hinv).
  pose proof (inv_bound_done _ _ _ _ _ _ Hinv n Hn).
  pose proof (node_weight_nonneg g n (inv_edges _ _ _ _ _ _ Hinv)). lia.
Qed.

(** Every path from the source ends in an extracted node whose distance it
    does not beat, or passes a node of the heap that is already reached. *)
Lemma path_bound s M done h g v w :
  search_inv s (done_edges done g) M done h g → path g s v w →
  0 ≤ w ∧ (v ∈ done ∨ v ∈ h) ∧
  (v ∈ done → node_get_distance g v ≤ w) ∧
  (v ∉ done → ∃ y, y ∈ h ∧ node_get_distance g y ≤ w ∧
                   node_get_distance g y < UINT_MAX).
Proof.
  intros Hinv. induction 1 as [|v e w Hp (Hw & Hv & Hin & Hout) He].
  - assert (Hs : s ∈ done ∨ s ∈ h).
    { apply elem_of_app, (inv_dom _ _ _ _ _ _ Hinv).
      pose proof (inv_source _ _ _ _ _ _ Hinv) as H0.
      unfold node_get_distance in H0. destruct (g !! s); [done|].
      by compute in H0. }
    pose proof (inv_source _ _ _ _ _ _ Hinv) as H0.
    split_and!; [done|done|lia|]. intros Hn. exists s.
    destruct Hs; [done|]. split; [done|]. rewrite H0. by compute.
  - destruct (inv_edges _ _ _ _ _ _ Hinv v e He) as [Hd Hm].
    assert (Hdst : destination e ∈ done ∨ destination e ∈ h).
    { by apply elem_of_app, (inv_dom _ _ _ _ _ _ Hinv). }
    split_and!; [lia|done|..].
    + intros Hdone. destruct (decide (v ∈ done)) as [Hvd|Hvd].
      * pose proof (inv_relaxed _ _ _ _ _ _ Hinv v e (conj Hvd He)).
        specialize (Hin Hvd). lia.
      * destruct (Hout Hvd) as (y & Hy & Hyw & _).
        pose proof (inv_done_le _ _ _ _ _ _ Hinv _ Hdone).
        pose proof (inv_heap_ge _ _ _ _ _ _ Hinv _ Hy). lia.
    + intros Hnd. destruct Hdst as [?|Hdh]; [done|].
      destruct (decide (v ∈ done)) as [Hvd|Hvd].
      * exists (destination e). split; [done|].
        pose proof (inv_relaxed _ _ _ _ _ _ Hinv v e (conj Hvd He)).
        specialize (Hin Hvd).
        pose proof (inv_bound_done _ _ _ _ _ _ Hinv v Hvd).
        pose proof (edge_le_node_weight g v e (inv_edges _ _ _ _ _ _ Hinv) He).
        pose proof (inv_done_weight _ _ _ _ _ _ Hinv). lia.
      * destruct (Hout Hvd) as (y & Hy & Hyw & Hyf).
        exists y. split_and!; [done|lia|done].
Qed.

Lemma to_uint_small z : 0 ≤ z < 2 ^ 32 → to_uint z = z.
Proof. unfold to_uint. intros. zlia. Qed.

Lemma to_uint_range z : 0 ≤ to_uint z ≤ UINT_MAX.
Proof. unfold to_uint, UINT_MAX. zlia. Qed.

(** Extraction moves the minimum of the heap to the extracted nodes. *)
Lemma search_inv_extract s M done h g u h1 g1 :
  search_inv s (done_edges done g) M done h g →
  heap_extract_min h g = Some (u, h1, g1) →
  node_get_distance g1 u ≠ UINT_MAX →
  search_inv s (some_edges done g1 u []) (node_get_distance g1 u)
    (u :: done) h1 g1.
Proof.
  intros Hinv Hex Hfin.
  destruct (heap_extract_min_effect _ _ _ _ _ Hex) as (Hp & _ & Hsh & Hd & _).
  destruct (heap_extract_min_ok _ _ _ _ _ (inv_heap _ _ _ _ _ _ Hinv) Hex)
    as [Hok Hmin].
  assert (Hperm : (u :: done) ++ h1 ≡ₚ done ++ h).
  { rewrite Hp. simpl. by rewrite Permutation_middle. }
  assert (Huh : u ∈ h) by (rewrite Hp; by left).
  assert (Hsub : ∀ n, n ∈ h1 → n ∈ h) by (intros n ?; rewrite Hp; by right).
  pose proof (inv_edges _ _ _ _ _ _ Hinv) as Hedges.
  pose proof (node_weight_nonneg g u Hedges) as Hnw.
  rewrite Hd in Hfin.
  split.
  - done.
  - rewrite Hperm. apply Hinv.
  - intros n. rewrite Hperm. destruct Hsh as (_ & _ & ->). apply Hinv.
  - by eapply edges_ok_same_shape.
  - rewrite Hperm, (heap_weight_same_shape g) by done. apply Hinv.
  - rewrite Hd. apply Hinv.
  - intros n. rewrite Hd. apply Hinv.
  - intros n. rewrite Hd. intros Hn. eapply path_same_shape; [done|].
    by apply Hinv.
  - intros n Hn. rewrite Hd, (heap_weight_same_shape g), heap_weight_cons by done.
    intros Hf. pose proof (inv_bound_heap _ _ _ _ _ _ Hinv n (Hsub n Hn) Hf). lia.
  - intros n Hn. rewrite Hd, (heap_weight_same_shape g),
      (node_weight_same_shape g), heap_weight_cons by done.
    apply elem_of_cons in Hn as [->|Hn].
    + pose proof (inv_bound_heap _ _ _ _ _ _ Hinv u Huh Hfin). lia.
    + pose proof (inv_bound_done _ _ _ _ _ _ Hinv n Hn). lia.
  - intros n Hn. rewrite !Hd. apply elem_of_cons in Hn as [->|Hn]; [lia|].
    pose proof (inv_done_le _ _ _ _ _ _ Hinv n Hn).
    pose proof (inv_heap_ge _ _ _ _ _ _ Hinv u Huh). lia.
  - intros n Hn. rewrite !Hd. apply Hmin. by apply Hsub.
  - intros x e [[Hx He]|[_ []%elem_of_nil]]. rewrite !Hd.
    apply (inv_relaxed _ _ _ _ _ _ Hinv). split; [done|].
    destruct Hsh as (<- & _). done.
Qed.

(** Relaxing the next edge of the node extracted last. *)
Lemma search_inv_relax s done h g u pre e post :
  search_inv s (some_edges done g u pre) (node_get_distance g u) (u :: done) h g →
  node_get_edges g u = pre ++ e :: post →
  ∃ h' g', relax h g u (node_get_distance g u) e = Ret (h', g') ∧
    same_shape g g' ∧ node_get_distance g' u = node_get_distance g u ∧
    search_inv s (some_edges done g' u (pre ++ [e])) (node_get_distance g' u)
      (u :: done) h' g'.
Proof.
  intros Hinv Hes. set (d := node_get_distance g u) in *.
  pose proof (inv_edges _ _ _ _ _ _ Hinv) as Hedges.
  assert (He : e ∈ node_get_edges g u).
  { rewrite Hes. apply elem_of_app. right. by left. }
  destruct (Hedges u e He) as [Hdst Hw].
  pose proof (edge_le_node_weight g u e Hedges He) as Hle.
  pose proof (inv_bound_done _ _ _ _ _ _ Hinv u ltac:(by left)) as Hbd.
  pose proof (inv_done_weight _ _ _ _ _ _ Hinv) as Hdw.
  pose proof (inv_range _ _ _ _ _ _ Hinv u) as Hru. fold d in Hbd, Hru.
  assert (Halt : to_uint (d + mindelay e) = d + mindelay e).
  { apply to_uint_small. unfold UINT_MAX in *. lia. }
  unfold relax. rewrite Halt. case_decide as Hlt.
  - (* the edge improves its destination *)
    assert (Hin : destination e ∈ h).
    { apply (inv_dom _ _ _ _ _ _ Hinv), elem_of_app in Hdst as [Hd|]; [|done].
      pose proof (inv_done_le _ _ _ _ _ _ Hinv _ Hd). lia. }
    assert (Hnd : ∀ n, n ∈ u :: done → destination e ≠ n).
    { intros n Hn <-. pose proof (inv_nodup _ _ _ _ _ _ Hinv) as Hnd.
      apply NoDup_app in Hnd as (_ & Hnd & _). by apply (Hnd (destination e)). }
    destruct (heap_decrease_distance_ok h g (destination e) (d + mindelay e)
      (Some u) (inv_heap _ _ _ _ _ _ Hinv) Hin ltac:(lia)) as (h' & g' & Hdec & Hok).
    exists h', g'. split; [done|].
    destruct (heap_decrease_distance_effect _ _ _ _ _ _ _ Hdec)
      as (Hp & _ & _ & _ & _ & Hsh & Hd & _).
    assert (Hdu : node_get_distance g' u = d).
    { rewrite Hd, decide_False; [done|]. apply Hnd. by left. }
    split; [done|]. split; [done|]. rewrite Hdu.
    assert (Hdle : ∀ n, node_get_distance g' n ≤ node_get_distance g n).
    { intros n. rewrite Hd. case_decide; subst; lia. }
    split.
    + done.
    + rewrite Hp. apply Hinv.
    + intros n. rewrite Hp. destruct Hsh as (_ & _ & ->). apply Hinv.
    + by eapply edges_ok_same_shape.
    + rewrite Hp, (heap_weight_same_shape g) by done. apply Hinv.
    + rewrite Hd. case_decide as Hs; [|apply Hinv].
      pose proof (inv_source _ _ _ _ _ _ Hinv). rewrite Hs in Hlt. lia.
    + intros n. rewrite Hd. case_decide; [|apply Hinv]. unfold UINT_MAX in *. lia.
    + intros n. rewrite Hd. intros Hn. eapply path_same_shape; [done|].
      case_decide as Hdn; [|by apply Hinv]. subst n.
      apply (path_step g s u e d); [|done]. apply Hinv. fold d. unfold UINT_MAX in *. lia.
    + intros n Hn. rewrite Hd, (heap_weight_same_shape g) by done.
      rewrite Hp in Hn. case_decide; [lia|]. by apply Hinv.
    + intros n Hn. rewrite Hd, (heap_weight_same_shape g),
        (node_weight_same_shape g), decide_False by auto. by apply Hinv.
    + intros n Hn. rewrite Hd, decide_False by auto. by apply Hinv.
    + intros n Hn. rewrite Hd. rewrite Hp in Hn. case_decide; [lia|].
      by apply Hinv.
    + intros x e' HR.
      assert (Hx : x ∈ u :: done).
      { destruct HR as [[? _]|[-> _]]; [by right|by left]. }
      rewrite (Hd x), decide_False by auto.
      destruct HR as [[Hxd He']|[-> [He'| ->%list_elem_of_singleton]%elem_of_app]].
      * etrans; [apply Hdle|]. apply (inv_relaxed _ _ _ _ _ _ Hinv).
        left. split; [done|]. destruct Hsh as (<- & _). done.
      * etrans; [apply Hdle|]. apply (inv_relaxed _ _ _ _ _ _ Hinv).
        by right.
      * rewrite Hd, decide_True by done. fold d. lia.
  - (* the edge does not improve its destination *)
    exists h, g. split_and!; [done..|].
    split; try apply Hinv.
    intros x e' [HR|[-> [He'| ->%list_elem_of_singleton]%elem_of_app]].
    + apply (inv_relaxed _ _ _ _ _ _ Hinv). by left.
    + apply (inv_relaxed _ _ _ _ _ _ Hinv). by right.
    + fold d. lia.
Qed.

(** The [for] loop relaxes the remaining edges [post] of the extracted node. *)
Lemma search_inv_relax_from s done u post : ∀ pre h g,
  search_inv s (some_edges done g u pre) (node_get_distance g u) (u :: done) h g →
  node_get_edges g u = pre ++ post →
  ∃ h' g',
    relax_from (length post) h g u (node_get_distance g u) (pre ++ post)
      (length pre) = Ret (h', g') ∧
    h' ≡ₚ h ∧ same_shape g g' ∧
    (∀ n, n ∈ u :: done → node_get_distance g' n = node_get_distance g n) ∧
    search_inv s (done_edges (u :: done) g') (node_get_distance g' u)
      (u :: done) h' g'.
Proof.
  induction post as [|e post IH]; intros pre h g Hinv Hes.
  - exists h, g. simpl.
    rewrite decide_False
      by (unfold node_get_n_outgoing; rewrite Hes, app_nil_r; lia).
    split_and!; [done..|]. eapply search_inv_weaken; [|done].
    intros x e' [Hx He']. apply elem_of_cons in Hx as [->|Hx].
    + right. split; [done|]. by rewrite Hes, app_nil_r in He'.
    + left. done.
  - destruct (search_inv_relax _ _ _ _ _ _ _ _ Hinv Hes)
      as (h1 & g1 & Hrel & Hsh & Hdu & Hinv1).
    assert (Hes1 : node_get_edges g1 u = (pre ++ [e]) ++ post).
    { destruct Hsh as (-> & _). by rewrite <- app_assoc. }
    destruct (IH _ _ _ Hinv1 Hes1) as (h2 & g2 & Hloop & Hp2 & Hsh2 & Hd2 & Hinv2).
    exists h2, g2. simpl.
    rewrite decide_True
      by (unfold node_get_n_outgoing; rewrite Hes, length_app; simpl; lia).
    rewrite list_lookup_middle by done. rewrite Hrel. simpl.
    rewrite <- app_assoc, length_app, Nat.add_1_r, Hdu in Hloop. simpl in Hloop.
    split; [done|]. split_and!; [|by eapply same_shape_trans| |done].
    + rewrite Hp2. unfold relax in Hrel. case_decide; [|by simplify_eq].
      by destruct (heap_decrease_distance_effect _ _ _ _ _ _ _ Hrel) as (-> & _).
    + intros n Hn. rewrite Hd2 by done.
      unfold relax in Hrel. case_decide as Hlt; [|by simplify_eq].
      destruct (heap_decrease_distance_effect _ _ _ _ _ _ _ Hrel)
        as (_ & _ & Hin & _ & _ & _ & Hd & _).
      rewrite Hd, decide_False; [done|]. intros <-.
      pose proof (inv_nodup _ _ _ _ _ _ Hinv) as Hnd.
      apply NoDup_app in Hnd as (_ & Hnd & _). by apply (Hnd (destination e)).
Qed.

Lemma result_ok_same_shape s dest g g' :
  same_shape g g' → (∀ n, node_get_distance g' n = node_get_distance g n) →
  result_ok s dest g → result_ok s dest g'.
Proof.
  intros Hsh Hd [H1 H2]. unfold result_ok. rewrite !Hd.
  pose proof (same_shape_sym _ _ Hsh) as Hsh'. split.
  - intros Hf. destruct (H1 Hf) as [Hp Hmin]. split.
    + by eapply path_same_shape.
    + intros w Hw. apply Hmin. by eapply path_same_shape.
  - intros Hf w Hw. apply (H2 Hf w). by eapply path_same_shape.
Qed.

(** One iteration that extracts a reached node. *)
Lemma search_iteration s M done h g u h1 g1 :
  search_inv s (done_edges done g) M done h g →
  heap_extract_min h g = Some (u, h1, g1) →
  node_get_distance g1 u ≠ UINT_MAX →
  ∃ h2 g2,
    relax_from (length (node_get_edges g1 u)) h1 g1 u (node_get_distance g1 u)
      (node_get_edges g1 u) 0 = Ret (h2, g2) ∧
    h2 ≡ₚ h1 ∧ same_shape g g2 ∧
    node_get_distance g2 u = node_get_distance g u ∧
    search_inv s (done_edges (u :: done) g2) (node_get_distance g2 u)
      (u :: done) h2 g2.
Proof.
  intros Hinv Hex Hfin.
  pose proof (search_inv_extract _ _ _ _ _ _ _ _ Hinv Hex Hfin) as Hinv1.
  destruct (heap_extract_min_effect _ _ _ _ _ Hex) as (_ & _ & Hsh & Hd & _).
  destruct (search_inv_relax_from s done u (node_get_edges g1 u) [] h1 g1 Hinv1
    eq_refl) as (h2 & g2 & Hloop & Hp & Hsh2 & Hd2 & Hinv2).
  exists h2, g2. split_and!; [done|done|by eapply same_shape_trans| |done].
  rewrite Hd2 by (by left). apply Hd.
Qed.

(** The target is settled once it is extracted. *)
Lemma search_inv_result s M done h g dest :
  search_inv s (done_edges done g) M done h g → dest ∈ done →
  result_ok s dest g.
Proof.
  intros Hinv Hd. pose proof (inv_done_finite _ _ _ _ _ _ _ Hinv Hd) as Hf.
  split; [|lia]. intros _. split; [apply Hinv; lia|].
  intros w Hw. by apply (path_bound _ _ _ _ _ _ _ Hinv Hw).
Qed.

(** The target is out of reach when all that is left in the heap is. *)
Lemma search_inv_unreached s M done h g dest :
  search_inv s (done_edges done g) M done h g → dest ∈ h →
  (∀ y, y ∈ h → node_get_distance g y = UINT_MAX) →
  result_ok s dest g.
Proof.
  intros Hinv Hd Hall. split; [by rewrite Hall|]. intros _ w Hw.
  assert (dest ∉ done) as Hnd.
  { intros ?. pose proof (inv_nodup _ _ _ _ _ _ Hinv) as Hn.
    apply NoDup_app in Hn as (_ & Hn & _). by apply (Hn dest). }
  destruct (path_bound _ _ _ _ _ _ _ Hinv Hw) as (_ & _ & _ & Hout).
  destruct (Hout Hnd) as (y & Hy & _ & Hlt). rewrite Hall in Hlt by done. lia.
Qed.

Theorem dijkstra_loop_correct s dest fuel : ∀ h g,
  loop_state_ok s dest h g → (length h ≤ fuel)%nat →
  ∃ h' g', dijkstra_loop fuel h g dest = Ret (h', g') ∧
    same_shape g g' ∧ result_ok s dest g'.
Proof.
  induction fuel as [|fuel IH]; intros h g (M & done & Hinv & Hdest) Hfuel.
  { destruct h; [by apply elem_of_nil in Hdest|simpl in Hfuel; lia]. }
  simpl. destruct h as [|x t] eqn:Hh; [by apply elem_of_nil in Hdest|].
  rewrite <- Hh in *. assert (h ≠ []) as Hne by (by subst).
  replace (heap_is_empty h) with false by (by subst).
  destruct (heap_extract_min_is_Some h g Hne) as [[[u h1] g1] Hex].
  rewrite Hex.
  destruct (heap_extract_min_effect _ _ _ _ _ Hex) as (Hp & Hlen & Hsh & Hd & _).
  destruct (heap_extract_min_ok _ _ _ _ _ (inv_heap _ _ _ _ _ _ Hinv) Hex)
    as [_ Hmin].
  case_decide as Hinf.
  - (* nothing reachable is left *)
    exists h1, g1. split_and!; [done..|].
    eapply result_ok_same_shape; [| |eapply search_inv_unreached]; try done.
    intros y Hy. pose proof (Hmin y Hy). rewrite Hd in Hinf.
      pose proof (inv_range _ _ _ _ _ _ Hinv y). lia.
  - destruct (search_iteration _ _ _ _ _ _ _ _ Hinv Hex Hinf)
      as (h2 & g2 & Hloop & Hp2 & Hsh2 & Hdu & Hinv2).
    rewrite Hloop. simpl. case_decide as Hud.
    + exists h2, g2. split_and!; [done..|]. subst u.
      eapply search_inv_result; [done|by left].
    + destruct (IH h2 g2) as (h' & g' & Hrec & Hsh' & Hres).
      * exists (node_get_distance g2 u), (u :: done). split; [done|].
        rewrite Hp2. rewrite Hp in Hdest.
        by apply elem_of_cons in Hdest as [?|?].
      * rewrite Hp2. lia.
      * exists h', g'. split_and!; [done|by eapply same_shape_trans|done].
Qed.

(** ** Graphs as the loaders leave them *)

Lemma graph_wf_distance g n : graph_wf g → node_get_distance g n = UINT_MAX.
Proof.
  intros Hwf. unfold node_get_distance. destruct (g !! n) as [x|] eqn:Hx; [|done].
  by destruct (Hwf n x Hx) as (_ & ? & _).
Qed.

Lemma graph_wf_previous g n : graph_wf g → node_get_previous g n = None.
Proof.
  intros Hwf. unfold node_get_previous. destruct (g !! n) as [x|] eqn:Hx; [|done].
  by destruct (Hwf n x Hx) as (_ & _ & ? & _).
Qed.

Lemma graph_wf_id g n : graph_wf g → node_get_id g n = n.
Proof.
  intros Hwf. unfold node_get_id. destruct (g !! n) as [x|] eqn:Hx; [|done].
  by destruct (Hwf n x Hx) as (? & _).
Qed.

Lemma graph_wf_closed g n e :
  graph_wf g → e ∈ node_get_edges g n → is_Some (g !! destination e).
Proof.
  intros Hwf. unfold node_get_edges. destruct (g !! n) as [x|] eqn:Hx.
  - destruct (Hwf n x Hx) as (_ & _ & _ & Hall).
    rewrite Forall_forall in Hall. apply Hall.
  - by intros ?%elem_of_nil.
Qed.

Lemma graph_wf_edges_ok g : graph_wf g → nonneg_weights g → edges_ok g.
Proof.
  intros Hwf Hnn n e He. split; [by eapply graph_wf_closed|].
  unfold node_get_edges in He. destruct (g !! n) as [x|] eqn:Hx.
  - specialize (Hnn n x Hx). simpl in Hnn. rewrite Forall_forall in Hnn. auto.
  - by apply elem_of_nil in He.
Qed.

(** ** Building the heap *)

Lemma record_indices_erase order : ∀ i g, erase (record_indices order i g) = erase g.
Proof.
  induction order as [|x order IH]; intros i g; simpl; [done|].
  by rewrite IH, erase_alter_index.
Qed.

Lemma record_indices_other order : ∀ i g n,
  n ∉ order →
  node_get_heap_index (record_indices order i g) n = node_get_heap_index g n.
Proof.
  induction order as [|x order IH]; intros i g n Hn; simpl; [done|].
  apply not_elem_of_cons in Hn as [Hne Hn].
  rewrite IH, heap_index_alter, decide_False by done. done.
Qed.

Lemma record_indices_indexed order : ∀ i g,
  NoDup order → (∀ x, x ∈ order → is_Some (g !! x)) →
  ∀ j x, order !! j = Some x →
    node_get_heap_index (record_indices order i g) x = Some (i + j)%nat.
Proof.
  induction order as [|y order IH]; intros i g Hnd Hdom j x Hj; [done|].
  apply NoDup_cons in Hnd as [Hy Hnd]. simpl. destruct j as [|j]; simpl in Hj.
  - simplify_eq. rewrite record_indices_other, heap_index_alter, decide_True by done.
    destruct (Hdom x ltac:(by left)) as [? ->]. f_equal. lia.
  - rewrite (IH (S i) _ Hnd) with (j := j); [f_equal; lia| |done].
    intros z Hz. apply is_Some_alter, Hdom. by right.
Qed.

Lemma heap_build_ok order g :
  NoDup order → (∀ x, x ∈ order → is_Some (g !! x)) →
  (∀ n, node_get_distance g n = UINT_MAX) →
  heap_ok (heap_build order g).1 (heap_build order g).2 ∧
  erase (heap_build order g).2 = erase g.
Proof.
  intros Hnd Hdom Hd. unfold heap_build. simpl.
  pose proof (record_indices_erase order 0 g) as He. split; [|done]. split.
  - intros j x Hj. by rewrite (record_indices_indexed order 0 g Hnd Hdom j x).
  - intros j x y _ _ _. rewrite !(erase_eq_distance _ _ He), !Hd. done.
Qed.

Lemma map_keys_NoDup (g : Graph) : NoDup (map_to_list g).*1.
Proof. apply NoDup_fst_map_to_list. Qed.

Lemma map_keys_elem (g : Graph) n : n ∈ (map_to_list g).*1 ↔ is_Some (g !! n).
Proof.
  rewrite list_elem_of_fmap. split.
  - intros ([k x] & -> & Hx%elem_of_map_to_list). by exists x.
  - intros [x Hx]. exists (n, x). split; [done|]. by apply elem_of_map_to_list.
Qed.

(** The state in which the loop starts. *)
Lemma search_inv_init g s :
  graph_wf g → nonneg_weights g → total_weight g < UINT_MAX →
  is_Some (g !! s) →
  ∃ h0 g0 h1 g1,
    heap_new_from_graph g = Some (h0, g0) ∧
    graph_get_node g0 s = Some s ∧
    heap_decrease_distance h0 g0 s 0 None = Ret (h1, g1) ∧
    same_shape g g1 ∧ h1 ≡ₚ (map_to_list g).*1 ∧
    search_inv s (done_edges [] g1) 0 [] h1 g1.
Proof.
  intros Hwf Hnn Htot Hs. unfold heap_new_from_graph.
  destruct (heap_build_ok (map_to_list g).*1 g (map_keys_NoDup g)) as [Hok He].
  { intros x. apply map_keys_elem. }
  { intros n. by apply graph_wf_distance. }
  destruct (heap_build _ g) as [h0 g0] eqn:Hb. simpl in Hok, He.
  assert (h0 = (map_to_list g).*1) as Hh0 by (by injection Hb).
  assert (Hsh0 : same_shape g g0).
  { split_and!; intros n;
      [by apply erase_eq_edges|by apply erase_eq_id|by apply erase_eq_is_Some]. }
  assert (Hd0 : ∀ n, node_get_distance g0 n = UINT_MAX).
  { intros n. rewrite (erase_eq_distance _ _ He). by apply graph_wf_distance. }
  assert (Hs0 : s ∈ h0) by (rewrite Hh0; by apply map_keys_elem).
  destruct (heap_decrease_distance_ok h0 g0 s 0 None Hok Hs0) as (h1 & g1 & Hdec & Hok1).
  { rewrite Hd0. by compute. }
  exists h0, g0, h1, g1. split; [done|].
  destruct (heap_decrease_distance_effect _ _ _ _ _ _ _ Hdec)
    as (Hp & _ & _ & Hsome & _ & Hsh & Hd & _).
  assert (Hsh1 : same_shape g g1) by (by eapply same_shape_trans).
  split_and!; [|done|done|by rewrite Hp, Hh0|].
  { unfold graph_get_node. by destruct Hsome as [? ->]. }
  assert (Hedges : edges_ok g1).
  { eapply edges_ok_same_shape; [done|]. by apply graph_wf_edges_ok. }
  split; simpl.
  - done.
  - rewrite Hp, Hh0. apply map_keys_NoDup.
  - intros n. rewrite Hp, Hh0, map_keys_elem. by destruct Hsh1 as (_ & _ & ->).
  - done.
  - by rewrite Hp, Hh0, (heap_weight_same_shape g).
  - by rewrite Hd, decide_True.
  - intros n. rewrite Hd, Hd0. case_decide; by compute.
  - intros n. rewrite Hd, Hd0. case_decide; [|done]. subst. intros _. constructor.
  - intros n _. rewrite Hd, Hd0. case_decide; [|done]. intros _. by compute.
  - by intros n ?%elem_of_nil.
  - by intros n ?%elem_of_nil.
  - intros n _. rewrite Hd, Hd0. case_decide; by compute.
  - by intros u e [?%elem_of_nil _].
Qed.

(** ** Correctness of the search *)

Theorem dijkstra_correct g s dest fuel :
  graph_wf g → nonneg_weights g → total_weight g < UINT_MAX →
  is_Some (g !! s) → is_Some (g !! dest) → (size g ≤ fuel)%nat →
  ∃ h' g', dijkstra fuel g s dest =
             Ret {| dr_heap := Some h'; dr_graph := g'; dr_stderr := [] |} ∧
    same_shape g g' ∧ result_ok s dest g'.
Proof.
  intros Hwf Hnn Htot Hs Hdest Hfuel.
  destruct (search_inv_init g s Hwf Hnn Htot Hs)
    as (h0 & g0 & h1 & g1 & Hnew & Hget & Hdec & Hsh & Hp & Hinv).
  destruct (dijkstra_loop_correct s dest fuel h1 g1) as (h' & g' & Hloop & Hsh' & Hres).
  - exists 0, []. split; [done|]. rewrite Hp. by apply map_keys_elem.
  - rewrite Hp, length_fmap, length_map_to_list. done.
  - exists h', g'. unfold dijkstra. rewrite Hnew, Hget, Hdec. simpl.
    rewrite Hloop. simpl. split_and!; [done|by eapply same_shape_trans|done].
Qed.

(** ** What holds of the search whatever the weights are *)

Lemma relax_effect h g u d e h' g' :
  relax h g u d e = Ret (h', g') →
  h' ≡ₚ h ∧ same_shape g g' ∧
  let alt := to_uint (d + mindelay e) in
  (alt < node_get_distance g (destination e) →
     destination e ∈ h ∧
     (∀ m, node_get_distance g' m =
             if decide (destination e = m) then alt else node_get_distance g m) ∧
     (∀ m, node_get_previous g' m =
             if decide (destination e = m) then Some u
             else node_get_previous g m)) ∧
  (¬ alt < node_get_distance g (destination e) → h' = h ∧ g' = g).
Proof.
  unfold relax. case_decide as Hlt.
  - intros (Hp & _ & Hin & _ & _ & Hsh & Hd & Hpr)%heap_decrease_distance_effect.
    split_and!; [done..| |done]. intros _. done.
  - intros [= <- <-]. split_and!; [done|apply same_shape_refl| |done]. done.
Qed.

Lemma relax_not_timeout h g u d e : relax h g u d e ≠ Timeout.
Proof.
  unfold relax, heap_decrease_distance. case_decide; [|done].
  destruct (heap_slot _ _ _); [|done]. case_decide; [|done].
  by destruct (sift_up _ _ _ _).
Qed.

Lemma relax_from_relax_all u d post : ∀ pre h g,
  node_get_edges g u = pre ++ post →
  relax_from (length post) h g u d (pre ++ post) (length pre) =
  relax_all h g u d post.
Proof.
  induction post as [|e post IH]; intros pre h g Hes; simpl.
  - rewrite decide_False; [done|].
    unfold node_get_n_outgoing. rewrite Hes, app_nil_r. lia.
  - rewrite decide_True
      by (unfold node_get_n_outgoing; rewrite Hes, length_app; simpl; lia).
    rewrite list_lookup_middle by done.
    destruct (relax h g u d e) as [[h' g']| |] eqn:Hrel; simpl; [|done..].
    destruct (relax_effect _ _ _ _ _ _ _ Hrel) as (_ & (He & _) & _).
    specialize (IH (pre ++ [e]) h' g').
    rewrite <- app_assoc, length_app, Nat.add_1_r in IH. simpl in IH.
    apply IH. by rewrite He.
Qed.

Lemma relax_all_effect u d es : ∀ h g h' g',
  relax_all h g u d es = Ret (h', g') → h' ≡ₚ h ∧ same_shape g g'.
Proof.
  induction es as [|e es IH]; intros h g h' g'; simpl.
  - intros [= <- <-]. split; [done|apply same_shape_refl].
  - destruct (relax h g u d e) as [[h1 g1]| |] eqn:Hrel; simpl; [|done..].
    destruct (relax_effect _ _ _ _ _ _ _ Hrel) as (Hp & Hsh & _).
    intros [Hp' Hsh']%IH. split; [by rewrite Hp', Hp|by eapply same_shape_trans].
Qed.

Lemma relax_all_not_timeout u d es : ∀ h g, relax_all h g u d es ≠ Timeout.
Proof.
  induction es as [|e es IH]; intros h g; simpl; [done|].
  pose proof (relax_not_timeout h g u d e).
  destruct (relax h g u d e) as [[h1 g1]| |]; simpl; [apply IH|done..].
Qed.

(** The loop guard of [dijkstra] as a step of the search. *)
Lemma dijkstra_loop_unfold fuel h g dest u h1 g1 :
  heap_extract_min h g = Some (u, h1, g1) →
  dijkstra_loop (S fuel) h g dest =
    if decide (node_get_distance g1 u = UINT_MAX) then Ret (h1, g1)
    else
      '(h2, g2) ←← relax_all h1 g1 u (node_get_distance g1 u) (node_get_edges g1 u);
      if decide (u = dest) then Ret (h2, g2) else dijkstra_loop fuel h2 g2 dest.
Proof.
  intros Hex. destruct h as [|x t]; [done|].
  cbn [dijkstra_loop heap_is_empty]. rewrite Hex. cbn [obind].
  case_decide; [done|].
  by rewrite (relax_from_relax_all u _ (node_get_edges g1 u) [] h1 g1 eq_refl).
Qed.

Lemma dijkstra_loop_not_timeout dest fuel : ∀ h g,
  (length h ≤ fuel)%nat → dijkstra_loop fuel h g dest ≠ Timeout.
Proof.
  induction fuel as [|fuel IH]; intros h g Hfuel.
  { destruct h; [done|simpl in Hfuel; lia]. }
  destruct (decide (h = [])) as [->|Hne]; [done|].
  destruct (heap_extract_min_is_Some h g Hne) as [[[u h1] g1] Hex].
  rewrite (dijkstra_loop_unfold _ _ _ _ _ _ _ Hex).
  destruct (heap_extract_min_effect _ _ _ _ _ Hex) as (_ & Hlen & _).
  case_decide; [done|].
  pose proof (relax_all_not_timeout u (node_get_distance g1 u)
    (node_get_edges g1 u) h1 g1) as Hnt.
  destruct (relax_all _ _ _ _ _) as [[h2 g2]| |] eqn:Hrel; simpl; [|done..].
  apply relax_all_effect in Hrel as [Hp _].
  case_decide; [done|]. apply IH. rewrite Hp. lia.
Qed.

Lemma reached_inv_relax s h g u d e h' g' :
  reached_inv s g → node_get_distance g u ≠ UINT_MAX →
  e ∈ node_get_edges g u →
  relax h g u d e = Ret (h', g') →
  reached_inv s g' ∧ node_get_distance g' u ≠ UINT_MAX.
Proof.
  intros Hinv Hu He Hrel.
  destruct (relax_effect _ _ _ _ _ _ _ Hrel) as (_ & Hsh & Hyes & Hno).
  destruct (decide (to_uint (d + mindelay e) < node_get_distance g (destination e)))
    as [Hlt|Hge]; [|by destruct (Hno Hge) as [-> ->]].
  destruct (Hyes Hlt) as (_ & Hd & Hp). clear Hyes Hno.
  pose proof (to_uint_range (d + mindelay e)) as Hr.
  pose proof (ri_range _ _ Hinv (destination e)) as Hrd.
  assert (Hne : destination e ≠ s).
  { intros Hs. rewrite Hs, (ri_source _ _ Hinv) in Hlt. lia. }
  assert (Hfin : ∀ n, node_get_distance g n ≠ UINT_MAX →
            node_get_distance g' n ≠ UINT_MAX).
  { intros n Hn. rewrite Hd. case_decide; [lia|done]. }
  split; [|by apply Hfin]. split.
  - intros n. rewrite Hd. case_decide; [lia|apply Hinv].
  - rewrite Hd, decide_False by done. apply Hinv.
  - rewrite Hp, decide_False by done. apply Hinv.
  - intros n. rewrite Hd. case_decide as Hn.
    + subst n. intros _. destruct (ri_path _ _ Hinv u Hu) as [w Hw].
      exists (w + mindelay e). eapply path_same_shape; [done|].
      by apply (path_step g s u e w).
    + intros Hf. destruct (ri_path _ _ Hinv n Hf) as [w Hw].
      exists w. by eapply path_same_shape.
  - intros n. rewrite Hd, Hp. case_decide as Hn.
    + intros _ _. exists u. split; [done|]. by apply Hfin.
    + intros Hf Hns. destruct (ri_prev _ _ Hinv n Hf Hns) as (p & Hpp & Hpf).
      exists p. split; [done|]. by apply Hfin.
Qed.

Lemma reached_inv_relax_all s u d post : ∀ pre h g h' g',
  reached_inv s g → node_get_distance g u ≠ UINT_MAX →
  node_get_edges g u = pre ++ post →
  relax_all h g u d post = Ret (h', g') →
  reached_inv s g'.
Proof.
  induction post as [|e post IH]; intros pre h g h' g' Hinv Hu Hes; simpl.
  { by intros [= <- <-]. }
  destruct (relax h g u d e) as [[h1 g1]| |] eqn:Hrel; simpl; [|done..].
  destruct (reached_inv_relax s h g u d e h1 g1 Hinv Hu) as [Hinv1 Hu1]; [|done|].
  { rewrite Hes. apply elem_of_app. right. by left. }
  destruct (relax_effect _ _ _ _ _ _ _ Hrel) as (_ & (Hed & _) & _).
  apply (IH (pre ++ [e])); [done..|]. by rewrite Hed, Hes, <- app_assoc.
Qed.

Lemma reached_inv_same s g g' :
  same_shape g g' →
  (∀ n, node_get_distance g' n = node_get_distance g n) →
  (∀ n, node_get_previous g' n = node_get_previous g n) →
  reached_inv s g → reached_inv s g'.
Proof.
  intros Hsh Hd Hp []. split; intros; rewrite ?Hd, ?Hp in *; auto.
  - destruct (ri_path0 n) as [w Hw]; [done|]. exists w. by eapply path_same_shape.
  - destruct (ri_prev0 n) as (p & ? & ?); [done..|]. exists p. by rewrite Hd.
Qed.

Lemma reached_inv_loop s dest fuel : ∀ h g h' g',
  reached_inv s g → dijkstra_loop fuel h g dest = Ret (h', g') →
  same_shape g g' ∧ reached_inv s g'.
Proof.
  induction fuel as [|fuel IH]; intros h g h' g' Hinv.
  { destruct h; simpl; [|done]. intros [= <- <-]. split; [apply same_shape_refl|done]. }
  destruct (decide (h = [])) as [->|Hne].
  { simpl. intros [= <- <-]. split; [apply same_shape_refl|done]. }
  destruct (heap_extract_min_is_Some h g Hne) as [[[u h1] g1] Hex].
  rewrite (dijkstra_loop_unfold _ _ _ _ _ _ _ Hex).
  destruct (heap_extract_min_effect _ _ _ _ _ Hex) as (_ & _ & Hsh & Hd & Hp).
  pose proof (reached_inv_same s g g1 Hsh Hd Hp Hinv) as Hinv1.
  case_decide as Hinf; [by intros [= <- <-]|].
  destruct (relax_all _ _ _ _ _) as [[h2 g2]| |] eqn:Hrel; simpl; [|done..].
  pose proof (reached_inv_relax_all s u _ _ [] h1 g1 h2 g2 Hinv1 Hinf eq_refl Hrel)
    as Hinv2.
  apply relax_all_effect in Hrel as [_ Hsh2].
  assert (same_shape g g2) by (by eapply same_shape_trans).
  case_decide; [by intros [= <- <-]|].
  intros [Hsh' Hinv']%IH; [|done]. split; [by eapply same_shape_trans|done].
Qed.

Lemma dijkstra_not_timeout g s dest fuel :
  (size g ≤ fuel)%nat → dijkstra fuel g s dest ≠ Timeout.
Proof.
  intros Hfuel. unfold dijkstra, heap_new_from_graph.
  destruct (heap_build _ g) as [h0 g0] eqn:Hb.
  assert (h0 = (map_to_list g).*1) as Hh0 by (by injection Hb).
  destruct (graph_get_node g0 s); [|done]. simpl.
  destruct (heap_decrease_distance _ _ _ _ _) as [[h1 g1]| |] eqn:Hdec; simpl;
    [|done|].
  - apply heap_decrease_distance_effect in Hdec as (Hp & _).
    assert (length h1 ≤ fuel)%nat as Hlen
      by (by rewrite Hp, Hh0, length_fmap, length_map_to_list).
    pose proof (dijkstra_loop_not_timeout dest fuel h1 g1 Hlen) as Hnt.
    by destruct (dijkstra_loop fuel h1 g1 dest) as [[h2 g2]| |].
  - unfold heap_decrease_distance in Hdec. destruct (heap_slot _ _ _); [|done].
    case_decide; [|done]. by destruct (sift_up _ _ _ _).
Qed.

(** What a search that returns has done, whatever the weights are. *)
Lemma dijkstra_returns g s dest fuel r :
  graph_wf g → dijkstra fuel g s dest = Ret r →
  match dr_heap r with
  | None => g !! s = None ∧ dr_stderr r = [errorHandle INVALID_SOURCE_NODE_ID]
  | Some _ =>
      is_Some (g !! s) ∧ dr_stderr r = [] ∧ same_shape g (dr_graph r) ∧
      reached_inv s (dr_graph r)
  end.
Proof.
  intros Hwf. unfold dijkstra, heap_new_from_graph.
  destruct (heap_build _ g) as [h0 g0] eqn:Hb.
  assert (He : erase g0 = erase g).
  { injection Hb as _ <-. apply record_indices_erase. }
  assert (Hsh0 : same_shape g g0).
  { split_and!; intros n;
      [by apply erase_eq_edges|by apply erase_eq_id|by apply erase_eq_is_Some]. }
  unfold graph_get_node. destruct (g0 !! s) as [x|] eqn:Hx.
  2:{ intros [= <-]. simpl. split; [|done].
      apply eq_None_not_Some. rewrite <- (erase_eq_is_Some _ _ He), Hx.
      by intros [? ?]. }
  simpl. destruct (heap_decrease_distance _ _ _ _ _) as [[h1 g1]| |] eqn:Hdec;
    simpl; [|done..].
  destruct (dijkstra_loop fuel h1 g1 dest) as [[h2 g2]| |] eqn:Hloop; simpl;
    [|done..].
  intros [= <-]. simpl.
  destruct (heap_decrease_distance_effect _ _ _ _ _ _ _ Hdec)
    as (_ & _ & _ & _ & _ & Hsh & Hd & Hp).
  assert (Hd0 : ∀ n, node_get_distance g0 n = UINT_MAX).
  { intros n. rewrite (erase_eq_distance _ _ He). by apply graph_wf_distance. }
  assert (Hp0 : ∀ n, node_get_previous g0 n = None).
  { intros n. rewrite (erase_eq_previous _ _ He). by apply graph_wf_previous. }
  assert (Hinv1 : reached_inv s g1).
  { split.
    - intros n. rewrite Hd, Hd0. case_decide; by compute.
    - by rewrite Hd, decide_True.
    - by rewrite Hp, decide_True.
    - intros n. rewrite Hd, Hd0. case_decide; [|done]. subst. intros _.
      exists 0. constructor.
    - intros n. rewrite Hd, Hd0. case_decide; [|done]. by subst. }
  destruct (reached_inv_loop s dest fuel h1 g1 h2 g2 Hinv1 Hloop) as [Hsh2 Hinv2].
  split_and!; [|done| |done].
  - rewrite <- (erase_eq_is_Some _ _ He), Hx. by eexists.
  - eapply same_shape_trans; [done|]. by eapply same_shape_trans.
Qed.

(** ** The loaders build well-formed graphs *)

Lemma node_wf_mono (g g' : Graph) k n :
  (∀ m, is_Some (g !! m) → is_Some (g' !! m)) → node_wf g k n → node_wf g' k n.
Proof.
  intros Hsub (? & ? & ? & Hall). split_and!; [done..|].
  eapply Forall_impl; [done|]. intros e. apply Hsub.
Qed.

Lemma graph_new_wf : graph_wf graph_new.
Proof. apply map_Forall_empty. Qed.

Lemma graph_insert_node_wf g i g' :
  graph_wf g → graph_insert_node g i = Some g' →
  graph_wf g' ∧ is_Some (g' !! i) ∧ (∀ m, is_Some (g !! m) → is_Some (g' !! m)).
Proof.
  intros Hwf. unfold graph_insert_node. destruct (g !! i) as [x|] eqn:Hx.
  - intros [= <-]. split_and!; [done|by rewrite Hx|done].
  - intros [= <-].
    assert (Hsub : ∀ m, is_Some (g !! m) → is_Some (<[i:=new_node i]> g !! m)).
    { intros m Hm. rewrite lookup_insert_is_Some. destruct (decide (i = m)); auto. }
    split_and!; [|by rewrite lookup_insert_eq|done].
    apply map_Forall_insert; [done|]. split.
    + by split_and!.
    + intros k n Hk. eapply node_wf_mono; [done|]. by apply Hwf.
Qed.

Lemma graph_insert_edge_wf g s d w g' :
  graph_wf g → graph_insert_edge g s d w = Some g' → graph_wf g'.
Proof.
  intros Hwf. unfold graph_insert_edge.
  destruct (graph_insert_node g s) as [g1|] eqn:H1; [|done]. simpl.
  destruct (graph_insert_node g1 d) as [g2|] eqn:H2; [|done]. simpl.
  intros [= <-].
  destruct (graph_insert_node_wf _ _ _ Hwf H1) as (Hwf1 & Hs1 & Hsub1).
  destruct (graph_insert_node_wf _ _ _ Hwf1 H2) as (Hwf2 & Hd2 & Hsub2).
  set (e := {| destination := d; mindelay := w |}).
  assert (Hsub : ∀ m, is_Some (g2 !! m) → is_Some (alter (add_edge e) s g2 !! m)).
  { intros m. by rewrite is_Some_alter. }
  intros k n. rewrite lookup_alter. case_decide as Hk.
  - subst k. destruct (g2 !! s) as [x|] eqn:Hx; [|done]. intros [= <-].
    destruct (Hwf2 s x Hx) as (? & ? & ? & Hall). split_and!; [done..|].
    simpl. apply Forall_app. split.
    + eapply Forall_impl; [done|]. intros e'. apply Hsub.
    + constructor; [|constructor]. by apply Hsub.
  - intros Hn. eapply node_wf_mono; [done|]. by apply Hwf2.
Qed.

Lemma loadNodes_loop_wf fuel : ∀ g f g',
  graph_wf g → loadNodes_loop fuel g f = Ret (Some g') → graph_wf g'.
Proof.
  induction fuel as [|fuel IH]; intros g f g' Hwf; simpl.
  { destruct (f_eof f); [by intros [= <-]|done]. }
  destruct (f_eof f); [by intros [= <-]|].
  destruct (fgets 200 f) as [buffer f'].
  destruct (f_eof f'); [by intros [= <-]|].
  destruct (strtok (cstr buffer)) as [token save].
  destruct (atoi token) as [v| |]; simpl; [|done..].
  destruct (graph_insert_node g (to_uint v)) as [g1|] eqn:Hins; [|done].
  apply IH. by eapply graph_insert_node_wf.
Qed.

Lemma loadEdges_loop_wf fuel : ∀ g f g',
  graph_wf g → loadEdges_loop fuel g f = Ret (Some g') → graph_wf g'.
Proof.
  induction fuel as [|fuel IH]; intros g f g' Hwf; simpl.
  { destruct (f_eof f); [by intros [= <-]|done]. }
  destruct (f_eof f); [by intros [= <-]|].
  destruct (fgets 200 f) as [buffer f'].
  destruct (f_eof f'); [by intros [= <-]|].
  destruct (strtok (cstr buffer)) as [token1 save1].
  destruct (atoi token1) as [v1| |]; simpl; [|done..].
  destruct (strtok save1) as [token2 save2].
  destruct (atoi token2) as [v2| |]; simpl; [|done..].
  destruct (strtok save2) as [token3 save3].
  destruct (strtok save3) as [token4 save4].
  destruct (atoi token4) as [v4| |]; simpl; [|done..].
  destruct (graph_insert_edge g (to_uint v1) (to_uint v2) v4) as [g1|] eqn:Hins;
    [|done].
  apply IH. by eapply graph_insert_edge_wf.
Qed.

Lemma loaded_wf env nodesFile edgesFile g :
  loaded env nodesFile edgesFile g → graph_wf g.
Proof.
  intros (nodes & edges & g1 & _ & _ & Hn & He).
  eapply loadEdges_loop_wf; [|exact He].
  eapply loadNodes_loop_wf; [|exact Hn]. apply graph_new_wf.
Qed.

(** ** The three-node scenario *)

(** C1: on the graph with nodes 1, 2, 3 and edges (1,2,5), (2,3,2),
    (1,3,10), the run from 1 to 3 prints the path 1 -> 2 -> 3, whose edges
    carry the labels 5 and 2, and leaves node 3 at distance 7 with
    predecessor 2, not at distance 10 with predecessor 1.  This does not
    depend on the order in which the heap is filled. *)
Theorem scenario_shortest_path :
  loaded scenario_env "nodes" "edges" scenario_graph ∧
  app 3 scenario_env "nodes" "edges" "1" "3" None =
    Ret {| exit_code := 0; run_stderr := []; run_stdout := scenario_output;
           run_created := None |} ∧
  ∀ order, order ≡ₚ [1; 2; 3] →
    ∃ h g, search_from_order 3 order scenario_graph 1 3 = Ret (h, g) ∧
      node_get_distance g 3 = 7 ∧ node_get_previous g 3 = Some 2 ∧
      node_get_distance g 2 = 5 ∧ node_get_previous g 2 = Some 1 ∧
      node_get_distance g 1 = 0 ∧ node_get_previous g 1 = None ∧
      printShortestPath 3 g 1 3 = Ret scenario_output.
Proof.
  split_and!.
  - exists scenario_nodes, scenario_edges.
    eexists. split_and!; [done|done|by vm_compute|by vm_compute].
  - by vm_compute.
  - intros order Hp. symmetry in Hp. apply permutations_Permutation in Hp.
    vm_compute in Hp. set_unfold in Hp.
    destruct Hp as [->|[->|[->|[->|[->|[->|[]]]]]]];
      (eexists _, _; split; [by vm_compute|by vm_compute]).
Qed.

(** ** Relaxation *)

(** C2: an iteration that extracts a reached node [u] at distance [d]
    relaxes the outgoing edges of [u], in order, all with that same [d].  For
    each edge the candidate is [d] plus the weight of the edge; when it is
    strictly below the distance of the destination the iteration calls
    [heap_decrease_distance], which leaves the destination at the candidate
    with [u] as its predecessor and touches no other distance or
    predecessor; otherwise the edge changes nothing. *)
Theorem relaxation_step h g dest fuel u h1 g1 :
  heap_extract_min h g = Some (u, h1, g1) →
  node_get_distance g1 u ≠ UINT_MAX →
  let d := node_get_distance g1 u in
  dijkstra_loop (S fuel) h g dest =
    ('(h2, g2) ←← relax_all h1 g1 u d (node_get_edges g1 u);
     if decide (u = dest) then Ret (h2, g2) else dijkstra_loop fuel h2 g2 dest) ∧
  ∀ h g e,
    let tmp := destination e in
    let alt := to_uint (d + mindelay e) in
    (alt < node_get_distance g tmp →
       relax h g u d e = heap_decrease_distance h g tmp alt (Some u)) ∧
    (¬ alt < node_get_distance g tmp → relax h g u d e = Ret (h, g)) ∧
    ∀ h' g', relax h g u d e = Ret (h', g') →
      (alt < node_get_distance g tmp →
         node_get_distance g' tmp = alt ∧ node_get_previous g' tmp = Some u ∧
         ∀ m, m ≠ tmp →
           node_get_distance g' m = node_get_distance g m ∧
           node_get_previous g' m = node_get_previous g m) ∧
      (¬ alt < node_get_distance g tmp → h' = h ∧ g' = g).
Proof.
  intros Hex Hfin d. split.
  - rewrite (dijkstra_loop_unfold _ _ _ _ _ _ _ Hex). by rewrite decide_False.
  - intros h' g' e tmp alt. split_and!.
    + intros Hlt. unfold relax. by rewrite decide_True.
    + intros Hge. unfold relax. by rewrite decide_False.
    + intros h2 g2 Hrel.
      destruct (relax_effect _ _ _ _ _ _ _ Hrel) as (_ & _ & Hyes & Hno).
      split; [|done]. intros Hlt. destruct (Hyes Hlt) as (_ & Hd & Hp).
      split_and!.
      * by rewrite Hd, decide_True.
      * by rewrite Hp, decide_True.
      * intros m Hm. by rewrite Hd, Hp, !decide_False.
Qed.

Lemma relaxation_step_witness :
  heap_extract_min scenario_start.1 scenario_start.2 =
    Some (1, scenario_extracted.1.2, scenario_extracted.2) ∧
  node_get_distance scenario_extracted.2 1 ≠ UINT_MAX ∧
  dijkstra_loop 3 scenario_start.1 scenario_start.2 3 =
    ('(h2, g2) ←← relax_all scenario_extracted.1.2 scenario_extracted.2 1
                   (node_get_distance scenario_extracted.2 1)
                   (node_get_edges scenario_extracted.2 1);
     if decide (1 = 3) then Ret (h2, g2) else dijkstra_loop 2 h2 g2 3).
Proof.
  assert (Hex : heap_extract_min scenario_start.1 scenario_start.2 =
                Some (1, scenario_extracted.1.2, scenario_extracted.2))
    by (vm_compute; reflexivity).
  assert (Hfin : node_get_distance scenario_extracted.2 1 ≠ UINT_MAX)
    by (vm_compute; discriminate).
  split; [exact Hex|]. split; [exact Hfin|].
  exact (proj1 (relaxation_step _ _ 3 2%nat _ _ _ Hex Hfin)).
Defined.

(** The value of an [int] converted to [unsigned int]. *)
Lemma to_uint_negative w : INT_MIN ≤ w < 0 → to_uint w = w + 2 ^ 32.
Proof. unfold to_uint, INT_MIN. intros. zlia. Qed.

Lemma to_uint_add d w : to_uint (d + w) = to_uint (d + to_uint w).
Proof. unfold to_uint. by rewrite Zplus_mod_idemp_r. Qed.

(** C9: the weight of an edge is a signed integer, and the candidate
    distance of a relaxation is the sum of the distance and the weight
    reduced modulo 2^32: the weight is converted to an unsigned number, a
    negative one becoming a number of at least 2^31, and the addition wraps
    around.  So the edge line [1,2,x,-1] is loaded with the weight -1, and
    the search from 1 finds the candidate 2^32 - 1 for node 2, which is the
    infinity sentinel and improves nothing. *)
Theorem relax_candidate_unsigned h g u d e :
  let w := mindelay e in
  let alt := (d + w) mod 2 ^ 32 in
  relax h g u d e =
    (if decide (alt < node_get_distance g (destination e)) then
       heap_decrease_distance h g (destination e) alt (Some u)
     else Ret (h, g)) ∧
  alt = to_uint (d + to_uint w) ∧ 0 ≤ alt ≤ UINT_MAX ∧
  (INT_MIN ≤ w < 0 → to_uint w = w + 2 ^ 32 ∧ 2 ^ 31 ≤ to_uint w) ∧
  (0 ≤ d ≤ UINT_MAX → INT_MIN ≤ w → d + w < 0 →
     alt = d + w + 2 ^ 32 ∧ 2 ^ 31 ≤ alt) ∧
  loadEdges graph_new (fopen_read ("1,2,x,-1" +:+ nl)) =
    Ret (Some negative_graph) ∧
  node_get_edges negative_graph 1 = [{| destination := 2; mindelay := -1 |}] ∧
  to_uint (0 + -1) = UINT_MAX ∧
  match dijkstra 2 negative_graph 1 2 with
  | Ret r => node_get_distance (dr_graph r) 2 = UINT_MAX
  | _ => False
  end.
Proof.
  intros w alt. split_and!.
  - done.
  - unfold alt. apply to_uint_add.
  - apply to_uint_range.
  - apply to_uint_range.
  - intros Hw. rewrite to_uint_negative by done. unfold INT_MIN in Hw. lia.
  - unfold alt, UINT_MAX, INT_MIN. intros. zlia.
  - vm_compute; reflexivity.
  - vm_compute; reflexivity.
  - vm_compute; reflexivity.
  - vm_compute; reflexivity.
Qed.

(** ** The renderer *)

Lemma print_walk_chain g : ∀ l n fuel,
  prev_chain g n l → (length l ≤ fuel)%nat →
  print_walk fuel g n (node_get_previous g n) = Ret (chain_lines g n l).
Proof.
  induction l as [|p l IH]; intros n fuel Hc Hf; inversion Hc as [? Hp|? ? ? Hp Hl];
    subst; rewrite Hp.
  - by destruct fuel.
  - destruct fuel as [|fuel]; [simpl in Hf; lia|]. simpl.
    rewrite (IH p fuel Hl) by (simpl in Hf; lia). done.
Qed.

Lemma chain_lines_lookup g : ∀ l n i p m,
  l !! i = Some p → (n :: l) !! i = Some m →
  chain_lines g n l !! i =
    Some (edge_line (node_get_id g p) (node_get_id g m)
            (to_uint (node_get_distance g m - node_get_distance g p))).
Proof.
  induction l as [|q l IH]; intros n i p m Hp Hm; [done|].
  destruct i as [|i]; simpl in *; [by simplify_eq|]. by apply IH.
Qed.

(** C4: the output is the opening line, one edge line per predecessor link
    walked, and the closing line.  The lines come in the order of the walk,
    which starts at the target: line [i] is the link from the [i]-th
    predecessor to the node before it, labelled with the unsigned difference
    of their distances, which is their difference when the distances do not
    decrease along the link.  With the target's id as source id there is no
    edge line, and the opening and closing lines are still there. *)
Theorem rendered_path g source_id dest l fuel :
  prev_chain g dest l → (length l ≤ fuel)%nat →
  let body :=
    if decide (source_id = node_get_id g dest) then [] else chain_lines g dest l in
  printShortestPath fuel g source_id dest =
    Ret (("digraph {" +:+ nl) :: body ++ ["}" +:+ nl]) ∧
  length (chain_lines g dest l) = length l ∧
  (∀ i p n, l !! i = Some p → (dest :: l) !! i = Some n →
     chain_lines g dest l !! i =
       Some (edge_line (node_get_id g p) (node_get_id g n)
               (to_uint (node_get_distance g n - node_get_distance g p))) ∧
     (0 ≤ node_get_distance g p ≤ node_get_distance g n →
      node_get_distance g n ≤ UINT_MAX →
      to_uint (node_get_distance g n - node_get_distance g p) =
        node_get_distance g n - node_get_distance g p)) ∧
  (source_id = node_get_id g dest →
     printShortestPath fuel g source_id dest =
       Ret ["digraph {" +:+ nl; "}" +:+ nl]).
Proof.
  intros Hc Hf body. split_and!.
  - unfold printShortestPath, body.
    destruct (decide (source_id = node_get_id g dest)) as [Heq|Hne].
    + by rewrite decide_False by (intros Hne; by apply Hne).
    + rewrite decide_True by done. by rewrite (print_walk_chain g l).
  - clear. revert dest. induction l as [|p l IH]; intros n; simpl; [done|].
    by rewrite IH.
  - intros i p n Hp Hn. split; [by apply chain_lines_lookup|].
    intros ??. apply to_uint_small. unfold UINT_MAX in *. lia.
  - intros Hs. unfold printShortestPath.
    by rewrite decide_False by (intros Hne; by apply Hne).
Qed.

Lemma rendered_path_witness :
  prev_chain scenario_result 3 [2; 1] ∧ (length [2; 1] ≤ 3)%nat ∧
  printShortestPath 3 scenario_result 1 3 =
    Ret (("digraph {" +:+ nl)
           :: chain_lines scenario_result 3 [2; 1] ++ ["}" +:+ nl]).
Proof.
  assert (Hc : prev_chain scenario_result 3 [2; 1]).
  { apply chain_link; [reflexivity|]. apply chain_link; [reflexivity|].
    apply chain_end. reflexivity. }
  assert (Hf : (length [2; 1] ≤ 3)%nat) by (simpl; lia).
  split; [exact Hc|]. split; [exact Hf|].
  exact (proj1 (rendered_path scenario_result 1 3 [2; 1] 3 Hc Hf)).
Defined.





(** ** Early exit *)

Lemma search_step_loop dest fuel st st' :
  search_step dest st st' →
  dijkstra_loop (S fuel) st.1 st.2 dest = dijkstra_loop fuel st'.1 st'.2 dest.
Proof.
  intros (u & h1 & g1 & Hex & Hfin & Hrel & Hne).
  rewrite (dijkstra_loop_unfold _ _ _ _ _ _ _ Hex), decide_False, Hrel by done.
  destruct st'. simpl. by rewrite decide_False.
Qed.

Lemma search_iteration_all s M done h g u h1 g1 :
  search_inv s (done_edges done g) M done h g →
  heap_extract_min h g = Some (u, h1, g1) →
  node_get_distance g1 u ≠ UINT_MAX →
  ∃ h2 g2,
    relax_all h1 g1 u (node_get_distance g1 u) (node_get_edges g1 u) = Ret (h2, g2) ∧
    h2 ≡ₚ h1 ∧ same_shape g g2 ∧
    node_get_distance g2 u = node_get_distance g u ∧
    search_inv s (done_edges (u :: done) g2) (node_get_distance g2 u)
      (u :: done) h2 g2.
Proof.
  intros Hinv Hex Hfin.
  destruct (search_iteration _ _ _ _ _ _ _ _ Hinv Hex Hfin)
    as (h2 & g2 & Hloop & Hrest).
  exists h2, g2. split; [|done].
  by rewrite <- (relax_from_relax_all u _ (node_get_edges g1 u) [] h1 g1 eq_refl).
Qed.

Lemma search_step_ok s dest st st' :
  loop_state_ok s dest st.1 st.2 → search_step dest st st' →
  loop_state_ok s dest st'.1 st'.2 ∧ same_shape st.2 st'.2.
Proof.
  intros (M & done & Hinv & Hdest) (u & h1 & g1 & Hex & Hfin & Hrel & Hne).
  destruct (search_iteration_all _ _ _ _ _ _ _ _ Hinv Hex Hfin)
    as (h2 & g2 & Hrel' & Hp & Hsh & _ & Hinv2).
  rewrite Hrel in Hrel'. injection Hrel' as ->. simpl. split; [|done].
  exists (node_get_distance g2 u), (u :: done). split; [done|].
  destruct (heap_extract_min_effect _ _ _ _ _ Hex) as (Hp1 & _).
  rewrite Hp. rewrite Hp1 in Hdest. by apply elem_of_cons in Hdest as [?|?].
Qed.

Lemma search_steps_ok s dest st st' :
  loop_state_ok s dest st.1 st.2 → rtc (search_step dest) st st' →
  loop_state_ok s dest st'.1 st'.2 ∧ same_shape st.2 st'.2.
Proof.
  intros Hok Hsteps. induction Hsteps as [st|st st1 st2 Hstep _ IH].
  - split; [done|apply same_shape_refl].
  - destruct (search_step_ok _ _ _ _ Hok Hstep) as [Hok1 Hsh1].
    destruct (IH Hok1) as [Hok2 Hsh2]. split; [done|by eapply same_shape_trans].
Qed.

(** C5, amended: in a graph without negative weights whose weights add up
    to less than the infinity sentinel, an iteration that extracts the
    target ends the search at once, with the rest of the heap left as the
    extraction left it, and the distance of the target is then the least
    weight of a path from the source to it. *)
Theorem early_exit_optimal g s dest h0 g0 st0 st h1 g1 :
  graph_wf g → nonneg_weights g → total_weight g < UINT_MAX →
  is_Some (g !! s) → is_Some (g !! dest) →
  heap_new_from_graph g = Some (h0, g0) →
  heap_decrease_distance h0 g0 s 0 None = Ret st0 →
  rtc (search_step dest) st0 st →
  heap_extract_min st.1 st.2 = Some (dest, h1, g1) →
  node_get_distance g1 dest ≠ UINT_MAX →
  ∃ h2 g2,
    (∀ fuel, dijkstra_loop (S fuel) st.1 st.2 dest = Ret (h2, g2)) ∧
    h2 ≡ₚ h1 ∧
    node_get_distance g2 dest = node_get_distance g1 dest ∧
    path g s dest (node_get_distance g2 dest) ∧
    ∀ w, path g s dest w → node_get_distance g2 dest ≤ w.
Proof.
  intros Hwf Hnn Htot Hs Hdest Hnew Hdec Hsteps Hex Hfin.
  destruct (search_inv_init g s Hwf Hnn Htot Hs)
    as (h0' & g0' & h1' & g1' & Hnew' & _ & Hdec' & Hsh0 & Hp0 & Hinv0).
  rewrite Hnew in Hnew'. injection Hnew' as <- <-.
  rewrite Hdec in Hdec'. injection Hdec' as ->.
  destruct (search_steps_ok s dest (h1', g1') st) as [(M & ext & Hinv & Hin) Hsh];
    [|done|].
  { exists 0, []. split; [done|]. simpl. rewrite Hp0. by apply map_keys_elem. }
  simpl in Hsh.
  destruct (search_iteration_all _ _ _ _ _ _ _ _ Hinv Hex Hfin)
    as (h2 & g2 & Hrel & Hp & Hsh2 & Hd & Hinv2).
  destruct (heap_extract_min_effect _ _ _ _ _ Hex) as (_ & _ & _ & Hd1 & _).
  assert (Hres : result_ok s dest g2).
  { eapply search_inv_result; [done|by left]. }
  assert (Hfin2 : node_get_distance g2 dest ≠ UINT_MAX) by (by rewrite Hd, <- Hd1).
  destruct Hres as [Hres _]. destruct (Hres Hfin2) as [Hpath Hmin].
  assert (Hshg : same_shape g g2).
  { eapply same_shape_trans; [done|]. by eapply same_shape_trans. }
  exists h2, g2. split_and!.
  - intros fuel. rewrite (dijkstra_loop_unfold _ _ _ _ _ _ _ Hex).
    rewrite decide_False, Hrel by done. simpl. by rewrite decide_True.
  - done.
  - by rewrite Hd, <- Hd1.
  - eapply path_same_shape; [|done]. by apply same_shape_sym.
  - intros w Hw. apply Hmin. by eapply path_same_shape.
Qed.

Lemma run_step_search_step dest st u h1 g1 :
  heap_extract_min st.1 st.2 = Some (u, h1, g1) →
  node_get_distance g1 u ≠ UINT_MAX →
  is_Some (match relax_all h1 g1 u (node_get_distance g1 u) (node_get_edges g1 u)
           with Ret st' => Some st' | _ => None end) →
  u ≠ dest →
  search_step dest st (run_step st).
Proof.
  intros Hex Hfin Hrel Hne. exists u, h1, g1. unfold run_step. rewrite Hex.
  by destruct (relax_all _ _ _ _ _) as [st'| |]; [|destruct Hrel..].
Qed.

Lemma early_exit_optimal_witness :
  graph_wf scenario_graph ∧ nonneg_weights scenario_graph ∧
  total_weight scenario_graph < UINT_MAX ∧
  rtc (search_step 3) scenario_start scenario_before_target ∧
  ∃ h2 g2,
    (∀ fuel, dijkstra_loop (S fuel) scenario_before_target.1
               scenario_before_target.2 3 = Ret (h2, g2)) ∧
    h2 ≡ₚ scenario_target_extracted.1.2 ∧
    node_get_distance g2 3 = node_get_distance scenario_target_extracted.2 3 ∧
    path scenario_graph 1 3 (node_get_distance g2 3) ∧
    ∀ w, path scenario_graph 1 3 w → node_get_distance g2 3 ≤ w.
Proof.
  assert (Hwf : graph_wf scenario_graph)
    by (apply (bool_decide_unpack _); vm_compute; exact I).
  assert (Hnn : nonneg_weights scenario_graph)
    by (apply (bool_decide_unpack _); vm_compute; exact I).
  assert (Htot : total_weight scenario_graph < UINT_MAX) by (vm_compute; reflexivity).
  assert (Hsteps : rtc (search_step 3) scenario_start scenario_before_target).
  { eapply rtc_l; [|eapply rtc_l; [|apply rtc_refl]].
    - apply (run_step_search_step 3 scenario_start 1
        scenario_extracted.1.2 scenario_extracted.2).
      + vm_compute; reflexivity.
      + vm_compute; discriminate.
      + vm_compute. eexists. reflexivity.
      + discriminate.
    - apply (run_step_search_step 3 (run_step scenario_start) 2
        (default (0, [], ∅) (heap_extract_min (run_step scenario_start).1
           (run_step scenario_start).2)).1.2
        (default (0, [], ∅) (heap_extract_min (run_step scenario_start).1
           (run_step scenario_start).2)).2).
      + vm_compute; reflexivity.
      + vm_compute; discriminate.
      + vm_compute. eexists. reflexivity.
      + discriminate. }
  split; [exact Hwf|]. split; [exact Hnn|]. split; [exact Htot|].
  split; [exact Hsteps|].
  refine (early_exit_optimal scenario_graph 1 3
    (default ([], ∅) (heap_new_from_graph scenario_graph)).1
    (default ([], ∅) (heap_new_from_graph scenario_graph)).2
    scenario_start scenario_before_target
    scenario_target_extracted.1.2 scenario_target_extracted.2
    Hwf Hnn Htot _ _ _ _ Hsteps _ _).
  - vm_compute. eexists. reflexivity.
  - vm_compute. eexists. reflexivity.
  - vm_compute. reflexivity.
  - vm_compute. reflexivity.
  - vm_compute. reflexivity.
  - vm_compute. discriminate.
Defined.

Lemma overflow_graph_paths v w :
  path overflow_graph 1 v w →
  v = 1 ∧ w = 0 ∨ v = 2 ∧ w = INT_MAX ∨ v = 3 ∧ w = 2 * INT_MAX ∨
  v = 4 ∧ w = 3 * INT_MAX.
Proof.
  induction 1 as [|v e w _ IH He]; [by left|].
  destruct IH as [[-> ->]|[[-> ->]|[[-> ->]|[-> ->]]]]; vm_compute in He;
    set_unfold in He; destruct_or?; subst; simpl; try done.
  - right. left. done.
  - right. right. left. done.
  - right. right. right. done.
Qed.

(** C5, as stated, fails: no weight of the chain is negative, the search
    from 1 extracts the target 4 and returns, and the distance of 4 is then
    2147483645, where the only path from 1 to 4 weighs 6442450941: the sum
    has wrapped around. *)
Lemma early_exit_overflow :
  graph_wf overflow_graph ∧ nonneg_weights overflow_graph ∧
  (∃ h g, dijkstra 4 overflow_graph 1 4 =
            Ret {| dr_heap := Some h; dr_graph := g; dr_stderr := [] |} ∧
          (4 ∉ h) ∧ node_get_distance g 4 = 2147483645) ∧
  path overflow_graph 1 4 6442450941 ∧
  (∀ w, path overflow_graph 1 4 w → w = 6442450941).
Proof.
  split_and!.
  - apply (bool_decide_unpack _). vm_compute. exact I.
  - apply (bool_decide_unpack _). vm_compute. exact I.
  - eexists _, _. split; [vm_compute; reflexivity|].
    split; [|vm_compute; reflexivity]. by intros ?%elem_of_nil.
  - apply (path_step _ _ 3 {| destination := 4; mindelay := INT_MAX |} 4294967294);
      [|vm_compute; set_solver].
    apply (path_step _ _ 2 {| destination := 3; mindelay := INT_MAX |} 2147483647);
      [|vm_compute; set_solver].
    apply (path_step _ _ 1 {| destination := 2; mindelay := INT_MAX |} 0);
      [|vm_compute; set_solver].
    constructor.
  - intros w Hw. apply overflow_graph_paths in Hw.
    destruct Hw as [[? ?]|[[? ?]|[[? ?]|[_ ->]]]]; done.
Qed.

(** ** Termination *)

(** The heap and the distances when the loop starts. *)
Lemma search_start g s :
  graph_wf g → is_Some (g !! s) →
  ∃ h0 g0 h1 g1,
    heap_new_from_graph g = Some (h0, g0) ∧
    graph_get_node g0 s = Some s ∧
    heap_decrease_distance h0 g0 s 0 None = Ret (h1, g1) ∧
    same_shape g g1 ∧ h1 ≡ₚ (map_to_list g).*1 ∧ heap_ok h1 g1 ∧
    ∀ n, node_get_distance g1 n = if decide (s = n) then 0 else UINT_MAX.
Proof.
  intros Hwf Hs. unfold heap_new_from_graph.
  destruct (heap_build_ok (map_to_list g).*1 g (map_keys_NoDup g)) as [Hok He].
  { intros x. apply map_keys_elem. }
  { intros n. by apply graph_wf_distance. }
  destruct (heap_build _ g) as [h0 g0] eqn:Hb. simpl in Hok, He.
  assert (h0 = (map_to_list g).*1) as Hh0 by (by injection Hb).
  assert (Hsh0 : same_shape g g0).
  { split_and!; intros n;
      [by apply erase_eq_edges|by apply erase_eq_id|by apply erase_eq_is_Some]. }
  assert (Hd0 : ∀ n, node_get_distance g0 n = UINT_MAX).
  { intros n. rewrite (erase_eq_distance _ _ He). by apply graph_wf_distance. }
  assert (Hs0 : s ∈ h0) by (rewrite Hh0; by apply map_keys_elem).
  destruct (heap_decrease_distance_ok h0 g0 s 0 None Hok Hs0) as (h1 & g1 & Hdec & Hok1).
  { rewrite Hd0. by compute. }
  exists h0, g0, h1, g1. split; [done|].
  destruct (heap_decrease_distance_effect _ _ _ _ _ _ _ Hdec)
    as (Hp & _ & _ & Hsome & _ & Hsh & Hd & _).
  split_and!; [|done|by eapply same_shape_trans|by rewrite Hp, Hh0|done|].
  - unfold graph_get_node. by destruct Hsome as [? ->].
  - intros n. by rewrite Hd, Hd0.
Qed.

(** The loop runs iteration by iteration and ends after no more iterations
    than the heap has nodes; a returned heap is shorter by one node for
    each of them. *)
Lemma dijkstra_loop_run dest fuel : ∀ h g,
  (length h ≤ fuel)%nat →
  ∃ k, loop_run dest (h, g) k (dijkstra_loop fuel h g dest) ∧
    (k ≤ length h)%nat ∧
    ∀ h' g', dijkstra_loop fuel h g dest = Ret (h', g') →
      (length h' + k = length h)%nat.
Proof.
  induction fuel as [|fuel IH]; intros h g Hlen.
  { destruct h; [|simpl in Hlen; lia]. exists 0%nat. simpl.
    split; [constructor|]. split; [done|]. by intros h' g' [= <- <-]. }
  destruct (decide (h = [])) as [->|Hne].
  { exists 0%nat. simpl. split; [constructor|]. split; [done|].
    by intros h' g' [= <- <-]. }
  destruct (heap_extract_min_is_Some h g Hne) as [[[u h1] g1] Hex].
  rewrite (dijkstra_loop_unfold _ _ _ _ _ _ _ Hex).
  destruct (heap_extract_min_effect _ _ _ _ _ Hex) as (_ & Hl & _).
  case_decide as Hinf.
  { exists 1%nat. split; [by eapply run_unreached|]. split; [lia|].
    intros h' g' [= <- <-]. lia. }
  pose proof (relax_all_not_timeout u (node_get_distance g1 u)
    (node_get_edges g1 u) h1 g1) as Hnt.
  destruct (relax_all _ _ _ _ _) as [[h2 g2]| |] eqn:Hrel; cbn [obind]; [| |done].
  - pose proof Hrel as [Hp _]%relax_all_effect.
    assert (length h2 = length h1) as Hl2 by (by rewrite Hp).
    case_decide as Hud.
    + subst u. exists 1%nat. split; [by eapply run_target|]. split; [lia|].
      intros h' g' [= <- <-]. lia.
    + destruct (IH h2 g2 ltac:(lia)) as (k & Hrun & Hk & Hlen').
      exists (S k). split_and!.
      * apply (run_more dest (h, g) (h2, g2)); [|done]. by exists u, h1, g1.
      * lia.
      * intros h' g' Hret. specialize (Hlen' h' g' Hret). lia.
  - exists 1%nat. split; [by eapply run_undefined|]. split; [lia|done].
Qed.

(** C7: the search does not run forever, on any graph.  The loop goes from
    iteration to iteration as [loop_run] tells: every iteration extracts
    one node, which takes exactly one node out of the heap, and relaxes its
    edges, which takes none out and puts none in; so the loop ends after no
    more iterations than the heap has nodes, and the heap it returns is
    shorter by one node for each of them.  It returns at once when the
    extracted node is at the infinity sentinel, and the nodes left in the
    heap are then all at the sentinel.  On a graph as the loaders leave it
    the heap starts with all nodes of the graph, and on a graph without
    negative weights whose weights add up to less than the sentinel the
    search returns its heap; the one way in which a run ends without
    returning is a relaxation outside the contract of the heap. *)
Theorem search_terminates g s dest fuel :
  (size g ≤ fuel)%nat →
  dijkstra fuel g s dest ≠ Timeout ∧
  (∀ h g', (length h ≤ fuel)%nat →
     dijkstra_loop fuel h g' dest ≠ Timeout ∧
     (∃ k, loop_run dest (h, g') k (dijkstra_loop fuel h g' dest) ∧
        (k ≤ length h)%nat ∧
        ∀ h' g'', dijkstra_loop fuel h g' dest = Ret (h', g'') →
          (length h' + k = length h)%nat) ∧
     ∀ u h1 g1, heap_extract_min h g' = Some (u, h1, g1) →
       length h = S (length h1) ∧
       (node_get_distance g1 u = UINT_MAX →
          dijkstra_loop fuel h g' dest = Ret (h1, g1) ∧
          (heap_ok h g' → (∀ n, node_get_distance g' n ≤ UINT_MAX) →
           ∀ y, y ∈ h1 → node_get_distance g1 y = UINT_MAX)) ∧
       ∀ h2 g2,
         relax_all h1 g1 u (node_get_distance g1 u) (node_get_edges g1 u) =
           Ret (h2, g2) →
         length h2 = length h1) ∧
  (graph_wf g → is_Some (g !! s) →
   ∃ h1 g1 k,
     length h1 = size g ∧ (k ≤ size g)%nat ∧
     loop_run dest (h1, g1) k (dijkstra_loop fuel h1 g1 dest) ∧
     (∀ h2 g2, dijkstra_loop fuel h1 g1 dest = Ret (h2, g2) →
        (length h2 + k = size g)%nat) ∧
     dijkstra fuel g s dest =
       ('(h2, g2) ←← dijkstra_loop fuel h1 g1 dest;
        Ret {| dr_heap := Some h2; dr_graph := g2; dr_stderr := [] |})) ∧
  (graph_wf g → nonneg_weights g → total_weight g < UINT_MAX →
   is_Some (g !! s) → is_Some (g !! dest) →
   ∃ h' g', dijkstra fuel g s dest =
              Ret {| dr_heap := Some h'; dr_graph := g'; dr_stderr := [] |}).
Proof.
  intros Hfuel. split_and!.
  - by apply dijkstra_not_timeout.
  - intros h g' Hlen. split; [by apply dijkstra_loop_not_timeout|].
    split; [by apply dijkstra_loop_run|].
    intros u h1 g1 Hex.
    destruct (heap_extract_min_effect _ _ _ _ _ Hex) as (Hp & Hl & _ & Hd & _).
    split_and!; [done| |].
    + intros Hinf. split.
      * destruct fuel as [|fuel']; [lia|].
        by rewrite (dijkstra_loop_unfold _ _ _ _ _ _ _ Hex), decide_True.
      * intros Hok Hrange y Hy.
        destruct (heap_extract_min_ok _ _ _ _ _ Hok Hex) as [_ Hmin].
        assert (y ∈ h) as Hyh by (rewrite Hp; by right).
        specialize (Hmin y Hyh). specialize (Hrange y).
        rewrite Hd in Hinf. rewrite Hd. lia.
    + intros h2 g2 [Hp2 _]%relax_all_effect. by rewrite Hp2.
  - intros Hwf Hs.
    destruct (search_start g s Hwf Hs)
      as (h0 & g0 & h1 & g1 & Hnew & Hget & Hdec & _ & Hp & _).
    assert (Hl1 : length h1 = size g)
      by (by rewrite Hp, length_fmap, length_map_to_list).
    destruct (dijkstra_loop_run dest fuel h1 g1 ltac:(lia)) as (k & Hrun & Hk & Hlen).
    exists h1, g1, k. rewrite <- Hl1. split_and!; [done..|].
    unfold dijkstra. by rewrite Hnew, Hget, Hdec.
  - intros Hwf Hnn Htot Hs Hd.
    destruct (dijkstra_correct g s dest fuel Hwf Hnn Htot Hs Hd Hfuel)
      as (h' & g' & Hrun & _).
    by exists h', g'.
Qed.

Lemma search_terminates_witness :
  (size scenario_graph ≤ 3)%nat ∧ dijkstra 3 scenario_graph 1 3 ≠ Timeout.
Proof.
  assert (Hsize : (size scenario_graph ≤ 3)%nat) by (vm_compute; lia).
  split; [exact Hsize|].
  exact (proj1 (search_terminates scenario_graph 1 3 3 Hsize)).
Defined.

(** ** No path *)

Lemma app_loaded fuel env nodesFile edgesFile sourceNode destNode outputFile g d :
  loaded env nodesFile edgesFile g →
  atoi (Some destNode) = Ret d → is_Some (g !! to_uint d) →
  app fuel env nodesFile edgesFile sourceNode destNode outputFile =
    (s ←← atoi (Some sourceNode);
     r ←← dijkstra fuel g (to_uint s) (to_uint d);
     match dr_heap r with
     | None => Ret (failure (dr_stderr r))
     | Some _ =>
         if decide (node_get_distance (dr_graph r) (to_uint d) = UINT_MAX) then
           Ret (failure [errorHandle NO_PATH])
         else
           match outputFile with
           | None =>
               s ←← atoi (Some sourceNode);
               lines ←← printShortestPath fuel (dr_graph r) (to_uint s) (to_uint d);
               Ret {| exit_code := 0; run_stderr := []; run_stdout := lines;
                      run_created := None |}
           | Some name =>
               if fs_can_create env name then
                 s ←← atoi (Some sourceNode);
                 lines ←← printShortestPath fuel (dr_graph r) (to_uint s) (to_uint d);
                 Ret {| exit_code := 0; run_stderr := []; run_stdout := [];
                        run_created := Some (name, lines) |}
               else Ret (failure [errorHandle CANNOT_CREATE_NEW_FILE])
           end
     end).
Proof.
  intros (nodes & edges & g1 & Hn & He & Hln & Hle) Hd [x Hx].
  unfold app. rewrite Hn, He, Hln. cbn [obind]. rewrite Hle. cbn [obind].
  rewrite Hd. cbn [obind]. unfold graph_get_node. by rewrite Hx.
Qed.

(** C6: when no path of edges leads from the source to the destination,
    a search that returns leaves the destination at the infinity sentinel,
    and a run that ends reports that no path exists, with exit code 1 and
    without creating or writing anything.  The run does not go on forever,
    and on a graph without negative weights whose weights add up to less
    than the sentinel it does end that way. *)
Theorem no_path_reported fuel env nodesFile edgesFile sourceNode destNode
    outputFile g s d :
  loaded env nodesFile edgesFile g →
  atoi (Some sourceNode) = Ret s → atoi (Some destNode) = Ret d →
  is_Some (g !! to_uint s) → is_Some (g !! to_uint d) →
  (∀ w, ¬ path g (to_uint s) (to_uint d) w) →
  (size g ≤ fuel)%nat →
  let no_path_run :=
    {| exit_code := 1;
       run_stderr := ["No path exists between these two nodes." +:+ nl];
       run_stdout := []; run_created := None |} in
  (∀ r, dijkstra fuel g (to_uint s) (to_uint d) = Ret r →
        node_get_distance (dr_graph r) (to_uint d) = UINT_MAX) ∧
  app fuel env nodesFile edgesFile sourceNode destNode outputFile ≠ Timeout ∧
  (∀ r, app fuel env nodesFile edgesFile sourceNode destNode outputFile = Ret r →
        r = no_path_run) ∧
  (nonneg_weights g → total_weight g < UINT_MAX →
   app fuel env nodesFile edgesFile sourceNode destNode outputFile =
     Ret no_path_run).
Proof.
  intros Hload Hs Hd Hsn Hdn Hnone Hfuel no_path_run.
  pose proof (loaded_wf _ _ _ _ Hload) as Hwf.
  assert (Hinf : ∀ r, dijkstra fuel g (to_uint s) (to_uint d) = Ret r →
            is_Some (dr_heap r) ∧
            node_get_distance (dr_graph r) (to_uint d) = UINT_MAX).
  { intros r Hrun. pose proof (dijkstra_returns _ _ _ _ _ Hwf Hrun) as Hret.
    destruct (dr_heap r) as [h|].
    - split; [done|]. destruct Hret as (_ & _ & Hsh & Hinv).
      destruct (decide (node_get_distance (dr_graph r) (to_uint d) = UINT_MAX))
        as [|Hfin]; [done|].
      destruct (ri_path _ _ Hinv _ Hfin) as [w Hw]. destruct (Hnone w).
      eapply path_same_shape; [|done]. by apply same_shape_sym.
    - destruct Hret as [Hno _]. rewrite Hno in Hsn. by destruct Hsn. }
  rewrite (app_loaded fuel env _ _ _ _ _ g d Hload Hd Hdn), Hs. cbn [obind].
  pose proof (dijkstra_not_timeout g (to_uint s) (to_uint d) fuel Hfuel) as Hnt.
  split_and!.
  - intros r Hrun. by apply Hinf.
  - destruct (dijkstra _ _ _ _) as [r| |] eqn:Hrun; simpl; [|done..].
    destruct (Hinf r eq_refl) as [[h ->] Hdist]. by rewrite decide_True.
  - intros r. destruct (dijkstra _ _ _ _) as [r'| |] eqn:Hrun; simpl; [|done..].
    destruct (Hinf r' eq_refl) as [[h ->] Hdist]. rewrite decide_True by done.
    by intros [= <-].
  - intros Hnn Htot.
    destruct (dijkstra_correct g _ _ fuel Hwf Hnn Htot Hsn Hdn Hfuel)
      as (h' & g' & Hrun & _).
    rewrite Hrun. simpl. destruct (Hinf _ Hrun) as [_ Hdist]. simpl in Hdist.
    by rewrite decide_True.
Qed.

Lemma no_path_reported_witness :
  loaded scenario_env "nodes" "edges" scenario_graph ∧
  (∀ w, ¬ path scenario_graph 3 1 w) ∧
  app 3 scenario_env "nodes" "edges" "3" "1" (Some "out") =
    Ret {| exit_code := 1;
           run_stderr := ["No path exists between these two nodes." +:+ nl];
           run_stdout := []; run_created := None |}.
Proof.
  assert (Hload : loaded scenario_env "nodes" "edges" scenario_graph).
  { exists scenario_nodes, scenario_edges. eexists.
    split; [reflexivity|]. split; [reflexivity|].
    split; vm_compute; reflexivity. }
  assert (Hnone : ∀ w, ¬ path scenario_graph 3 1 w).
  { assert (Hall : ∀ v w, path scenario_graph 3 v w → v = 3).
    { induction 1 as [|v e w _ -> He]; [reflexivity|].
      vm_compute in He. inversion He. }
    intros w Hw. apply Hall in Hw. discriminate. }
  split; [exact Hload|]. split; [exact Hnone|].
  refine (proj2 (proj2 (proj2 (no_path_reported 3 scenario_env "nodes" "edges"
    "3" "1" (Some "out") scenario_graph 3 1 Hload eq_refl eq_refl _ _ Hnone _))) _ _).
  - vm_compute. eexists. reflexivity.
  - vm_compute. eexists. reflexivity.
  - vm_compute. lia.
  - apply (bool_decide_unpack _). vm_compute. exact I.
  - vm_compute. reflexivity.
Defined.

(** ** Numbers read with [atoi] *)

Lemma atoi_value_no_digit s : no_leading_digit s → atoi_value s = 0.
Proof.
  unfold no_leading_digit, atoi_value.
  destruct (skip_spaces s) as [|c s']; [done|].
  destruct (decide (c = "-"%char)) as [->|Hm].
  { rewrite decide_True by (by left). destruct s' as [|c' s'']; [done|].
    simpl. by intros ->. }
  destruct (decide (c = "+"%char)) as [->|Hp].
  { rewrite decide_True by (by right). destruct s' as [|c' s'']; [done|].
    simpl. by intros ->. }
  rewrite decide_False by (by intros [?|?]). simpl. by intros ->.
Qed.

Lemma atoi_no_digit s : no_leading_digit s → atoi (Some s) = Ret 0.
Proof. intros Hs. unfold atoi. by rewrite (atoi_value_no_digit s Hs). Qed.

(** C8, as stated, fails: the field [12abc] is no numeral, and the node
    loader files the line under id 12, not under id 0; the weight [7up] of
    an edge line is read as 7. *)
Lemma malformed_field_not_zero :
  is_numeral "12abc" = false ∧ is_numeral "7up" = false ∧
  (∃ g, loadNodes graph_new (fopen_read ("12abc,x" +:+ nl)) = Ret (Some g) ∧
        g !! 12 = Some (new_node 12) ∧ g !! 0 = None) ∧
  (∃ g, loadEdges graph_new (fopen_read ("1,2,x,7up" +:+ nl)) = Ret (Some g) ∧
        node_get_edges g 1 = [{| destination := 2; mindelay := 7 |}]).
Proof.
  split_and!; [done|done|..].
  - eexists. split; [vm_compute; reflexivity|]. split; vm_compute; reflexivity.
  - eexists. split; [vm_compute; reflexivity|]. vm_compute; reflexivity.
Qed.

(** C8, amended: a field with no number at its head (after white space and
    an optional sign it does not go on with a digit) is read as zero, and the
    loader goes on with the next line: the node loader files the line under
    id 0, and the edge loader inserts the edge with zero for each such
    field. *)
Theorem malformed_field_is_zero fuel g f buffer f' :
  f_eof f = false → fgets 200 f = (buffer, f') → f_eof f' = false →
  (∀ s, no_leading_digit s → atoi (Some s) = Ret 0) ∧
  (∀ token save,
     strtok (cstr buffer) = (Some token, save) → no_leading_digit token →
     loadNodes_loop (S fuel) g f =
       match graph_insert_node g 0 with
       | Some g' => loadNodes_loop fuel g' f'
       | None => Ret None
       end) ∧
  (∀ t1 s1 t2 s2 t3 s3 t4 s4 v1 v2 v4,
     strtok (cstr buffer) = (t1, s1) → strtok s1 = (t2, s2) →
     strtok s2 = (t3, s3) → strtok s3 = (t4, s4) →
     atoi t1 = Ret v1 → atoi t2 = Ret v2 → atoi t4 = Ret v4 →
     loadEdges_loop (S fuel) g f =
       match graph_insert_edge g (to_uint v1) (to_uint v2) v4 with
       | Some g' => loadEdges_loop fuel g' f'
       | None => Ret None
       end ∧
     (∀ t, t1 = Some t → no_leading_digit t → v1 = 0) ∧
     (∀ t, t2 = Some t → no_leading_digit t → v2 = 0) ∧
     (∀ t, t4 = Some t → no_leading_digit t → v4 = 0)).
Proof.
  intros Hf Hget Hf'. split_and!.
  - apply atoi_no_digit.
  - intros token save Htok Hno. cbn [loadNodes_loop].
    rewrite Hf, Hget, Hf', Htok, (atoi_no_digit token Hno). done.
  - intros t1 s1 t2 s2 t3 s3 t4 s4 v1 v2 v4 H1 H2 H3 H4 Hv1 Hv2 Hv4.
    split_and!.
    + cbn [loadEdges_loop]. rewrite Hf, Hget, Hf', H1, Hv1. cbn [obind].
      rewrite H2, Hv2. cbn [obind]. rewrite H3, H4, Hv4. done.
    + intros t -> Hno. rewrite (atoi_no_digit t Hno) in Hv1. by injection Hv1.
    + intros t -> Hno. rewrite (atoi_no_digit t Hno) in Hv2. by injection Hv2.
    + intros t -> Hno. rewrite (atoi_no_digit t Hno) in Hv4. by injection Hv4.
Qed.

Lemma malformed_field_is_zero_witness :
  let f := fopen_read ("abc,x" +:+ nl +:+ "5" +:+ nl) in
  fgets 200 f = ("abc,x" +:+ nl, fopen_read ("5" +:+ nl)) ∧
  strtok (cstr ("abc,x" +:+ nl)) = (Some "abc", "x" +:+ nl) ∧
  no_leading_digit "abc" ∧
  loadNodes_loop 3 graph_new f =
    match graph_insert_node graph_new 0 with
    | Some g' => loadNodes_loop 2 g' (fopen_read ("5" +:+ nl))
    | None => Ret None
    end.
Proof.
  intros f.
  assert (Hget : fgets 200 f = ("abc,x" +:+ nl, fopen_read ("5" +:+ nl)))
    by (vm_compute; reflexivity).
  assert (Htok : strtok (cstr ("abc,x" +:+ nl)) = (Some "abc", "x" +:+ nl))
    by (vm_compute; reflexivity).
  assert (Hno : no_leading_digit "abc") by (vm_compute; reflexivity).
  split; [exact Hget|]. split; [exact Htok|]. split; [exact Hno|].
  exact (proj1 (proj2 (malformed_field_is_zero 2 graph_new f _ _ eq_refl Hget
    eq_refl)) "abc" ("x" +:+ nl) Htok Hno).
Defined.

(** ** Command-line ids *)

(** The driver reads its id arguments through [atoi] only. *)
Lemma app_atoi fuel env nodesFile edgesFile s s' d d' outputFile :
  atoi (Some s) = atoi (Some s') → atoi (Some d) = atoi (Some d') →
  app fuel env nodesFile edgesFile s d outputFile =
  app fuel env nodesFile edgesFile s' d' outputFile.
Proof. intros Hs Hd. unfold app. by rewrite Hs, Hd. Qed.

(** C10, as stated, fails: the source argument [1x] is no numeral, and the
    run goes as for the source id 1, not 0: it prints the path from 1 to 3,
    where the source id 0 is reported as invalid. *)
Lemma non_numeric_argument_not_zero :
  is_numeral "1x" = false ∧
  app 3 scenario_env "nodes" "edges" "1x" "3" None =
    Ret {| exit_code := 0; run_stderr := []; run_stdout := scenario_output;
           run_created := None |} ∧
  app 3 scenario_env "nodes" "edges" "0" "3" None =
    Ret {| exit_code := 1; run_stderr := ["Invalid source node id." +:+ nl];
           run_stdout := []; run_created := None |}.
Proof. split_and!; [done|by vm_compute..]. Qed.

(** C10, amended: the source and destination arguments are read with
    [atoi]; an argument with no number at its head (after white space and
    an optional sign it does not go on with a digit) makes the run go
    exactly as the argument [0] does.  Such a run reports an invalid
    destination or source id only when the loaded graph has no node 0. *)
Theorem non_numeric_argument_is_zero fuel env nodesFile edgesFile sourceNode
    destNode outputFile :
  (no_leading_digit sourceNode →
   app fuel env nodesFile edgesFile sourceNode destNode outputFile =
   app fuel env nodesFile edgesFile "0" destNode outputFile) ∧
  (no_leading_digit destNode →
   app fuel env nodesFile edgesFile sourceNode destNode outputFile =
   app fuel env nodesFile edgesFile sourceNode "0" outputFile) ∧
  (∀ g r, loaded env nodesFile edgesFile g →
     app fuel env nodesFile edgesFile sourceNode destNode outputFile = Ret r →
     (no_leading_digit destNode →
      run_stderr r = [errorHandle INVALID_DEST_NODE_ID] → g !! 0 = None) ∧
     (no_leading_digit sourceNode →
      run_stderr r = [errorHandle INVALID_SOURCE_NODE_ID] → g !! 0 = None)).
Proof.
  split_and!.
  - intros Hs. apply app_atoi; [|done]. by rewrite (atoi_no_digit _ Hs).
  - intros Hd. apply app_atoi; [done|]. by rewrite (atoi_no_digit _ Hd).
  - intros g r Hload Hrun.
    pose proof (loaded_wf _ _ _ _ Hload) as Hwf.
    destruct Hload as (nodes & edges & g1 & Hn & He & Hln & Hle).
    unfold app in Hrun. rewrite Hn, He, Hln in Hrun. cbn [obind] in Hrun.
    rewrite Hle in Hrun. cbn [obind] in Hrun.
    destruct (atoi (Some destNode)) as [d| |] eqn:Hd; [|done..].
    cbn [obind] in Hrun. unfold graph_get_node in Hrun.
    destruct (g !! to_uint d) as [x|] eqn:Hx.
    + destruct (atoi (Some sourceNode)) as [s| |] eqn:Hs; [|done..].
      cbn [obind] in Hrun.
      destruct (dijkstra fuel g (to_uint s) (to_uint d)) as [dr| |] eqn:Hdij;
        [|done..].
      cbn [obind] in Hrun.
      pose proof (dijkstra_returns _ _ _ _ _ Hwf Hdij) as Hret.
      destruct (dr_heap dr) as [h|].
      * destruct Hret as (_ & Herr & _).
        assert (Hno : run_stderr r ≠ [errorHandle INVALID_DEST_NODE_ID] ∧
                      run_stderr r ≠ [errorHandle INVALID_SOURCE_NODE_ID]).
        { case_decide; [by injection Hrun as <-|].
          destruct outputFile as [name|].
          - destruct (fs_can_create env name); [|by injection Hrun as <-].
            destruct (printShortestPath _ _ _ _); [|done..].
            by injection Hrun as <-.
          - destruct (printShortestPath _ _ _ _); [|done..].
            by injection Hrun as <-. }
        destruct Hno. done.
      * destruct Hret as [Hnone Herr]. injection Hrun as <-. simpl.
        rewrite Herr. split; [done|]. intros Hno _.
        rewrite (atoi_no_digit _ Hno) in Hs. injection Hs as <-. done.
    + injection Hrun as <-. simpl. split; [|done]. intros Hno _.
      rewrite (atoi_no_digit _ Hno) in Hd. injection Hd as <-. done.
Qed.

(** * Further properties

    What the code shows besides: the path a run prints, the ways a run can
    end, the search on any weights, the files the loaders read, and the
    files and the memory a run holds. *)

(** ** The printed path *)

Lemma route_same_shape g g' n s steps :
  same_shape g g' → route g n s steps → route g' n s steps.
Proof.
  intros (He & _). induction 1; constructor; [by rewrite He|done].
Qed.

Lemma route_path g n s steps :
  route g n s steps → path g s n (route_weight steps).
Proof.
  induction 1 as [n|n p c s rest He _ IH]; [constructor|].
  unfold route_weight in *. simpl. rewrite Z.add_comm.
  by apply (path_step g s p {| destination := n; mindelay := c |}).
Qed.

Lemma tree_inv_extract s M done h g u h1 g1 :
  tree_inv s done g → search_inv s (done_edges done g) M done h g →
  heap_extract_min h g = Some (u, h1, g1) →
  tree_inv s (u :: done) g1.
Proof.
  intros [Hsrc Hlink] Hinv Hex.
  destruct (heap_extract_min_effect _ _ _ _ _ Hex) as (Hp & _ & Hsh & Hd & Hpr).
  destruct Hsh as (He & _). split; [by rewrite Hpr|].
  intros n. rewrite Hd. intros Hfin Hns.
  destruct (Hlink n Hfin Hns) as (p & e & Hprev & Hin & Hdst & Hdist & Hpd & Hord).
  exists p, e. rewrite Hpr, He, !Hd. split_and!; [done..|by right|].
  intros [|x l1] l2 Heq; simpl in Heq; injection Heq as -> ->; [done|].
  by apply (Hord l1).
Qed.

Lemma tree_inv_relax s done h g u pre e post h' g' :
  search_inv s (some_edges done g u pre) (node_get_distance g u) (u :: done) h g →
  node_get_edges g u = pre ++ e :: post →
  tree_inv s (u :: done) g →
  relax h g u (node_get_distance g u) e = Ret (h', g') →
  tree_inv s (u :: done) g'.
Proof.
  intros Hinv Hes [Hsrc Hlink] Hrel. set (d := node_get_distance g u) in *.
  destruct (relax_effect _ _ _ _ _ _ _ Hrel) as (_ & Hsh & Hyes & Hno).
  destruct (decide (to_uint (d + mindelay e) < node_get_distance g (destination e)))
    as [Hlt|Hge]; [|destruct (Hno Hge) as [-> ->]; by split].
  destruct (Hyes Hlt) as (Hin & Hd & Hp). clear Hyes Hno.
  pose proof (inv_edges _ _ _ _ _ _ Hinv) as Hedges.
  assert (He : e ∈ node_get_edges g u).
  { rewrite Hes. apply elem_of_app. right. by left. }
  destruct (Hedges u e He) as [_ Hw].
  pose proof (edge_le_node_weight g u e Hedges He) as Hle.
  pose proof (inv_bound_done _ _ _ _ _ _ Hinv u ltac:(by left)) as Hbd.
  pose proof (inv_done_weight _ _ _ _ _ _ Hinv) as Hdw.
  pose proof (inv_range _ _ _ _ _ _ Hinv u) as Hru. fold d in Hbd, Hru.
  assert (Halt : to_uint (d + mindelay e) = d + mindelay e).
  { apply to_uint_small. unfold UINT_MAX in *. lia. }
  rewrite Halt in *.
  assert (Hnd : ∀ n, n ∈ u :: done → destination e ≠ n).
  { intros n Hn <-. pose proof (inv_nodup _ _ _ _ _ _ Hinv) as Hnd.
    apply NoDup_app in Hnd as (_ & Hnd & _). by apply (Hnd (destination e)). }
  destruct Hsh as (Hed & _).
  split.
  - rewrite Hp, decide_False; [done|]. intros Hs.
    rewrite Hs, (inv_source _ _ _ _ _ _ Hinv) in Hlt. lia.
  - intros n. rewrite (Hd n), (Hp n). case_decide as Hn.
    + intros _ _. exists u, e. rewrite Hed, Hd, decide_False by (apply Hnd; by left).
      split_and!; [done..|by left|].
      intros l1 l2 Heq. destruct (Hnd n); [|done].
      rewrite Heq. apply elem_of_app. right. by left.
    + intros Hfin Hns.
      destruct (Hlink n Hfin Hns) as (p & e' & Hprev & Hin' & Hdst & Hdist & Hpd & Hord).
      exists p, e'. rewrite Hed, Hd, decide_False by (by apply Hnd). done.
Qed.

Lemma tree_inv_relax_all s done u post : ∀ pre h g h' g',
  search_inv s (some_edges done g u pre) (node_get_distance g u) (u :: done) h g →
  node_get_edges g u = pre ++ post →
  tree_inv s (u :: done) g →
  relax_all h g u (node_get_distance g u) post = Ret (h', g') →
  tree_inv s (u :: done) g'.
Proof.
  induction post as [|e post IH]; intros pre h g h' g' Hinv Hes Htree; simpl.
  { by intros [= <- <-]. }
  destruct (search_inv_relax _ _ _ _ _ _ _ _ Hinv Hes)
    as (h1 & g1 & Hrel & Hsh & Hdu & Hinv1).
  rewrite Hrel. simpl. rewrite <- Hdu. apply (IH (pre ++ [e])); [done| |].
  - destruct Hsh as (-> & _). by rewrite Hes, <- app_assoc.
  - exact (tree_inv_relax _ _ _ _ _ _ _ _ _ _ Hinv Hes Htree Hrel).
Qed.

(** The predecessor links of an extracted node lead back to the source
    along edges of the graph, and the lines of the walk are the lines of
    those edges. *)
Lemma tree_chain s done g :
  tree_inv s done g →
  (∀ n, node_get_id g n = n) →
  (∀ n, 0 ≤ node_get_distance g n ≤ UINT_MAX) →
  (∀ n, n ∈ done → node_get_distance g n ≠ UINT_MAX) →
  (∀ n e, e ∈ node_get_edges g n → 0 ≤ mindelay e) →
  node_get_distance g s = 0 →
  ∀ k l2 l1 n, length l2 = k → done = l1 ++ n :: l2 →
    ∃ l steps, prev_chain g n l ∧ (length l ≤ length l2)%nat ∧
      route g n s steps ∧ chain_lines g n l = step_line <$> steps ∧
      route_weight steps = node_get_distance g n.
Proof.
  intros [Hsrc Hlink] Hid Hrange Hfin Hnn Hs0 k.
  induction (lt_wf k) as [k _ IH]. intros l2 l1 n Hk Hdone.
  destruct (decide (n = s)) as [->|Hns].
  { exists [], []. split_and!; [by constructor|simpl; lia|constructor|done|].
    by rewrite Hs0. }
  assert (Hn : n ∈ done) by (rewrite Hdone; apply elem_of_app; right; by left).
  destruct (Hlink n (Hfin n Hn) Hns)
    as (p & e & Hprev & Hin & Hdst & Hdist & Hpd & Hord).
  destruct (list_elem_of_split _ _ (Hord l1 l2 Hdone)) as (a & b & Hl2).
  destruct (IH (length b)) with (l2 := b) (l1 := l1 ++ n :: a) (n := p)
    as (l & steps & Hc & Hlen & Hroute & Hlines & Hweight); [|done|..].
  { rewrite <- Hk, Hl2, length_app. simpl. lia. }
  { by rewrite Hdone, Hl2, <- app_assoc. }
  pose proof (Hnn p e Hin) as Hw. pose proof (Hrange n) as Hrn.
  pose proof (Hrange p) as Hrp.
  exists (p :: l), ((p, n, mindelay e) :: steps). split_and!.
  - by constructor.
  - rewrite Hl2, length_app. simpl. lia.
  - constructor; [|done]. destruct e as [de we]. simpl in *. by subst.
  - simpl. rewrite Hlines, !Hid. unfold step_line at 2. simpl. do 2 f_equal.
    rewrite Hdist. replace (node_get_distance g p + mindelay e -
      node_get_distance g p) with (mindelay e) by lia.
    apply to_uint_small. unfold UINT_MAX in *. lia.
  - unfold route_weight in *. rewrite fmap_cons. simpl sumZ. simpl snd. lia.
Qed.

(** The loop keeps the predecessor tree next to the invariant of the
    search, up to the extraction of the target. *)
Lemma dijkstra_loop_tree s dest fuel : ∀ h g M done,
  search_inv s (done_edges done g) M done h g → tree_inv s done g →
  dest ∈ h → (length h ≤ fuel)%nat →
  ∃ h' g', dijkstra_loop fuel h g dest = Ret (h', g') ∧ same_shape g g' ∧
    ((node_get_distance g' dest = UINT_MAX ∧
      ∀ n, is_Some (g' !! n) → result_ok s n g') ∨
     ∃ done', search_inv s (done_edges done' g')
         (node_get_distance g' dest) done' h' g' ∧
       tree_inv s done' g' ∧ dest ∈ done').
Proof.
  induction fuel as [|fuel IH]; intros h g M done Hinv Htree Hdest Hfuel.
  { destruct h; [by apply elem_of_nil in Hdest|simpl in Hfuel; lia]. }
  simpl. destruct h as [|x t] eqn:Hh; [by apply elem_of_nil in Hdest|].
  rewrite <- Hh in *. assert (h ≠ []) as Hne by (by subst).
  replace (heap_is_empty h) with false by (by subst).
  destruct (heap_extract_min_is_Some h g Hne) as [[[u h1] g1] Hex].
  rewrite Hex.
  destruct (heap_extract_min_effect _ _ _ _ _ Hex) as (Hp & Hlen & Hsh & Hd & _).
  destruct (heap_extract_min_ok _ _ _ _ _ (inv_heap _ _ _ _ _ _ Hinv) Hex)
    as [_ Hmin].
  case_decide as Hinf.
  - exists h1, g1. split_and!; [done..|]. left.
    assert (Hall : ∀ y, y ∈ h → node_get_distance g y = UINT_MAX).
    { intros y Hy. pose proof (Hmin y Hy). rewrite Hd in Hinf.
      pose proof (inv_range _ _ _ _ _ _ Hinv y). lia. }
    split; [by rewrite Hd, Hall|]. intros n Hn.
    apply (result_ok_same_shape s n g g1 Hsh Hd).
    destruct Hsh as (_ & _ & Hdom). apply Hdom, (inv_dom _ _ _ _ _ _ Hinv) in Hn.
    apply elem_of_app in Hn as [Hn|Hn].
    + by eapply search_inv_result.
    + by eapply search_inv_unreached.
  - destruct (search_iteration _ _ _ _ _ _ _ _ Hinv Hex Hinf)
      as (h2 & g2 & Hloop & Hp2 & Hsh2 & Hdu & Hinv2).
    rewrite Hloop. simpl.
    assert (Htree2 : tree_inv s (u :: done) g2).
    { apply (tree_inv_relax_all s done u (node_get_edges g1 u) [] h1 g1 h2 g2);
        [by eapply search_inv_extract|done|by eapply tree_inv_extract|].
      by rewrite <- (relax_from_relax_all u _ (node_get_edges g1 u) [] h1 g1 eq_refl). }
    case_decide as Hud.
    + exists h2, g2. split_and!; [done..|]. right.
      exists (u :: done). subst u. split_and!; [done..|by left].
    + destruct (IH h2 g2 (node_get_distance g2 u) (u :: done))
        as (h' & g' & Hrec & Hsh' & Hres); [done..| | |].
      * rewrite Hp2. rewrite Hp in Hdest.
        by apply elem_of_cons in Hdest as [?|?].
      * rewrite Hp2. lia.
      * exists h', g'. split_and!; [done|by eapply same_shape_trans|done].
Qed.

Lemma tree_inv_init s h g :
  search_inv s (done_edges [] g) 0 [] h g →
  node_get_previous g s = None →
  (∀ n, n ≠ s → node_get_distance g n = UINT_MAX) →
  tree_inv s [] g.
Proof.
  intros Hinv Hp Hd. split; [done|]. intros n Hn Hns. destruct Hn. by apply Hd.
Qed.

Lemma heap_new_from_graph_effect g h0 g0 :
  heap_new_from_graph g = Some (h0, g0) →
  h0 = (map_to_list g).*1 ∧ erase g0 = erase g.
Proof.
  unfold heap_new_from_graph, heap_build. intros [= <- <-].
  split; [done|]. apply record_indices_erase.
Qed.

(** X1: on a loaded graph without negative weights whose weights add up to
    less than the infinity sentinel, with both ids present and the
    destination reachable from the source, the run succeeds and prints,
    between the opening and the closing line, the edges of a path of the
    graph from the source to the destination, last edge first, each with
    its own weight as label; no path between the two nodes weighs less. *)
Theorem shortest_path_printed fuel env nodesFile edgesFile sourceNode destNode g s d :
  loaded env nodesFile edgesFile g →
  nonneg_weights g → total_weight g < UINT_MAX →
  atoi (Some sourceNode) = Ret s → atoi (Some destNode) = Ret d →
  is_Some (g !! to_uint s) → is_Some (g !! to_uint d) →
  (∃ w, path g (to_uint s) (to_uint d) w) →
  (size g ≤ fuel)%nat →
  ∃ steps,
    app fuel env nodesFile edgesFile sourceNode destNode None =
      Ret {| exit_code := 0; run_stderr := [];
             run_stdout :=
               ("digraph {" +:+ nl) :: (step_line <$> steps) ++ ["}" +:+ nl];
             run_created := None |} ∧
    route g (to_uint d) (to_uint s) steps ∧
    path g (to_uint s) (to_uint d) (route_weight steps) ∧
    ∀ w, path g (to_uint s) (to_uint d) w → route_weight steps ≤ w.
Proof.
  intros Hl Hnn Htot Hs Hd Hsg Hdg [w0 Hw0] Hfuel.
  pose proof (loaded_wf _ _ _ _ Hl) as Hwf.
  set (sn := to_uint s) in *. set (dn := to_uint d) in *.
  destruct (search_inv_init g sn Hwf Hnn Htot Hsg)
    as (h0 & g0 & h1 & g1 & Hnew & Hget & Hdec & Hsh & Hp & Hinv).
  destruct (heap_new_from_graph_effect _ _ _ Hnew) as [_ He0].
  destruct (heap_decrease_distance_effect _ _ _ _ _ _ _ Hdec)
    as (_ & _ & _ & _ & _ & _ & Hd1 & Hp1).
  assert (Htree : tree_inv sn [] g1).
  { apply (tree_inv_init sn h1); [done|by rewrite Hp1, decide_True|].
    intros n Hn. rewrite Hd1, decide_False by done.
    rewrite (erase_eq_distance _ _ He0). by apply graph_wf_distance. }
  destruct (dijkstra_loop_tree sn dn fuel h1 g1 0 [] Hinv Htree)
    as (h' & g' & Hloop & Hsh' & Hres).
  { rewrite Hp. by apply map_keys_elem. }
  { rewrite Hp, length_fmap, length_map_to_list. done. }
  assert (Hshape : same_shape g g') by (by eapply same_shape_trans).
  destruct Hres as [[Hinf Hno]|(done' & Hinv' & Htree' & Hdone)].
  { destruct (Hno dn) as [_ Hnone].
    - destruct Hshape as (_ & _ & ->). done.
    - destruct (Hnone Hinf w0). by apply (path_same_shape g). }
  pose proof (search_inv_result _ _ _ _ _ _ Hinv' Hdone) as [Hfin _].
  pose proof (inv_done_finite _ _ _ _ _ _ _ Hinv' Hdone) as Hdfin.
  destruct (Hfin ltac:(lia)) as [_ Hmin].
  destruct (list_elem_of_split _ _ Hdone) as (l1 & l2 & Hsplit).
  assert (Hid : ∀ n, node_get_id g' n = n).
  { intros n. destruct Hshape as (_ & -> & _). by apply graph_wf_id. }
  destruct (tree_chain sn done' g' Htree' Hid (inv_range _ _ _ _ _ _ Hinv'))
    with (k := length l2) (l2 := l2) (l1 := l1) (n := dn)
    as (l & steps & Hc & Hlen & Hroute & Hlines & Hweight); [| | |done|done|].
  { intros n Hn. pose proof (inv_done_finite _ _ _ _ _ _ _ Hinv' Hn). lia. }
  { intros n e He. by destruct (inv_edges _ _ _ _ _ _ Hinv' n e He). }
  { apply Hinv'. }
  exists steps. split_and!.
  - rewrite (app_loaded _ _ _ _ _ _ _ g d Hl Hd Hdg), Hs. cbn [obind].
    fold sn dn. unfold dijkstra. rewrite Hnew, Hget, Hdec. cbn [obind].
    rewrite Hloop. cbn [obind dr_heap dr_graph].
    rewrite decide_False by lia. unfold printShortestPath. rewrite Hid.
    assert (Hbody : (if decide (sn ≠ dn)
        then print_walk fuel g' dn (node_get_previous g' dn) else Ret [])
        = Ret (step_line <$> steps)).
    { case_decide as Hne.
      - rewrite (print_walk_chain g' l dn fuel Hc), Hlines; [done|].
        assert (length done' ≤ size g)%nat; [|rewrite Hsplit, length_app in *; simpl in *; lia].
        pose proof (inv_nodup _ _ _ _ _ _ Hinv') as Hnd.
        apply NoDup_app in Hnd as (Hnd & _ & _).
        rewrite <- (length_map_to_list g), <- (length_fmap fst).
        apply submseteq_length, NoDup_submseteq; [done|].
        intros n Hn. apply map_keys_elem. destruct Hshape as (_ & _ & <-).
        apply (inv_dom _ _ _ _ _ _ Hinv'), elem_of_app. by left.
      - rewrite <- Hne in Hc.
        destruct Htree' as [Hsrc _]. inversion Hc as [|? ? ? Hpp]; subst.
        + simpl in Hlines. by rewrite <- Hlines.
        + congruence. }
    rewrite Hbody. done.
  - by apply (route_same_shape g'); [apply same_shape_sym|].
  - apply (path_same_shape g'); [by apply same_shape_sym|]. by apply route_path.
  - intros w Hw. rewrite Hweight. apply Hmin. by apply (path_same_shape g).
Qed.

Lemma scenario_loaded : loaded scenario_env "nodes" "edges" scenario_graph.
Proof.
  exists scenario_nodes, scenario_edges. eexists.
  split; [reflexivity|]. split; [reflexivity|]. split; vm_compute; reflexivity.
Defined.

Lemma shortest_path_printed_witness :
  path scenario_graph 1 3 10 ∧
  ∃ steps,
    app 3 scenario_env "nodes" "edges" "1" "3" None =
      Ret {| exit_code := 0; run_stderr := [];
             run_stdout :=
               ("digraph {" +:+ nl) :: (step_line <$> steps) ++ ["}" +:+ nl];
             run_created := None |} ∧
    route scenario_graph 3 1 steps ∧
    path scenario_graph 1 3 (route_weight steps) ∧
    ∀ w, path scenario_graph 1 3 w → route_weight steps ≤ w.
Proof.
  assert (Hpath : path scenario_graph 1 3 10).
  { apply (path_step scenario_graph 1 1 {| destination := 3; mindelay := 10 |} 0).
    - constructor.
    - vm_compute. do 1 right. left. }
  split; [exact Hpath|].
  refine (shortest_path_printed 3 scenario_env "nodes" "edges" "1" "3"
    scenario_graph 1 3 scenario_loaded _ _ eq_refl eq_refl _ _
    (ex_intro _ 10 Hpath) _).
  - apply (bool_decide_unpack _). vm_compute. exact I.
  - vm_compute. reflexivity.
  - vm_compute. eexists. reflexivity.
  - vm_compute. eexists. reflexivity.
  - vm_compute. lia.
Defined.

(** X2: the search settles every node that is closer than the target.  On
    a well-formed graph without negative weights whose weights add up to
    less than the infinity sentinel, when the search returns, every node
    whose distance is below that of the target has its final value: the
    weight of a lightest path from the source.  When the target is left at
    the sentinel, this holds of every node of the graph, the unreachable
    ones being those at the sentinel. *)
Theorem closer_nodes_settled g s dest fuel :
  graph_wf g → nonneg_weights g → total_weight g < UINT_MAX →
  is_Some (g !! s) → is_Some (g !! dest) → (size g ≤ fuel)%nat →
  ∃ h' g',
    dijkstra fuel g s dest =
      Ret {| dr_heap := Some h'; dr_graph := g'; dr_stderr := [] |} ∧
    same_shape g g' ∧
    ∀ n, is_Some (g !! n) →
      node_get_distance g' n < node_get_distance g' dest ∨
        node_get_distance g' dest = UINT_MAX →
      result_ok s n g'.
Proof.
  intros Hwf Hnn Htot Hs Hdest Hfuel.
  destruct (search_inv_init g s Hwf Hnn Htot Hs)
    as (h0 & g0 & h1 & g1 & Hnew & Hget & Hdec & Hsh & Hp & Hinv).
  destruct (heap_new_from_graph_effect _ _ _ Hnew) as [_ He0].
  destruct (heap_decrease_distance_effect _ _ _ _ _ _ _ Hdec)
    as (_ & _ & _ & _ & _ & _ & Hd1 & Hp1).
  assert (Htree : tree_inv s [] g1).
  { apply (tree_inv_init s h1); [done|by rewrite Hp1, decide_True|].
    intros n Hn. rewrite Hd1, decide_False by done.
    rewrite (erase_eq_distance _ _ He0). by apply graph_wf_distance. }
  destruct (dijkstra_loop_tree s dest fuel h1 g1 0 [] Hinv Htree)
    as (h' & g' & Hloop & Hsh' & Hres).
  { rewrite Hp. by apply map_keys_elem. }
  { rewrite Hp, length_fmap, length_map_to_list. done. }
  assert (Hshape : same_shape g g') by (by eapply same_shape_trans).
  exists h', g'. split_and!; [|done|].
  { unfold dijkstra. rewrite Hnew, Hget, Hdec. cbn [obind]. by rewrite Hloop. }
  intros n Hn Hclose.
  assert (Hn' : is_Some (g' !! n)) by (by destruct Hshape as (_ & _ & ->)).
  destruct Hres as [[Hinf Hall]|(done' & Hinv' & _ & Hdone)]; [by apply Hall|].
  pose proof (inv_done_finite _ _ _ _ _ _ _ Hinv' Hdone) as Hfin.
  destruct Hclose as [Hlt|Heq]; [|lia].
  apply (inv_dom _ _ _ _ _ _ Hinv'), elem_of_app in Hn' as [Hin|Hin].
  - by eapply search_inv_result.
  - pose proof (inv_heap_ge _ _ _ _ _ _ Hinv' n Hin). lia.
Qed.

Lemma closer_nodes_settled_witness :
  ∃ h' g',
    dijkstra 3 scenario_graph 1 3 =
      Ret {| dr_heap := Some h'; dr_graph := g'; dr_stderr := [] |} ∧
    same_shape scenario_graph g' ∧
    ∀ n, is_Some (scenario_graph !! n) →
      node_get_distance g' n < node_get_distance g' 3 ∨
        node_get_distance g' 3 = UINT_MAX →
      result_ok 1 n g'.
Proof.
  refine (closer_nodes_settled scenario_graph 1 3 3 _ _ _ _ _ _).
  - apply (bool_decide_unpack _). vm_compute. exact I.
  - apply (bool_decide_unpack _). vm_compute. exact I.
  - vm_compute. reflexivity.
  - vm_compute. eexists. reflexivity.
  - vm_compute. eexists. reflexivity.
  - vm_compute. lia.
Defined.

(** ** The runs of the driver *)

Lemma errorHandle_inj e e' : errorHandle e = errorHandle e' → e = e'.
Proof. destruct e, e'; first [done|by intros [=]]. Qed.

Lemma failure_inj e e' :
  failure [errorHandle e] = failure [errorHandle e'] → e = e'.
Proof.
  intros H. apply errorHandle_inj.
  change (errorHandle e) with (default ""%string (head (run_stderr (failure [errorHandle e])))).
  by rewrite H.
Qed.

Lemma heap_new_from_graph_lookup g h0 g0 n :
  heap_new_from_graph g = Some (h0, g0) → is_Some (g0 !! n) ↔ is_Some (g !! n).
Proof. intros [_ He]%heap_new_from_graph_effect. by apply erase_eq_is_Some. Qed.

Lemma dijkstra_heap_stderr g s dest fuel r :
  dijkstra fuel g s dest = Ret r →
  (g !! s = None ∧ dr_heap r = None ∧
     dr_stderr r = [errorHandle INVALID_SOURCE_NODE_ID]) ∨
  (is_Some (g !! s) ∧ is_Some (dr_heap r) ∧ dr_stderr r = []).
Proof.
  unfold dijkstra. destruct (heap_new_from_graph g) as [[h0 g0]|] eqn:Hnew; [|done].
  pose proof (heap_new_from_graph_lookup g h0 g0 s Hnew) as Hdom.
  unfold graph_get_node. destruct (g0 !! s) as [x|] eqn:Hx.
  - destruct (heap_decrease_distance _ _ _ _ _) as [[h1 g1]| |]; cbn [obind]; [|done..].
    destruct (dijkstra_loop _ _ _ _) as [[h2 g2]| |]; cbn [obind]; [|done..].
    intros [= <-]. right. simpl. split_and!; [by apply Hdom|done..].
  - intros [= <-]. left. simpl. split_and!; [|done..].
    apply eq_None_not_Some. rewrite <- Hdom. by intros [? ?].
Qed.

Lemma printShortestPath_lines fuel g source_id dest lines :
  printShortestPath fuel g source_id dest = Ret lines →
  ∃ body, lines = ("digraph {" +:+ nl) :: body ++ ["}" +:+ nl].
Proof.
  unfold printShortestPath.
  destruct (if decide _ then _ else _) as [body| |]; cbn [obind]; [|done..].
  intros [= <-]. by exists body.
Qed.

(** Every run that ends has either reported one error, for its cause, or
    written a graph description. *)
Lemma app_returns fuel env nodesFile edgesFile sourceNode destNode outputFile r :
  app fuel env nodesFile edgesFile sourceNode destNode outputFile = Ret r →
  (∃ e, r = failure [errorHandle e] ∧
     reported_for fuel env nodesFile edgesFile sourceNode destNode outputFile e) ∨
  written outputFile r.
Proof.
  unfold app.
  destruct (fs_read env nodesFile) as [nodes|] eqn:Hn.
  2:{ intros [= <-]. left. by exists INVALID_NODE_FILE. }
  destruct (fs_read env edgesFile) as [edges|] eqn:He.
  2:{ intros [= <-]. left. exists INVALID_EDGES_FILE. split; [done|].
      simpl. by rewrite Hn. }
  destruct (loadNodes _ _) as [[g1|]| |] eqn:Hln; cbn [obind]; [| |done..].
  2:{ intros [= <-]. left. by exists NO_MEMORY. }
  destruct (loadEdges _ _) as [[g|]| |] eqn:Hle; cbn [obind]; [| |done..].
  2:{ intros [= <-]. left. by exists NO_MEMORY. }
  assert (Hl : loaded env nodesFile edgesFile g) by (by exists nodes, edges, g1).
  destruct (atoi (Some destNode)) as [d| |] eqn:Hd; cbn [obind]; [|done..].
  unfold graph_get_node. destruct (g !! to_uint d) as [x|] eqn:Hx.
  2:{ intros [= <-]. left. exists INVALID_DEST_NODE_ID. split; [done|].
      by exists g, d. }
  destruct (atoi (Some sourceNode)) as [s| |] eqn:Hs; cbn [obind]; [|done..].
  destruct (dijkstra _ _ _ _) as [dr| |] eqn:Hrun; cbn [obind]; [|done..].
  destruct (dijkstra_heap_stderr _ _ _ _ _ Hrun)
    as [(Hsn & -> & ->)|(Hsn & [h ->] & Herr)].
  { intros [= <-]. left. exists INVALID_SOURCE_NODE_ID. split; [done|].
    exists g, d, s. by rewrite Hx. }
  case_decide as Hinf.
  { intros [= <-]. left. exists NO_PATH. split; [done|].
    exists g, d, s, dr. by rewrite Hx. }
  destruct outputFile as [name|].
  - destruct (fs_can_create env name) eqn:Hc.
    + destruct (printShortestPath _ _ _ _) as [lines| |] eqn:Hpr; cbn [obind];
        [|done..].
      intros [= <-]. right. destruct (printShortestPath_lines _ _ _ _ _ Hpr)
        as [body ->]. split_and!; [done..|]. by exists body.
    + intros [= <-]. left. exists CANNOT_CREATE_NEW_FILE. split; [done|].
      by exists name, g, d, s, dr.
  - destruct (printShortestPath _ _ _ _) as [lines| |] eqn:Hpr; cbn [obind];
      [|done..].
    intros [= <-]. right. destruct (printShortestPath_lines _ _ _ _ _ Hpr)
      as [body ->]. split_and!; [done..|]. by exists body.
Qed.

Lemma loaded_unique env nodesFile edgesFile g g' :
  loaded env nodesFile edgesFile g → loaded env nodesFile edgesFile g' → g = g'.
Proof.
  intros (nodes & edges & g1 & Hn & He & Hln & Hle)
    (nodes' & edges' & g1' & Hn' & He' & Hln' & Hle').
  simplify_eq. rewrite Hln in Hln'. simplify_eq. rewrite Hle in Hle'. by simplify_eq.
Qed.

(** X3: a run of the program that ends has either failed, with exit code 1,
    one line of [errorHandle] on the standard error stream, nothing on the
    standard output and no file created, or succeeded, with exit code 0,
    nothing on the standard error stream and a text that starts with the
    opening line and ends with the closing line, written to the file named
    by the fifth argument when there is one and to the standard output
    otherwise. *)
Theorem main_exit_discipline fuel env argv r :
  main fuel env argv = Ret r →
  (exit_code r = 1 ∧ (∃ e, run_stderr r = [errorHandle e]) ∧
   run_stdout r = [] ∧ run_created r = None) ∨
  written (argv !! 4%nat) r.
Proof.
  assert (Hfail : ∀ e, exit_code (failure [errorHandle e]) = 1 ∧
    (∃ e', run_stderr (failure [errorHandle e]) = [errorHandle e']) ∧
    run_stdout (failure [errorHandle e]) = [] ∧
    run_created (failure [errorHandle e]) = None).
  { intros e. split_and!; [done| |done..]. by exists e. }
  destruct argv as [|a1 [|a2 [|a3 [|a4 [|a5 [|a6 rest]]]]]]; cbn [main lookup list_lookup];
    try (intros [= <-]; left; apply (Hfail INVALID_NUMBER_OF_PARAMETERS)).
  - intros [(e & -> & _)|Hw]%app_returns; [left; apply Hfail|by right].
  - intros [(e & -> & _)|Hw]%app_returns; [left; apply Hfail|by right].
Qed.

Lemma main_exit_discipline_witness :
  let r := {| exit_code := 0; run_stderr := []; run_stdout := [];
              run_created := Some ("out"%string, scenario_output) |} in
  main 3 scenario_env ["nodes"; "edges"; "1"; "3"; "out"]%string = Ret r ∧
  ((exit_code r = 1 ∧ (∃ e, run_stderr r = [errorHandle e]) ∧
    run_stdout r = [] ∧ run_created r = None) ∨
   written (Some "out"%string) r).
Proof.
  assert (Hrun : main 3 scenario_env ["nodes"; "edges"; "1"; "3"; "out"]%string =
    Ret {| exit_code := 0; run_stderr := []; run_stdout := [];
           run_created := Some ("out"%string, scenario_output) |})
    by (vm_compute; reflexivity).
  split; [exact Hrun|].
  exact (main_exit_discipline 3 scenario_env _ _ Hrun).
Defined.

(** X4: the program reports a wrong number of parameters exactly when it is
    given neither four nor five arguments, whatever the arguments and the
    files are; with four or five arguments no run ends with that message. *)
Theorem wrong_argument_count fuel env argv :
  main fuel env argv =
    Ret (failure [errorHandle INVALID_NUMBER_OF_PARAMETERS]) ↔
  length argv ≠ 4%nat ∧ length argv ≠ 5%nat.
Proof.
  assert (Happ : ∀ a1 a2 a3 a4 o, app fuel env a1 a2 a3 a4 o ≠
            Ret (failure [errorHandle INVALID_NUMBER_OF_PARAMETERS])).
  { intros a1 a2 a3 a4 o [(e & Heq & Hc)|(Hex & _)]%app_returns; [|done].
    apply failure_inj in Heq. by subst e. }
  destruct argv as [|a1 [|a2 [|a3 [|a4 [|a5 [|a6 rest]]]]]]; cbn [main length];
    try (split; [intros _; lia|done]).
  - split; [by intros ?%Happ|lia].
  - split; [by intros ?%Happ|lia].
Qed.

(** X5: the messages of the driver are sound.  A run that ends with a
    message on the standard error stream has met the cause the message
    names: the node file, or the edge file once the node file is open,
    cannot be read; the destination id, or the source id once the
    destination is found, is not a node of the loaded graph; the search has
    left the destination at the infinity sentinel; or the output file cannot
    be created although a path was found. *)
Theorem diagnostics_sound fuel env nodesFile edgesFile sourceNode destNode
    outputFile r e :
  app fuel env nodesFile edgesFile sourceNode destNode outputFile = Ret r →
  run_stderr r = [errorHandle e] →
  exit_code r = 1 ∧
  reported_for fuel env nodesFile edgesFile sourceNode destNode outputFile e.
Proof.
  intros [(e' & -> & Hc)|(_ & Herr & _)]%app_returns; [|by rewrite Herr].
  simpl. by intros [= ->%errorHandle_inj].
Qed.

Lemma diagnostics_sound_witness :
  app 3 scenario_env "nodes" "edges" "7" "3" (Some "out"%string) =
    Ret (failure [errorHandle INVALID_SOURCE_NODE_ID]) ∧
  reported_for 3 scenario_env "nodes" "edges" "7" "3" (Some "out"%string)
    INVALID_SOURCE_NODE_ID.
Proof.
  assert (Hrun : app 3 scenario_env "nodes" "edges" "7" "3" (Some "out"%string) =
    Ret (failure [errorHandle INVALID_SOURCE_NODE_ID])) by (vm_compute; reflexivity).
  split; [exact Hrun|].
  exact (proj2 (diagnostics_sound 3 scenario_env "nodes" "edges" "7" "3"
    (Some "out"%string) _ INVALID_SOURCE_NODE_ID Hrun eq_refl)).
Defined.

(** X6: the destination id is looked up first.  On a loaded graph, the run
    ends with the message for an invalid destination id exactly when the
    destination id is not a node of the graph: then the source argument is
    not even converted, no search is made and no file is created, whatever
    the source argument and the output file are. *)
Theorem invalid_destination_first fuel env nodesFile edgesFile sourceNode destNode
    outputFile g d :
  loaded env nodesFile edgesFile g → atoi (Some destNode) = Ret d →
  app fuel env nodesFile edgesFile sourceNode destNode outputFile =
    Ret (failure [errorHandle INVALID_DEST_NODE_ID]) ↔
  g !! to_uint d = None.
Proof.
  intros Hl Hd. split.
  - intros [(e & Heq & Hc)|(Hex & _)]%app_returns; [|done].
    apply failure_inj in Heq. subst e.
    destruct Hc as (g' & d' & Hl' & Hd' & Hno).
    rewrite (loaded_unique _ _ _ _ _ Hl Hl'). rewrite Hd in Hd'. by simplify_eq.
  - intros Hno. destruct Hl as (nodes & edges & g1 & Hn & He & Hln & Hle).
    unfold app. rewrite Hn, He, Hln. cbn [obind]. rewrite Hle. cbn [obind].
    rewrite Hd. cbn [obind]. unfold graph_get_node. by rewrite Hno.
Qed.

Lemma invalid_destination_first_witness :
  atoi (Some "99999999999"%string) = Undef ∧
  app 0 scenario_env "nodes" "edges" "99999999999" "4" (Some "out"%string) =
    Ret (failure [errorHandle INVALID_DEST_NODE_ID]) ∧
  scenario_graph !! 4 = None.
Proof.
  split; [vm_compute; reflexivity|].
  assert (Hno : scenario_graph !! to_uint 4 = None) by (vm_compute; reflexivity).
  split; [|exact Hno].
  exact (proj2 (invalid_destination_first 0 scenario_env "nodes" "edges"
    "99999999999" "4" (Some "out"%string) scenario_graph 4 scenario_loaded
    eq_refl) Hno).
Defined.

(** X7: the output file gets the lines the standard output would get.  If
    the run without an output file ends, the run with one ends too: a
    failure is the same failure; a success becomes a success that prints
    nothing and creates the file with the lines the other run printed, or,
    when the file cannot be created, the failure that says so. *)
Theorem output_file_same_lines fuel env nodesFile edgesFile sourceNode destNode
    name r :
  app fuel env nodesFile edgesFile sourceNode destNode None = Ret r →
  app fuel env nodesFile edgesFile sourceNode destNode (Some name) =
    Ret (if decide (exit_code r = 0) then
           if fs_can_create env name then
             {| exit_code := 0; run_stderr := []; run_stdout := [];
                run_created := Some (name, run_stdout r) |}
           else failure [errorHandle CANNOT_CREATE_NEW_FILE]
         else r).
Proof.
  unfold app.
  destruct (fs_read env nodesFile) as [nodes|]; [|by intros [= <-]].
  destruct (fs_read env edgesFile) as [edges|]; [|by intros [= <-]].
  destruct (loadNodes _ _) as [[g1|]| |]; cbn [obind]; [|by intros [= <-]|done..].
  destruct (loadEdges _ _) as [[g|]| |]; cbn [obind]; [|by intros [= <-]|done..].
  destruct (atoi (Some destNode)) as [d| |]; cbn [obind]; [|done..].
  destruct (graph_get_node g (to_uint d)) as [dn|]; [|by intros [= <-]].
  destruct (atoi (Some sourceNode)) as [s| |]; cbn [obind]; [|done..].
  destruct (dijkstra _ _ _ _) as [dr| |]; cbn [obind]; [|done..].
  destruct (dr_heap dr); [|by intros [= <-]].
  case_decide; [by intros [= <-]|].
  destruct (printShortestPath _ _ _ _) as [lines| |]; cbn [obind]; [|done..].
  intros [= <-]. simpl. by destruct (fs_can_create env name).
Qed.

Lemma output_file_same_lines_witness :
  let r := {| exit_code := 0; run_stderr := []; run_stdout := scenario_output;
              run_created := None |} in
  app 3 scenario_env "nodes" "edges" "1" "3" None = Ret r ∧
  app 3 scenario_env "nodes" "edges" "1" "3" (Some "out"%string) =
    Ret {| exit_code := 0; run_stderr := []; run_stdout := [];
           run_created := Some ("out"%string, scenario_output) |}.
Proof.
  assert (Hrun : app 3 scenario_env "nodes" "edges" "1" "3" None =
    Ret {| exit_code := 0; run_stderr := []; run_stdout := scenario_output;
           run_created := None |}) by (vm_compute; reflexivity).
  split; [exact Hrun|].
  exact (output_file_same_lines 3 scenario_env "nodes" "edges" "1" "3" "out" _ Hrun).
Defined.

(** ** The search on any weights *)

Lemma relax_distance_le h g u d e h' g' :
  relax h g u d e = Ret (h', g') →
  ∀ n, node_get_distance g' n ≤ node_get_distance g n.
Proof.
  intros (_ & _ & Hyes & Hno)%relax_effect n.
  destruct (decide (to_uint (d + mindelay e) < node_get_distance g (destination e)))
    as [Hlt|Hge]; [|by destruct (Hno Hge) as [_ ->]].
  destruct (Hyes Hlt) as (_ & -> & _). case_decide; [subst; lia|done].
Qed.

Lemma relax_all_distance_le u d es : ∀ h g h' g',
  relax_all h g u d es = Ret (h', g') →
  ∀ n, node_get_distance g' n ≤ node_get_distance g n.
Proof.
  induction es as [|e es IH]; intros h g h' g'; simpl.
  - by intros [= <- <-].
  - destruct (relax h g u d e) as [[h1 g1]| |] eqn:Hrel; simpl; [|done..].
    intros Hrest n. pose proof (relax_distance_le _ _ _ _ _ _ _ Hrel n).
    pose proof (IH _ _ _ _ Hrest n). lia.
Qed.

Lemma dijkstra_loop_effect dest fuel : ∀ h g h' g',
  dijkstra_loop fuel h g dest = Ret (h', g') →
  same_shape g g' ∧ (∀ n, node_get_distance g' n ≤ node_get_distance g n) ∧
  (∀ n, n ∈ h' → n ∈ h).
Proof.
  induction fuel as [|fuel IH]; intros h g h' g'.
  { destruct h; simpl; [|done]. intros [= <- <-].
    split_and!; [apply same_shape_refl|done..]. }
  destruct (decide (h = [])) as [->|Hne].
  { simpl. intros [= <- <-]. split_and!; [apply same_shape_refl|done..]. }
  destruct (heap_extract_min_is_Some h g Hne) as [[[u h1] g1] Hex].
  rewrite (dijkstra_loop_unfold _ _ _ _ _ _ _ Hex).
  destruct (heap_extract_min_effect _ _ _ _ _ Hex) as (Hp & _ & Hsh & Hd & _).
  assert (Hsub : ∀ n, n ∈ h1 → n ∈ h) by (intros n ?; rewrite Hp; by right).
  case_decide as Hinf.
  { intros [= <- <-]. split_and!; [done| |done]. intros n. by rewrite Hd. }
  destruct (relax_all _ _ _ _ _) as [[h2 g2]| |] eqn:Hrel; simpl; [|done..].
  pose proof (relax_all_distance_le _ _ _ _ _ _ _ Hrel) as Hle.
  apply relax_all_effect in Hrel as [Hp2 Hsh2].
  assert (same_shape g g2) by (by eapply same_shape_trans).
  assert (Hle2 : ∀ n, node_get_distance g2 n ≤ node_get_distance g n).
  { intros n. rewrite <- Hd. apply Hle. }
  assert (Hsub2 : ∀ n, n ∈ h2 → n ∈ h) by (intros n ?; apply Hsub; by rewrite <- Hp2).
  case_decide; [by intros [= <- <-]|].
  intros (Hsh' & Hle' & Hsub')%IH.
  split_and!; [by eapply same_shape_trans| |by auto].
  intros n. specialize (Hle' n). specialize (Hle2 n). lia.
Qed.

(** X8: a search that returns has changed neither the nodes of the graph
    nor their ids nor their edges, whatever the weights and the distances it
    started from are; it has not raised the distance of any node; and the
    heap it returns holds nodes of the graph only. *)
Theorem search_keeps_graph g s dest fuel r :
  dijkstra fuel g s dest = Ret r →
  same_shape g (dr_graph r) ∧
  (∀ n, node_get_distance (dr_graph r) n ≤ node_get_distance g n) ∧
  (∀ h n, dr_heap r = Some h → n ∈ h → is_Some (g !! n)).
Proof.
  unfold dijkstra. destruct (heap_new_from_graph g) as [[h0 g0]|] eqn:Hnew; [|done].
  destruct (heap_new_from_graph_effect _ _ _ Hnew) as [Hh0 He0].
  assert (Hsh0 : same_shape g g0).
  { split_and!; intros n;
      [by apply erase_eq_edges|by apply erase_eq_id|by apply erase_eq_is_Some]. }
  destruct (graph_get_node g0 s) as [sn|] eqn:Hget.
  2:{ intros [= <-]. simpl. split_and!; [done| |done].
      intros n. by rewrite (erase_eq_distance _ _ He0). }
  destruct (heap_decrease_distance _ _ _ _ _) as [[h1 g1]| |] eqn:Hdec;
    cbn [obind]; [|done..].
  destruct (dijkstra_loop _ _ _ _) as [[h2 g2]| |] eqn:Hloop; cbn [obind]; [|done..].
  intros [= <-]. simpl.
  destruct (heap_decrease_distance_effect _ _ _ _ _ _ _ Hdec)
    as (Hp & _ & _ & _ & Hv & Hsh1 & Hd1 & _).
  destruct (dijkstra_loop_effect _ _ _ _ _ _ Hloop) as (Hsh2 & Hle & Hsub).
  split_and!.
  - eapply same_shape_trans; [done|]. by eapply same_shape_trans.
  - intros n. specialize (Hle n). rewrite Hd1 in Hle.
    rewrite <- (erase_eq_distance _ _ He0). case_decide; [subst; lia|done].
  - intros h n [= <-] Hn. apply Hsub in Hn. rewrite Hp, Hh0 in Hn.
    by apply map_keys_elem in Hn.
Qed.

Lemma search_keeps_graph_witness :
  dijkstra 4 overflow_graph 1 4 = Ret overflow_search ∧
  same_shape overflow_graph (dr_graph overflow_search).
Proof.
  assert (Hrun : dijkstra 4 overflow_graph 1 4 = Ret overflow_search)
    by (vm_compute; reflexivity).
  split; [exact Hrun|].
  exact (proj1 (search_keeps_graph overflow_graph 1 4 4 overflow_search Hrun)).
Defined.

(** X9: a search from a node that is not in the graph does nothing but
    report it: it returns the null pointer after one line on the standard
    error stream, for any target and before any iteration, and leaves
    everything in the graph but the heap slots as it was; no other search
    returns the null pointer. *)
Theorem unknown_source g s dest fuel :
  g !! s = None ↔
  ∃ g0, dijkstra fuel g s dest =
      Ret {| dr_heap := None; dr_graph := g0;
             dr_stderr := [errorHandle INVALID_SOURCE_NODE_ID] |} ∧
    erase g0 = erase g.
Proof.
  split.
  - intros Hno. unfold dijkstra.
    destruct (heap_new_from_graph g) as [[h0 g0]|] eqn:Hnew; [|done].
    destruct (heap_new_from_graph_effect _ _ _ Hnew) as [_ He0].
    unfold graph_get_node. destruct (g0 !! s) as [x|] eqn:Hx.
    + assert (is_Some (g !! s)) as [? ?]; [|congruence].
      rewrite <- (erase_eq_is_Some _ _ He0), Hx. by eexists.
    + by exists g0.
  - intros (g0 & Hrun & _).
    by destruct (dijkstra_heap_stderr _ _ _ _ _ Hrun) as [(? & _)|(_ & [? ?] & _)].
Qed.

(** The distances stay weights of paths modulo 2^32. *)
Lemma wrapped_inv_same s g g' :
  same_shape g g' →
  (∀ n, node_get_distance g' n = node_get_distance g n) →
  wrapped_inv s g → wrapped_inv s g'.
Proof.
  intros Hsh Hd Hinv n. rewrite Hd. intros (w & Hw & Heq)%Hinv.
  exists w. split; [by eapply path_same_shape|done].
Qed.

Lemma wrapped_inv_relax s h g u d e h' g' :
  wrapped_inv s g → (∃ w, path g s u w ∧ to_uint w = d) →
  e ∈ node_get_edges g u →
  relax h g u d e = Ret (h', g') →
  wrapped_inv s g'.
Proof.
  intros Hinv (wu & Hwu & Hd) He Hrel.
  destruct (relax_effect _ _ _ _ _ _ _ Hrel) as (_ & Hsh & Hyes & Hno).
  destruct (decide (to_uint (d + mindelay e) < node_get_distance g (destination e)))
    as [Hlt|Hge]; [|by destruct (Hno Hge) as [_ ->]].
  destruct (Hyes Hlt) as (_ & Hdist & _). intros n. rewrite Hdist.
  case_decide as Hn.
  - intros _. exists (wu + mindelay e). subst n. split.
    + eapply path_same_shape; [done|]. by apply (path_step g s u e wu).
    + rewrite <- Hd. unfold to_uint. by rewrite Zplus_mod_idemp_l.
  - intros (w & Hw & Heq)%Hinv. exists w. split; [by eapply path_same_shape|done].
Qed.

Lemma wrapped_inv_relax_all s u d post : ∀ pre h g h' g',
  wrapped_inv s g → (∃ w, path g s u w ∧ to_uint w = d) →
  node_get_edges g u = pre ++ post →
  relax_all h g u d post = Ret (h', g') →
  wrapped_inv s g'.
Proof.
  induction post as [|e post IH]; intros pre h g h' g' Hinv Hu Hes; simpl.
  { by intros [= <- <-]. }
  destruct (relax h g u d e) as [[h1 g1]| |] eqn:Hrel; simpl; [|done..].
  assert (He : e ∈ node_get_edges g u).
  { rewrite Hes. apply elem_of_app. right. by left. }
  pose proof (wrapped_inv_relax s h g u d e h1 g1 Hinv Hu He Hrel) as Hinv1.
  destruct (relax_effect _ _ _ _ _ _ _ Hrel) as (_ & Hsh & _).
  apply (IH (pre ++ [e])); [done| |].
  - destruct Hu as (w & Hw & Heq). exists w. split; [by eapply path_same_shape|done].
  - destruct Hsh as (-> & _). by rewrite Hes, <- app_assoc.
Qed.

Lemma wrapped_inv_loop s dest fuel : ∀ h g h' g',
  wrapped_inv s g → dijkstra_loop fuel h g dest = Ret (h', g') →
  wrapped_inv s g'.
Proof.
  induction fuel as [|fuel IH]; intros h g h' g' Hinv.
  { destruct h; simpl; [|done]. by intros [= <- <-]. }
  destruct (decide (h = [])) as [->|Hne].
  { simpl. by intros [= <- <-]. }
  destruct (heap_extract_min_is_Some h g Hne) as [[[u h1] g1] Hex].
  rewrite (dijkstra_loop_unfold _ _ _ _ _ _ _ Hex).
  destruct (heap_extract_min_effect _ _ _ _ _ Hex) as (_ & _ & Hsh & Hd & _).
  pose proof (wrapped_inv_same s g g1 Hsh Hd Hinv) as Hinv1.
  case_decide as Hinf; [by intros [= <- <-]|].
  destruct (relax_all _ _ _ _ _) as [[h2 g2]| |] eqn:Hrel; simpl; [|done..].
  pose proof (wrapped_inv_relax_all s u _ _ [] h1 g1 h2 g2 Hinv1 (Hinv1 u Hinf)
    eq_refl Hrel) as Hinv2.
  case_decide; [by intros [= <- <-]|]. by apply IH.
Qed.

(** X10: whatever the weights are, a distance the search leaves below the
    infinity sentinel is the weight of a path of the graph from the source
    to that node, reduced modulo 2^32: the candidates are sums along edges
    and the only thing that can go wrong with them is the wrap-around. *)
Theorem distance_is_wrapped_path_weight g s dest fuel r n :
  graph_wf g → dijkstra fuel g s dest = Ret r →
  node_get_distance (dr_graph r) n ≠ UINT_MAX →
  ∃ w, path g s n w ∧ to_uint w = node_get_distance (dr_graph r) n.
Proof.
  intros Hwf. unfold dijkstra.
  destruct (heap_new_from_graph g) as [[h0 g0]|] eqn:Hnew; [|done].
  destruct (heap_new_from_graph_effect _ _ _ Hnew) as [_ He0].
  assert (Hsh0 : same_shape g g0).
  { split_and!; intros m;
      [by apply erase_eq_edges|by apply erase_eq_id|by apply erase_eq_is_Some]. }
  assert (Hd0 : ∀ m, node_get_distance g0 m = UINT_MAX).
  { intros m. rewrite (erase_eq_distance _ _ He0). by apply graph_wf_distance. }
  unfold graph_get_node. destruct (g0 !! s) as [x|] eqn:Hx.
  2:{ intros [= <-]. simpl. by rewrite Hd0. }
  destruct (heap_decrease_distance _ _ _ _ _) as [[h1 g1]| |] eqn:Hdec;
    cbn [obind]; [|done..].
  destruct (dijkstra_loop _ _ _ _) as [[h2 g2]| |] eqn:Hloop; cbn [obind]; [|done..].
  intros [= <-]. simpl in *.
  destruct (heap_decrease_distance_effect _ _ _ _ _ _ _ Hdec)
    as (_ & _ & _ & _ & _ & Hsh1 & Hd1 & _).
  destruct (dijkstra_loop_effect _ _ _ _ _ _ Hloop) as (Hsh2 & _).
  assert (Hsh : same_shape g g2).
  { eapply same_shape_trans; [done|]. by eapply same_shape_trans. }
  assert (Hinv1 : wrapped_inv s g1).
  { intros m. rewrite Hd1, Hd0. case_decide; [|done]. subst m. intros _.
    exists 0. split; [constructor|done]. }
  intros (w & Hw & Heq)%(wrapped_inv_loop s dest fuel h1 g1 h2 g2 Hinv1 Hloop).
  exists w. split; [|done]. eapply path_same_shape; [|done]. by apply same_shape_sym.
Qed.

Lemma distance_is_wrapped_path_weight_witness :
  dijkstra 4 overflow_graph 1 4 = Ret overflow_search ∧
  node_get_distance (dr_graph overflow_search) 4 = 2147483645 ∧
  ∃ w, path overflow_graph 1 4 w ∧
    to_uint w = node_get_distance (dr_graph overflow_search) 4.
Proof.
  assert (Hrun : dijkstra 4 overflow_graph 1 4 = Ret overflow_search)
    by (vm_compute; reflexivity).
  assert (Hwf : graph_wf overflow_graph).
  { apply (bool_decide_unpack _). vm_compute. exact I. }
  assert (Hfin : node_get_distance (dr_graph overflow_search) 4 ≠ UINT_MAX)
    by (vm_compute; discriminate).
  split; [exact Hrun|]. split; [vm_compute; reflexivity|].
  exact (distance_is_wrapped_path_weight overflow_graph 1 4 4 overflow_search 4
    Hwf Hrun Hfin).
Defined.

(** ** The source as destination *)

(** The edges of the source are relaxed within the contract of the heap,
    whatever their weights are. *)
Lemma relax_all_source s es : ∀ h g,
  heap_ok h g → node_get_distance g s = 0 →
  (∀ n, 0 ≤ node_get_distance g n) →
  (∀ e, e ∈ es → destination e = s ∨ destination e ∈ h) →
  ∃ h' g', relax_all h g s 0 es = Ret (h', g') ∧ node_get_distance g' s = 0.
Proof.
  induction es as [|e es IH]; intros h g Hok Hs Hnn Hes; simpl.
  { by exists h, g. }
  unfold relax. pose proof (to_uint_range (0 + mindelay e)) as Hr.
  case_decide as Hlt; cbn [obind].
  - assert (Hne : destination e ≠ s) by (intros Heq; rewrite Heq, Hs in Hlt; lia).
    destruct (Hes e ltac:(by left)) as [?|Hin]; [done|].
    destruct (heap_decrease_distance_ok h g (destination e)
      (to_uint (0 + mindelay e)) (Some s) Hok Hin ltac:(lia))
      as (h1 & g1 & Hdec & Hok1).
    rewrite Hdec. cbn [obind].
    destruct (heap_decrease_distance_effect _ _ _ _ _ _ _ Hdec)
      as (Hp & _ & _ & _ & _ & _ & Hd & _).
    apply IH; [done|by rewrite Hd, decide_False| |].
    + intros n. rewrite Hd. case_decide; [lia|done].
    + intros e' He'. rewrite Hp. apply Hes. by right.
  - apply IH; [done..|]. intros e' He'. apply Hes. by right.
Qed.

(** X11: with the source as destination the run prints the opening and the
    closing line and nothing between them, on every loaded graph that holds
    the node and whatever the weights are: the source is the first node
    extracted, its edges are relaxed, and the search returns at once. *)
Theorem same_node_run fuel env nodesFile edgesFile sourceNode destNode g s d :
  loaded env nodesFile edgesFile g →
  atoi (Some sourceNode) = Ret s → atoi (Some destNode) = Ret d →
  to_uint s = to_uint d → is_Some (g !! to_uint s) → (0 < fuel)%nat →
  app fuel env nodesFile edgesFile sourceNode destNode None =
    Ret {| exit_code := 0; run_stderr := [];
           run_stdout := ["digraph {" +:+ nl; "}" +:+ nl];
           run_created := None |}.
Proof.
  intros Hl Hs Hd Heq Hsn Hfuel. pose proof (loaded_wf _ _ _ _ Hl) as Hwf.
  rewrite (app_loaded _ _ _ _ _ _ _ g d Hl Hd) by (by rewrite <- Heq).
  rewrite Hs. cbn [obind]. rewrite <- Heq. set (sn := to_uint s) in *.
  destruct (search_start g sn Hwf Hsn)
    as (h0 & g0 & h1 & g1 & Hnew & Hget & Hdec & Hsh & Hp & Hok & Hd1).
  unfold dijkstra. rewrite Hnew, Hget, Hdec. cbn [obind].
  destruct fuel as [|fuel]; [lia|].
  assert (Hin : sn ∈ h1) by (rewrite Hp; by apply map_keys_elem).
  assert (Hne : h1 ≠ []) by (intros ->; by apply elem_of_nil in Hin).
  destruct (heap_extract_min_is_Some h1 g1 Hne) as [[[u h2] g2] Hex].
  rewrite (dijkstra_loop_unfold _ _ _ _ _ _ _ Hex).
  destruct (heap_extract_min_effect _ _ _ _ _ Hex) as (Hp2 & _ & Hsh2 & Hd2 & _).
  destruct (heap_extract_min_ok _ _ _ _ _ Hok Hex) as [Hok2 Hmin].
  assert (Hu : u = sn).
  { specialize (Hmin sn Hin). rewrite !Hd1 in Hmin.
    destruct (decide (sn = u)); [done|]. rewrite decide_True in Hmin by done.
    unfold UINT_MAX in Hmin. lia. }
  subst u.
  assert (Hds : node_get_distance g2 sn = 0) by (by rewrite Hd2, Hd1, decide_True).
  rewrite Hds, decide_False by done.
  destruct (relax_all_source sn (node_get_edges g2 sn) h2 g2 Hok2 Hds)
    as (h3 & g3 & Hrel & Hd3).
  { intros n. rewrite Hd2, Hd1. case_decide; by compute. }
  { intros e He. destruct (decide (destination e = sn)) as [|Hne']; [by left|].
    right. assert (Hk : destination e ∈ h1).
    { rewrite Hp. apply map_keys_elem. apply (graph_wf_closed g sn e Hwf).
      destruct Hsh as (<- & _). by destruct Hsh2 as (<- & _). }
    rewrite Hp2 in Hk. by apply elem_of_cons in Hk as [?|?]. }
  rewrite Hrel. cbn [obind]. rewrite decide_True by done.
  cbn [obind dr_heap dr_graph]. rewrite Hd3, decide_False by done.
  unfold printShortestPath. rewrite decide_False; [done|].
  intros Hid. apply Hid.
  apply relax_all_effect in Hrel as [_ Hsh3].
  destruct Hsh3 as (_ & -> & _). destruct Hsh2 as (_ & -> & _).
  destruct Hsh as (_ & -> & _). symmetry. by apply graph_wf_id.
Qed.

Lemma same_node_run_witness :
  app 1 scenario_env "nodes" "edges" "2" " +2.5" None =
    Ret {| exit_code := 0; run_stderr := [];
           run_stdout := ["digraph {" +:+ nl; "}" +:+ nl];
           run_created := None |}.
Proof.
  refine (same_node_run 1 scenario_env "nodes" "edges" "2" " +2.5"
    scenario_graph 2 2 scenario_loaded eq_refl eq_refl eq_refl _ _).
  - vm_compute. eexists. reflexivity.
  - lia.
Defined.

(** ** The files the loaders read *)

Lemma string_length_app (a b : string) :
  String.length (a +:+ b) = (String.length a + String.length b)%nat.
Proof. induction a as [|c a IH]; simpl; [done|]. by rewrite IH. Qed.

(** A read that does not meet the end of the file does not depend on what
    follows in the file. *)
Lemma fgets_chars_app k : ∀ c t r rest,
  fgets_chars k c = (r, rest, false) →
  fgets_chars k (c +:+ t) = (r, rest +:+ t, false).
Proof.
  induction k as [|k IH]; intros c t r rest; simpl.
  { by intros [= <- <-]. }
  destruct c as [|a c]; [done|]. simpl. case_decide.
  { by intros [= <- <-]. }
  destruct (fgets_chars k c) as [[r' rest'] e'] eqn:Hrec.
  intros [= <- <- ->]. by rewrite (IH c t r' rest' Hrec).
Qed.

(** A read from whole lines takes at least one character and leaves whole
    lines. *)
Lemma fgets_chars_whole k : ∀ c,
  (0 < k)%nat → c ≠ EmptyString → whole_lines c →
  ∃ r rest, fgets_chars k c = (r, rest, false) ∧ whole_lines rest ∧
    (String.length rest < String.length c)%nat.
Proof.
  induction k as [|k IH]; intros c Hk Hne Hw; [lia|].
  destruct c as [|a c]; [done|]. simpl. case_decide as Ha.
  { eexists _, _. split; [done|]. split; [|simpl; lia].
    simpl in Hw. by destruct c. }
  assert (c ≠ EmptyString ∧ whole_lines c) as [Hc Hwc].
  { simpl in Hw. destruct c; [|done]. by apply bool_decide_unpack in Hw. }
  destruct k as [|k].
  { simpl. eexists _, _. split; [done|]. split; [done|simpl; lia]. }
  destruct (IH c ltac:(lia) Hc Hwc) as (r & rest & -> & Hwr & Hlen).
  eexists _, _. split; [done|]. split; [done|simpl; lia].
Qed.

(** A read takes nothing back, and takes something unless the file is at
    its end. *)
Lemma fgets_chars_length k : ∀ s r rest e,
  fgets_chars k s = (r, rest, e) →
  (String.length rest ≤ String.length s)%nat ∧
  ((0 < k)%nat → e = false → (String.length rest < String.length s)%nat).
Proof.
  induction k as [|k IH]; intros s r rest e; simpl.
  { intros [= <- <- <-]. split; [done|lia]. }
  destruct s as [|a s]; [by intros [= <- <- <-]|]. case_decide.
  { intros [= <- <- <-]. simpl. split; [lia|]. lia. }
  destruct (fgets_chars k s) as [[r' rest'] e'] eqn:Hrec.
  intros [= <- <- <-]. destruct (IH _ _ _ _ Hrec) as [Hle _]. simpl. lia.
Qed.

(** A text without a newline that fits the buffer is read up to the end of
    the file. *)
Lemma fgets_chars_no_newline : ∀ t k,
  no_newline t → (String.length t < k)%nat →
  fgets_chars k t = (t, EmptyString, true).
Proof.
  induction t as [|a t IH]; intros k Hn Hk; (destruct k as [|k]; [simpl in Hk; lia|]).
  { done. }
  simpl in *. apply andb_prop_elim in Hn as [Ha%bool_decide_unpack Hn].
  rewrite decide_False by done. rewrite (IH k Hn) by lia. done.
Qed.

(** The loaders are instances of the loop over the lines. *)
Lemma loadNodes_loop_lines fuel : ∀ g f,
  loadNodes_loop fuel g f = lines_loop node_record fuel g f.
Proof.
  induction fuel as [|fuel IH]; intros g f; simpl; [done|].
  destruct (f_eof f); [done|]. destruct (fgets 200 f) as [buffer f'].
  destruct (f_eof f'); [done|]. unfold node_record.
  destruct (strtok (cstr buffer)) as [token save].
  destruct (atoi token) as [v| |]; cbn [obind]; [|done..].
  destruct (graph_insert_node g (to_uint v)); [apply IH|done].
Qed.

Lemma loadEdges_loop_lines fuel : ∀ g f,
  loadEdges_loop fuel g f = lines_loop edge_record fuel g f.
Proof.
  induction fuel as [|fuel IH]; intros g f; simpl; [done|].
  destruct (f_eof f); [done|]. destruct (fgets 200 f) as [buffer f'].
  destruct (f_eof f'); [done|]. unfold edge_record.
  destruct (strtok (cstr buffer)) as [token1 save1].
  destruct (atoi token1) as [v1| |]; cbn [obind]; [|done..].
  destruct (strtok save1) as [token2 save2].
  destruct (atoi token2) as [v2| |]; cbn [obind]; [|done..].
  destruct (strtok save2) as [token3 save3].
  destruct (strtok save3) as [token4 save4].
  destruct (atoi token4) as [v4| |]; cbn [obind]; [|done..].
  destruct (graph_insert_edge g (to_uint v1) (to_uint v2) v4); [apply IH|done].
Qed.

Section lines.
Variable body : Graph → string → outcome (option Graph).

(** The loop needs no more iterations than the file has characters left,
    plus one. *)
Lemma lines_loop_fuel fuel1 : ∀ fuel2 g f,
  (String.length (f_rest f) < fuel1)%nat → (String.length (f_rest f) < fuel2)%nat →
  lines_loop body fuel1 g f = lines_loop body fuel2 g f.
Proof.
  induction fuel1 as [|fuel1 IH]; intros fuel2 g f H1 H2; [lia|].
  destruct fuel2 as [|fuel2]; [lia|]. simpl.
  destruct (f_eof f); [done|]. unfold fgets.
  destruct (fgets_chars (200 - 1) (f_rest f)) as [[r rest] e] eqn:Hget.
  cbn [f_eof]. destruct e; [done|].
  destruct (fgets_chars_length _ _ _ _ _ Hget) as [_ Hlt].
  specialize (Hlt ltac:(simpl; lia) eq_refl).
  destruct (body g r) as [[g'|]| |]; cbn [obind]; [|done..].
  apply IH; simpl; lia.
Qed.

Lemma lines_loop_not_timeout fuel : ∀ g f,
  (∀ g b, body g b ≠ Timeout) →
  (String.length (f_rest f) < fuel)%nat → lines_loop body fuel g f ≠ Timeout.
Proof.
  induction fuel as [|fuel IH]; intros g f Hb Hlen; [lia|]. simpl.
  destruct (f_eof f); [done|]. unfold fgets.
  destruct (fgets_chars (200 - 1) (f_rest f)) as [[r rest] e] eqn:Hget.
  cbn [f_eof]. destruct e; [done|].
  destruct (fgets_chars_length _ _ _ _ _ Hget) as [_ Hlt].
  specialize (Hlt ltac:(simpl; lia) eq_refl).
  pose proof (Hb g r). destruct (body g r) as [[g'|]| |]; cbn [obind]; [|done..].
  apply IH; [done|simpl; lia].
Qed.

(** Whole lines followed by more text: the lines are loaded, then the
    text. *)
Lemma lines_loop_app c2 n : ∀ c1 fuel fuel1 fuel2 g,
  (String.length c1 ≤ n)%nat → whole_lines c1 →
  (String.length (c1 +:+ c2) < fuel)%nat →
  (String.length c1 < fuel1)%nat → (String.length c2 < fuel2)%nat →
  lines_loop body fuel g (fopen_read (c1 +:+ c2)) =
    (r ←← lines_loop body fuel1 g (fopen_read c1);
     match r with
     | None => Ret None
     | Some g1 => lines_loop body fuel2 g1 (fopen_read c2)
     end).
Proof.
  induction n as [|n IH]; intros c1 fuel fuel1 fuel2 g Hn Hw Hf Hf1 Hf2.
  - destruct c1; [|simpl in Hn; lia]. destruct fuel1 as [|fuel1]; [lia|].
    simpl. by apply lines_loop_fuel.
  - destruct (decide (c1 = EmptyString)) as [->|Hne].
    { destruct fuel1 as [|fuel1]; [lia|]. simpl. by apply lines_loop_fuel. }
    destruct (fgets_chars_whole 199 c1 ltac:(lia) Hne Hw)
      as (r & rest & Hget & Hwr & Hlen).
    pose proof (fgets_chars_app 199 c1 c2 r rest Hget) as Hget2.
    destruct fuel as [|fuel]; [lia|]. destruct fuel1 as [|fuel1]; [lia|].
    cbn [lines_loop]. unfold fgets, fopen_read. cbn [f_rest f_eof].
    change (200 - 1)%nat with 199%nat. rewrite Hget, Hget2. cbn [f_eof].
    destruct (body g r) as [[g'|]| |]; cbn [obind]; [|done..].
    apply (IH rest fuel fuel1 fuel2 g'); [lia|done|..|lia|done].
    rewrite string_length_app in *. lia.
Qed.

(** A last line without a newline that fits the buffer is not loaded. *)
Lemma lines_loop_tail t fuel g :
  no_newline t → (String.length t ≤ 198)%nat → (0 < fuel)%nat →
  lines_loop body fuel g (fopen_read t) = Ret (Some g).
Proof.
  intros Hn Hlen Hfuel. destruct fuel as [|fuel]; [lia|].
  cbn [lines_loop]. unfold fgets, fopen_read. cbn [f_rest f_eof].
  by rewrite (fgets_chars_no_newline t (200 - 1) Hn) by (simpl; lia).
Qed.

(** What holds of the graph before the loop and is kept by every line holds
    after it. *)
Lemma lines_loop_inv (P : Graph → Prop) fuel : ∀ g f g',
  (∀ g b g', P g → body g b = Ret (Some g') → P g') →
  P g → lines_loop body fuel g f = Ret (Some g') → P g'.
Proof.
  induction fuel as [|fuel IH]; intros g f g' Hb Hg; simpl.
  { destruct (f_eof f); [by intros [= <-]|done]. }
  destruct (f_eof f); [by intros [= <-]|].
  destruct (fgets 200 f) as [buffer f'].
  destruct (f_eof f'); [by intros [= <-]|].
  destruct (body g buffer) as [[g1|]| |] eqn:Hbody; cbn [obind]; [|done..].
  apply IH; [done|]. by eapply Hb.
Qed.

End lines.

Lemma node_record_not_timeout g b : node_record g b ≠ Timeout.
Proof.
  unfold node_record. destruct (strtok (cstr b)) as [[t|] save]; simpl; [|done].
  by case_decide.
Qed.

Lemma atoi_not_timeout t : atoi t ≠ Timeout.
Proof. destruct t as [t|]; simpl; [by case_decide|done]. Qed.

Lemma edge_record_not_timeout g b : edge_record g b ≠ Timeout.
Proof.
  unfold edge_record. destruct (strtok (cstr b)) as [t1 s1].
  pose proof (atoi_not_timeout t1). destruct (atoi t1) as [v1| |]; cbn [obind]; [|done..].
  destruct (strtok s1) as [t2 s2].
  pose proof (atoi_not_timeout t2). destruct (atoi t2) as [v2| |]; cbn [obind]; [|done..].
  destruct (strtok s2) as [t3 s3]. destruct (strtok s3) as [t4 s4].
  pose proof (atoi_not_timeout t4). by destruct (atoi t4) as [v4| |].
Qed.

(** X12: the loaders reach the end of every file: neither loop goes on
    forever, since every read that does not meet the end of the file takes
    at least one character. *)
Theorem loaders_terminate g f :
  loadNodes g f ≠ Timeout ∧ loadEdges g f ≠ Timeout.
Proof.
  unfold loadNodes, loadEdges.
  rewrite loadNodes_loop_lines, loadEdges_loop_lines. split.
  - apply lines_loop_not_timeout; [apply node_record_not_timeout|lia].
  - apply lines_loop_not_timeout; [apply edge_record_not_timeout|lia].
Qed.

Lemma load_then_lines body load g c1 c2 :
  (∀ g f, load g f = lines_loop body (S (String.length (f_rest f))) g f) →
  whole_lines c1 →
  load g (fopen_read (c1 +:+ c2)) = load_then load g c1 c2.
Proof.
  intros Hload Hw. unfold load_then.
  rewrite (Hload g (fopen_read (c1 +:+ c2))), (Hload g (fopen_read c1)).
  unfold fopen_read at 1 3. cbn [f_rest].
  rewrite (lines_loop_app body c2 (String.length c1) c1
    (S (String.length (c1 +:+ c2))) (S (String.length c1))
    (S (String.length c2)) g) by (done || lia).
  destruct (lines_loop body _ g _) as [[g1|]| |]; cbn [obind]; [|done..].
  by rewrite Hload.
Qed.

Lemma loadNodes_lines g f :
  loadNodes g f = lines_loop node_record (S (String.length (f_rest f))) g f.
Proof. apply loadNodes_loop_lines. Qed.

Lemma loadEdges_lines g f :
  loadEdges g f = lines_loop edge_record (S (String.length (f_rest f))) g f.
Proof. apply loadEdges_loop_lines. Qed.

(** X13: a file is loaded line by line.  Loading a text made of whole
    lines followed by a second text comes to loading the first text and
    then, into the graph this gives, the second one; a failure or an
    undefined step in the first text is the outcome of the whole. *)
Theorem loaders_compose g c1 c2 :
  whole_lines c1 →
  loadNodes g (fopen_read (c1 +:+ c2)) = load_then loadNodes g c1 c2 ∧
  loadEdges g (fopen_read (c1 +:+ c2)) = load_then loadEdges g c1 c2.
Proof.
  intros Hw. split.
  - by apply (load_then_lines node_record); [apply loadNodes_lines|].
  - by apply (load_then_lines edge_record); [apply loadEdges_lines|].
Qed.

Lemma loaders_compose_witness :
  let c1 := "1,a" +:+ nl +:+ "2,b" +:+ nl in
  let c2 := "3,c" +:+ nl in
  whole_lines c1 ∧
  loadNodes graph_new (fopen_read (c1 +:+ c2)) = load_then loadNodes graph_new c1 c2 ∧
  loadEdges graph_new (fopen_read (c1 +:+ c2)) = load_then loadEdges graph_new c1 c2.
Proof.
  intros c1 c2.
  assert (Hw : whole_lines c1) by (vm_compute; exact I).
  split; [exact Hw|]. exact (loaders_compose graph_new c1 c2 Hw).
Defined.

Lemma load_tail_lines body load g c t :
  (∀ g f, load g f = lines_loop body (S (String.length (f_rest f))) g f) →
  whole_lines c → no_newline t → (String.length t ≤ 198)%nat →
  load g (fopen_read (c +:+ t)) = load g (fopen_read c).
Proof.
  intros Hload Hw Hn Hlen.
  rewrite (load_then_lines body load g c t Hload Hw). unfold load_then.
  destruct (load g (fopen_read c)) as [[g1|]| |]; cbn [obind]; [|done..].
  rewrite Hload. apply lines_loop_tail; [done..|lia].
Qed.

(** X14: a last line that does not end with a newline is not loaded.  When
    the text after the last newline is shorter than the buffer, reading it
    meets the end of the file and the loop is left before the line is
    looked at, so the file gives the same graph with and without it. *)
Theorem unterminated_last_line_dropped g c t :
  whole_lines c → no_newline t → (String.length t ≤ 198)%nat →
  loadNodes g (fopen_read (c +:+ t)) = loadNodes g (fopen_read c) ∧
  loadEdges g (fopen_read (c +:+ t)) = loadEdges g (fopen_read c).
Proof.
  intros Hw Hn Hlen. split.
  - by apply (load_tail_lines node_record); [apply loadNodes_lines|..].
  - by apply (load_tail_lines edge_record); [apply loadEdges_lines|..].
Qed.

Lemma unterminated_last_line_dropped_witness :
  loadNodes graph_new (fopen_read (("1" +:+ nl) +:+ "2")) =
    Ret (Some (<[1 := new_node 1]> ∅)) ∧
  loadNodes graph_new (fopen_read (("1" +:+ nl) +:+ "2")) =
    loadNodes graph_new (fopen_read ("1" +:+ nl)).
Proof.
  split; [vm_compute; reflexivity|].
  refine (proj1 (unterminated_last_line_dropped graph_new ("1" +:+ nl) "2" _ _ _)).
  - vm_compute. exact I.
  - vm_compute. exact I.
  - vm_compute. lia.
Defined.

Lemma fgets_chars_full : ∀ piece rest,
  no_newline piece →
  fgets_chars (String.length piece) (piece +:+ rest) = (piece, rest, false).
Proof.
  induction piece as [|a piece IH]; intros rest Hn; [done|].
  simpl in *. apply andb_prop_elim in Hn as [Ha%bool_decide_unpack Hn].
  rewrite decide_False by done. by rewrite (IH rest Hn).
Qed.

Lemma record_then_lines body load g piece rest :
  (∀ g f, load g f = lines_loop body (S (String.length (f_rest f))) g f) →
  no_newline piece → String.length piece = 199%nat →
  load g (fopen_read (piece +:+ rest)) = record_then body load g piece rest.
Proof.
  intros Hload Hn Hlen. unfold record_then. rewrite Hload.
  cbn [lines_loop]. unfold fgets, fopen_read at 1 2. cbn [f_rest f_eof].
  change (200 - 1)%nat with 199%nat. rewrite <- Hlen at 1.
  rewrite (fgets_chars_full piece rest Hn). cbn [f_eof].
  destruct (body g piece) as [[g1|]| |]; cbn [obind]; [|done..].
  rewrite Hload. apply lines_loop_fuel; cbn [fopen_read f_rest].
  - rewrite string_length_app. lia.
  - lia.
Qed.

(** X15: a line longer than the buffer is read in pieces.  The first 199
    characters of a text, when there is no newline among them, are taken
    for a line and loaded as such; what follows them, the rest of the same
    line included, is loaded as a text of its own. *)
Theorem long_line_is_split g piece rest :
  no_newline piece → String.length piece = 199%nat →
  loadNodes g (fopen_read (piece +:+ rest)) =
    record_then node_record loadNodes g piece rest ∧
  loadEdges g (fopen_read (piece +:+ rest)) =
    record_then edge_record loadEdges g piece rest.
Proof.
  intros Hn Hlen. split.
  - by apply record_then_lines; [apply loadNodes_lines|..].
  - by apply record_then_lines; [apply loadEdges_lines|..].
Qed.

Lemma long_line_is_split_witness :
  let piece := "5," +:+ chars 197 "a" in
  let rest := "aaa" +:+ nl in
  loadNodes graph_new (fopen_read (piece +:+ rest)) =
    record_then node_record loadNodes graph_new piece rest ∧
  loadNodes graph_new (fopen_read (piece +:+ rest)) =
    Ret (Some (<[0 := new_node 0]> (<[5 := new_node 5]> ∅))).
Proof.
  intros piece rest. split; [|vm_compute; reflexivity].
  refine (proj1 (long_line_is_split graph_new piece rest _ _)).
  - vm_compute. exact I.
  - vm_compute. reflexivity.
Defined.

(** ** The fields of a line *)

Lemma take_token_split : ∀ s t r,
  take_token s = (t, r) →
  split_commas s = t :: split_commas r ∨
  (split_commas s = [t] ∧ r = EmptyString).
Proof.
  induction s as [|c s IH]; intros t r; simpl.
  { intros [= <- <-]. by right. }
  case_decide.
  { intros [= <- <-]. by left. }
  destruct (take_token s) as [t' r'] eqn:Htok. intros [= <- <-].
  destruct (IH t' r' eq_refl) as [->|[-> ->]]; [by left|by right].
Qed.

Lemma fields_skip_delims s : fields (skip_delims s) = fields s.
Proof.
  induction s as [|c s IH]; [done|]. simpl. case_decide; [|done].
  rewrite IH. unfold fields. simpl. rewrite decide_True by done.
  by rewrite filter_cons_False by (by intros ?).
Qed.

Lemma skip_delims_head s c s' : skip_delims s = String c s' → c ≠ ","%char.
Proof.
  induction s as [|a s IH]; [done|]. simpl. case_decide; [done|].
  by intros [= <- <-].
Qed.

(** [strtok] goes through the fields of a line. *)
Lemma strtok_fields s :
  match strtok s with
  | (Some t, r) => fields s = t :: fields r
  | (None, _) => fields s = []
  end.
Proof.
  unfold strtok. rewrite <- (fields_skip_delims s).
  destruct (skip_delims s) as [|c s'] eqn:Hs; [done|].
  pose proof (skip_delims_head _ _ _ Hs) as Hc.
  destruct (take_token (String c s')) as [t r] eqn:Htok.
  assert (t ≠ EmptyString).
  { simpl in Htok. rewrite decide_False in Htok by done.
    destruct (take_token s'). by injection Htok as <- _. }
  unfold fields.
  destruct (take_token_split _ _ _ Htok) as [->|[-> ->]].
  - by rewrite filter_cons_True.
  - by rewrite filter_cons_True.
Qed.


Lemma edge_record_fields g buffer :
  edge_record g buffer =
    match fields (cstr buffer) with
    | t1 :: t2 :: _ :: t4 :: _ =>
        v1 ←← atoi (Some t1);
        v2 ←← atoi (Some t2);
        w ←← atoi (Some t4);
        Ret (graph_insert_edge g (to_uint v1) (to_uint v2) w)
    | _ => Undef
    end.
Proof.
  unfold edge_record. pose proof (strtok_fields (cstr buffer)) as Hf1.
  destruct (strtok (cstr buffer)) as [[t1|] s1]; rewrite Hf1; [|done].
  pose proof (strtok_fields s1) as Hf2.
  destruct (atoi (Some t1)) as [v1| |] eqn:Hv1; cbn [obind].
  2:{ by destruct (fields s1) as [|? [|? [|? ?]]]. }
  2:{ by destruct (atoi_not_timeout (Some t1)). }
  destruct (strtok s1) as [[t2|] s2]; rewrite Hf2; [|done].
  pose proof (strtok_fields s2) as Hf3.
  destruct (atoi (Some t2)) as [v2| |] eqn:Hv2; cbn [obind].
  2:{ by destruct (fields s2) as [|? [|? ?]]. }
  2:{ by destruct (atoi_not_timeout (Some t2)). }
  destruct (strtok s2) as [[t3|] s3] eqn:H3; rewrite Hf3.
  2:{ unfold strtok in H3. destruct (skip_delims s2); [|by destruct (take_token _)].
      by injection H3 as <-. }
  pose proof (strtok_fields s3) as Hf4.
  destruct (strtok s3) as [[t4|] s4]; by rewrite Hf4.
Qed.




(** X17: a line of the edge file is read by its first, second and fourth
    field, the fields being the pieces between commas that are not empty:
    they give the source, the destination and the weight, in that order,
    through [atoi]; the third field and everything after the fourth are
    ignored.  A line with fewer than four fields gives the null pointer to
    [atoi], which is undefined. *)
Theorem edge_line_fields fuel g f buffer f' :
  f_eof f = false → fgets 200 f = (buffer, f') → f_eof f' = false →
  loadEdges_loop (S fuel) g f =
    match fields (cstr buffer) with
    | t1 :: t2 :: _ :: t4 :: _ =>
        v1 ←← atoi (Some t1);
        v2 ←← atoi (Some t2);
        w ←← atoi (Some t4);
        match graph_insert_edge g (to_uint v1) (to_uint v2) w with
        | Some g' => loadEdges_loop fuel g' f'
        | None => Ret None
        end
    | _ => Undef
    end.
Proof.
  intros Hf Hget Hf'. rewrite loadEdges_loop_lines. cbn [lines_loop].
  rewrite Hf, Hget, Hf', edge_record_fields.
  destruct (fields (cstr buffer)) as [|t1 [|t2 [|t3 [|t4 ?]]]]; [done..|].
  destruct (atoi (Some t1)) as [v1| |]; cbn [obind]; [|done..].
  destruct (atoi (Some t2)) as [v2| |]; cbn [obind]; [|done..].
  destruct (atoi (Some t4)) as [w| |]; cbn [obind]; [|done..].
  destruct (graph_insert_edge g (to_uint v1) (to_uint v2) w); [|done].
  by rewrite loadEdges_loop_lines.
Qed.

Lemma edge_line_fields_witness :
  let f := fopen_read ("1,,2,x,5,6" +:+ nl +:+ "1,2,5" +:+ nl) in
  fgets 200 f = ("1,,2,x,5,6" +:+ nl, fopen_read ("1,2,5" +:+ nl)) ∧
  fields (cstr ("1,,2,x,5,6" +:+ nl)) = ["1"; "2"; "x"; "5"; "6" +:+ nl]%string ∧
  loadEdges_loop 3 graph_new f =
    loadEdges_loop 2 (default ∅ (graph_insert_edge graph_new 1 2 5))
      (fopen_read ("1,2,5" +:+ nl)) ∧
  fields (cstr ("1,2,5" +:+ nl)) = ["1"; "2"; "5" +:+ nl]%string ∧
  loadEdges graph_new f = Undef.
Proof.
  intros f.
  assert (Hget : fgets 200 f = ("1,,2,x,5,6" +:+ nl, fopen_read ("1,2,5" +:+ nl)))
    by (vm_compute; reflexivity).
  split; [exact Hget|]. split; [vm_compute; reflexivity|].
  split; [|split; vm_compute; reflexivity].
  exact (edge_line_fields 2 graph_new f _ _ eq_refl Hget eq_refl).
Defined.

(** ** What the loaders put into the graph *)

Lemma atoi_range t v : atoi t = Ret v → INT_MIN ≤ v ≤ INT_MAX.
Proof. destruct t as [t|]; simpl; [|done]. case_decide; [|done]. by intros [= <-]. Qed.

Lemma graph_insert_node_in_range g i g' :
  in_range g → 0 ≤ i ≤ UINT_MAX → graph_insert_node g i = Some g' → in_range g'.
Proof.
  intros Hg Hi. unfold graph_insert_node. destruct (g !! i) eqn:Hgi.
  - by intros [= <-].
  - intros [= <-] k x. rewrite lookup_insert_Some.
    intros [[<- <-]|[_ Hk]]; [|by apply Hg]. split; [done|]. simpl. constructor.
Qed.

Lemma graph_insert_edge_in_range g s d w g' :
  in_range g → 0 ≤ s ≤ UINT_MAX → 0 ≤ d ≤ UINT_MAX → INT_MIN ≤ w ≤ INT_MAX →
  graph_insert_edge g s d w = Some g' → in_range g'.
Proof.
  intros Hg Hs Hd Hw. unfold graph_insert_edge.
  destruct (graph_insert_node g s) as [g1|] eqn:H1; [|done]. simpl.
  destruct (graph_insert_node g1 d) as [g2|] eqn:H2; [|done]. simpl.
  intros [= <-].
  pose proof (graph_insert_node_in_range _ _ _ Hg Hs H1) as Hg1.
  pose proof (graph_insert_node_in_range _ _ _ Hg1 Hd H2) as Hg2.
  intros k x. rewrite lookup_alter. case_decide as Hk; [|by apply Hg2].
  subst k. destruct (g2 !! s) as [y|] eqn:Hy; [|done]. intros [= <-].
  destruct (Hg2 s y Hy) as [? Hall]. split; [done|]. simpl.
  apply Forall_app. split; [done|]. constructor; [done|constructor].
Qed.

Lemma node_record_in_range g b g' :
  in_range g → node_record g b = Ret (Some g') → in_range g'.
Proof.
  intros Hg. unfold node_record. destruct (strtok (cstr b)) as [t save].
  destruct (atoi t) as [v| |]; cbn [obind]; [|done..]. intros [= Hins].
  eapply graph_insert_node_in_range; [done| |done]. apply to_uint_range.
Qed.

Lemma edge_record_in_range g b g' :
  in_range g → edge_record g b = Ret (Some g') → in_range g'.
Proof.
  intros Hg. unfold edge_record. destruct (strtok (cstr b)) as [t1 s1].
  destruct (atoi t1) as [v1| |]; cbn [obind]; [|done..].
  destruct (strtok s1) as [t2 s2].
  destruct (atoi t2) as [v2| |]; cbn [obind]; [|done..].
  destruct (strtok s2) as [t3 s3]. destruct (strtok s3) as [t4 s4].
  destruct (atoi t4) as [v4| |] eqn:Hv4; cbn [obind]; [|done..]. intros [= Hins].
  eapply graph_insert_edge_in_range;
    [done|apply to_uint_range|apply to_uint_range|by eapply atoi_range|done].
Qed.

(** X18: in the graph the driver loads, every node id and every destination
    of an edge is a number between 0 and 2^32 - 1, and every weight is a
    number an [int] holds: ids go through the conversion to [unsigned int]
    and weights come from [atoi], which is undefined beyond the range. *)
Theorem loaded_in_range env nodesFile edgesFile g n e :
  loaded env nodesFile edgesFile g →
  (is_Some (g !! n) → 0 ≤ n ≤ UINT_MAX) ∧
  (e ∈ node_get_edges g n →
     0 ≤ destination e ≤ UINT_MAX ∧ INT_MIN ≤ mindelay e ≤ INT_MAX).
Proof.
  intros (nodes & edges & g1 & _ & _ & Hn & He).
  assert (Hr : in_range g).
  { rewrite loadEdges_lines in He. rewrite loadNodes_lines in Hn.
    eapply (lines_loop_inv edge_record in_range); [|
      eapply (lines_loop_inv node_record in_range)|]; [..|exact He];
      [apply edge_record_in_range|apply node_record_in_range| |exact Hn].
    intros k x Hx. unfold graph_new in Hx. by rewrite lookup_empty in Hx. }
  split.
  - intros [x Hx]. by destruct (Hr n x Hx).
  - unfold node_get_edges. destruct (g !! n) as [x|] eqn:Hx.
    + destruct (Hr n x Hx) as [_ Hall]. rewrite Forall_forall in Hall. apply Hall.
    + by intros ?%elem_of_nil.
Qed.

Lemma loaded_in_range_witness :
  let e := {| destination := 3; mindelay := 10 |} in
  (is_Some (scenario_graph !! 1) → 0 ≤ 1 ≤ UINT_MAX) ∧
  (e ∈ node_get_edges scenario_graph 1 →
     0 ≤ destination e ≤ UINT_MAX ∧ INT_MIN ≤ mindelay e ≤ INT_MAX).
Proof.
  exact (loaded_in_range scenario_env "nodes" "edges" scenario_graph 1
    {| destination := 3; mindelay := 10 |} scenario_loaded).
Defined.

Lemma grows_refl g : grows g g.
Proof. intros k x Hx. exists []. rewrite app_nil_r. by destruct x. Qed.

Lemma grows_trans g1 g2 g3 : grows g1 g2 → grows g2 g3 → grows g1 g3.
Proof.
  intros H12 H23 k x Hx. destruct (H12 k x Hx) as [m1 H1].
  destruct (H23 k _ H1) as [m2 H2]. simpl in H2. exists (m1 ++ m2).
  by rewrite app_assoc.
Qed.

Lemma graph_insert_node_subseteq g i g' :
  graph_insert_node g i = Some g' →
  g ⊆ g' ∧ ∀ k x, g' !! k = Some x → g !! k = None → x = new_node k.
Proof.
  unfold graph_insert_node. destruct (g !! i) eqn:Hgi.
  - intros [= <-]. split; [done|]. intros k x ? ?. congruence.
  - intros [= <-]. split; [by apply insert_subseteq|].
    intros k x. rewrite lookup_insert_Some. intros [[<- <-]|[_ Hk]]; [done|congruence].
Qed.

Lemma subseteq_grows (g g' : Graph) : g ⊆ g' → grows g g'.
Proof.
  intros Hsub k x Hx. exists []. rewrite app_nil_r.
  rewrite (lookup_weaken _ _ _ _ Hx Hsub). by destruct x.
Qed.

Lemma graph_insert_edge_grows g s d w g' :
  graph_insert_edge g s d w = Some g' → grows g g'.
Proof.
  unfold graph_insert_edge.
  destruct (graph_insert_node g s) as [g1|] eqn:H1; [|done]. simpl.
  destruct (graph_insert_node g1 d) as [g2|] eqn:H2; [|done]. simpl.
  intros [= <-].
  apply graph_insert_node_subseteq in H1 as [H1 _].
  apply graph_insert_node_subseteq in H2 as [H2 _].
  eapply grows_trans; [apply subseteq_grows; by etrans|].
  intros k x Hx. rewrite lookup_alter. case_decide.
  - subst k. rewrite Hx. simpl. by eexists.
  - exists []. rewrite app_nil_r, Hx. by destruct x.
Qed.

(** X19: the loaders only add.  The node loader leaves every node of the
    graph as it is and adds nodes that are new: at the infinity sentinel,
    without predecessor and without edges.  The edge loader keeps every
    node, with its id, distance and predecessor, and keeps its edges in
    their order, new ones coming after them. *)
Theorem loaders_only_add g f g' :
  (loadNodes g f = Ret (Some g') →
     g ⊆ g' ∧ ∀ k x, g' !! k = Some x → g !! k = None → x = new_node k) ∧
  (loadEdges g f = Ret (Some g') → grows g g').
Proof.
  split.
  - rewrite loadNodes_lines.
    apply (lines_loop_inv node_record (λ g', g ⊆ g' ∧
      ∀ k x, g' !! k = Some x → g !! k = None → x = new_node k));
      [|split; [done|intros; congruence]].
    intros g1 b g2 [Hsub Hnew]. unfold node_record.
    destruct (strtok (cstr b)) as [t save].
    destruct (atoi t) as [v| |]; cbn [obind]; [|done..].
    intros [= [Hsub2 Hnew2]%graph_insert_node_subseteq].
    split; [by etrans|]. intros k x Hx Hk.
    destruct (g1 !! k) as [y|] eqn:Hy.
    + rewrite (lookup_weaken _ _ _ _ Hy Hsub2) in Hx. simplify_eq. by apply Hnew.
    + by apply Hnew2.
  - rewrite loadEdges_lines.
    apply (lines_loop_inv edge_record (grows g)); [|apply grows_refl].
    intros g1 b g2 Hg. unfold edge_record. destruct (strtok (cstr b)) as [t1 s1].
    destruct (atoi t1) as [v1| |]; cbn [obind]; [|done..].
    destruct (strtok s1) as [t2 s2].
    destruct (atoi t2) as [v2| |]; cbn [obind]; [|done..].
    destruct (strtok s2) as [t3 s3]. destruct (strtok s3) as [t4 s4].
    destruct (atoi t4) as [v4| |]; cbn [obind]; [|done..].
    intros [= Hins%graph_insert_edge_grows]. by eapply grows_trans.
Qed.

Lemma loaders_only_add_witness :
  let g := <[1 := new_node 1]> (∅ : Graph) in
  let g' := default ∅ (graph_insert_edge g 1 2 5) in
  loadEdges g (fopen_read ("1,2,a,5" +:+ nl)) = Ret (Some g') ∧ grows g g'.
Proof.
  intros g g'.
  assert (Hrun : loadEdges g (fopen_read ("1,2,a,5" +:+ nl)) = Ret (Some g'))
    by (vm_compute; reflexivity).
  split; [exact Hrun|].
  exact (proj2 (loaders_only_add g (fopen_read ("1,2,a,5" +:+ nl)) g') Hrun).
Defined.

(** ** The messages *)

(** X20: the error classes have messages of their own: two classes never
    share a message, and every message is one line, not empty, that ends
    with a newline. *)
Theorem error_messages_distinct e e' :
  (errorHandle e = errorHandle e' ↔ e = e') ∧
  ∃ text, errorHandle e = text +:+ nl ∧ no_newline text ∧ text ≠ EmptyString.
Proof.
  split; [split; [apply errorHandle_inj|by intros ->]|].
  destruct e; eexists; (split; [reflexivity|split; [vm_compute; exact I|done]]).
Qed.

(** ** Predecessor links that form a cycle *)

Lemma print_walk_cycle g (P : Z → Prop) fuel : ∀ n,
  (∀ m, P m → ∃ p, node_get_previous g m = Some p ∧ P p) → P n →
  print_walk fuel g n (node_get_previous g n) = Timeout.
Proof.
  induction fuel as [|fuel IH]; intros n Hc Hn;
    destruct (Hc n Hn) as (p & Hp & HPp); rewrite Hp; [done|].
  simpl. by rewrite (IH p Hc HPp).
Qed.

(** X21: the renderer stops only where the predecessor links do.  On links
    that never lead to a node without a predecessor, the walk from a target
    other than the source goes on forever, after the opening line: that the
    renderer ends is owed to the search, which links every node to a node
    it has extracted before. *)
Theorem walk_on_cycle_never_ends g (P : Z → Prop) source_id dest fuel :
  (∀ m, P m → ∃ p, node_get_previous g m = Some p ∧ P p) → P dest →
  source_id ≠ node_get_id g dest →
  printShortestPath fuel g source_id dest = Timeout.
Proof.
  intros Hc Hd Hne. unfold printShortestPath. rewrite decide_True by done.
  by rewrite (print_walk_cycle g P fuel dest Hc Hd).
Qed.

Lemma walk_on_cycle_never_ends_witness :
  node_get_previous cyclic_graph 1 = Some 2 ∧
  node_get_previous cyclic_graph 2 = Some 1 ∧
  printShortestPath 1000 cyclic_graph 3 1 = Timeout.
Proof.
  split; [reflexivity|]. split; [reflexivity|].
  refine (walk_on_cycle_never_ends cyclic_graph (λ m, m = 1 ∨ m = 2) 3 1 1000 _ _ _).
  - intros m [-> | ->]; [exists 2|exists 1]; (split; [reflexivity|auto]).
  - by left.
  - vm_compute. discriminate.
Defined.

(** ** Files and memory *)

Lemma dijkstra_events_heap g s dest fuel r :
  dijkstra fuel g s dest = Ret r →
  dijkstra_events g s =
    match dr_heap r with
    | None => [Acquire TheHeap; Release TheHeap]
    | Some _ => [Acquire TheHeap]
    end.
Proof.
  unfold dijkstra, dijkstra_events.
  destruct (heap_new_from_graph g) as [[h0 g0]|] eqn:Hnew; [|done].
  destruct (graph_get_node g0 s); [|by intros [= <-]].
  destruct (heap_decrease_distance _ _ _ _ _) as [[h1 g1]| |]; cbn [obind]; [|done..].
  destruct (dijkstra_loop _ _ _ _) as [[h2 g2]| |]; cbn [obind]; [|done..].
  by intros [= <-].
Qed.

(** X22: a run that ends has closed every file it has opened and freed the
    graph and the heap it has allocated, each once, in every way the run
    can end; nothing is closed or freed that is not open or allocated at
    that moment, and nothing is opened or allocated twice.  The one thing
    closed that the run has not opened is the standard output, at the end
    of a successful run without an output file. *)
Theorem resources_released fuel env nodesFile edgesFile sourceNode destNode
    outputFile r :
  app fuel env nodesFile edgesFile sourceNode destNode outputFile = Ret r →
  ∃ evs,
    app_events fuel env nodesFile edgesFile sourceNode destNode outputFile
      = Ret evs ∧
    replay evs [StandardOutput] =
      Some (if decide (outputFile = None ∧ exit_code r = 0) then []
            else [StandardOutput]).
Proof.
  unfold app_events, app.
  destruct (fs_read env nodesFile) as [nodes|].
  2:{ intros [= <-]. eexists. split; [done|]. by rewrite decide_False by by intros []. }
  destruct (fs_read env edgesFile) as [edges|].
  2:{ intros [= <-]. eexists. split; [done|]. by rewrite decide_False by by intros []. }
  destruct (loadNodes _ _) as [[g1|]| |]; cbn [obind]; [| |done..].
  2:{ intros [= <-]. eexists. split; [done|]. by rewrite decide_False by by intros []. }
  destruct (loadEdges _ _) as [[g|]| |]; cbn [obind]; [| |done..].
  2:{ intros [= <-]. eexists. split; [done|]. by rewrite decide_False by by intros []. }
  destruct (atoi (Some destNode)) as [d| |]; cbn [obind]; [|done..].
  destruct (graph_get_node g (to_uint d)) as [dn|].
  2:{ intros [= <-]. eexists. split; [done|]. by rewrite decide_False by by intros []. }
  destruct (atoi (Some sourceNode)) as [s| |]; cbn [obind]; [|done..].
  destruct (dijkstra _ _ _ _) as [dr| |] eqn:Hrun; cbn [obind]; [|done..].
  rewrite (dijkstra_events_heap _ _ _ _ _ Hrun).
  destruct (dr_heap dr).
  2:{ intros [= <-]. eexists. split; [done|]. by rewrite decide_False by by intros []. }
  case_decide.
  { intros [= <-]. eexists. split; [done|]. by rewrite decide_False by by intros []. }
  destruct outputFile as [name|].
  - destruct (fs_can_create env name).
    2:{ intros [= <-]. eexists. split; [done|].
        by rewrite decide_False by by intros []. }
    destruct (printShortestPath _ _ _ _); cbn [obind]; [|done..].
    intros [= <-]. eexists. split; [done|]. by rewrite decide_False by by intros [].
  - destruct (printShortestPath _ _ _ _); cbn [obind]; [|done..].
    intros [= <-]. eexists. split; [done|]. by rewrite decide_True.
Qed.

Lemma resources_released_witness :
  let evs := [Acquire NodesFile; Acquire EdgesFile; Acquire TheGraph;
              Acquire TheHeap; Release TheHeap; Release TheGraph;
              Release NodesFile; Release EdgesFile] in
  app 3 scenario_env "nodes" "edges" "3" "1" (Some "out"%string) =
    Ret (failure [errorHandle NO_PATH]) ∧
  app_events 3 scenario_env "nodes" "edges" "3" "1" (Some "out"%string) = Ret evs ∧
  ∃ evs',
    app_events 3 scenario_env "nodes" "edges" "3" "1" (Some "out"%string)
      = Ret evs' ∧
    replay evs' [StandardOutput] = Some [StandardOutput].
Proof.
  intros evs.
  assert (Hrun : app 3 scenario_env "nodes" "edges" "3" "1" (Some "out"%string) =
    Ret (failure [errorHandle NO_PATH])) by (vm_compute; reflexivity).
  split; [exact Hrun|]. split; [vm_compute; reflexivity|].
  exact (resources_released 3 scenario_env "nodes" "edges" "3" "1"
    (Some "out"%string) _ Hrun).
Defined.
